(** * SonicWave music library: a shallow embedding of the catalog core

    The development follows the Python sources file by file:
    [data_structures.py] (SinglyLinkedList, Stack, Queue,
    MultiLinkedListByGenre, BST, SongGraph), [models.py] (Song, Playlist)
    and [music_manager.py] (MusicLibraryManager).

    Python objects are shared by reference: one [Song] object is reachable
    from the master list, the genre lists, the title tree, the history, the
    queue, the playlists and the id map at once, and [update_song] and
    [record_play] mutate it in place.  The embedding therefore keeps an
    explicit object store ([heap]) and lets every container hold
    references ([loc]) into it.  Linked node chains (SLL, DLL, genre
    headers) are represented by the sequence of their payloads, binary tree
    nodes by an inductive tree, and Python dicts by insertion-ordered
    association lists.

    Strings are ASCII strings; [str.lower] is the ASCII lower-casing. *)

From Stdlib Require Import List ZArith String Ascii Bool Lia Permutation Sorted.
Import ListNotations.

Local Open Scope Z_scope.
Local Open Scope list_scope.

(* ------------------------------------------------------------------ *)
(** ** Python strings *)

Module PyStr.

(** [c.lower()] on one ASCII character. *)
Definition lower_ascii (c : ascii) : ascii :=
  let n := nat_of_ascii c in
  if ((65 <=? n)%nat && (n <=? 90)%nat)%bool
  then ascii_of_nat (n + 32) else c.

(** [s.lower()] *)
Fixpoint lower (s : string) : string :=
  match s with
  | EmptyString => EmptyString
  | String c s' => String (lower_ascii c) (lower s')
  end.

(** [q in t] on strings: [q] occurs as a contiguous substring of [t]. *)
Fixpoint contains (q t : string) : bool :=
  String.prefix q t ||
  match t with
  | EmptyString => false
  | String _ t' => contains q t'
  end.

(** [a < b] on strings: lexicographic on code points. *)
Definition lt (a b : string) : bool := String.ltb a b.

(** truth value of a string: non-empty. *)
Definition truthy (s : string) : bool :=
  match s with EmptyString => false | _ => true end.

End PyStr.

(* ------------------------------------------------------------------ *)
(** ** Python dicts: insertion-ordered association lists with unique keys *)

Module Dict.
Section Dict.
Context {K V : Type} (eqb : K -> K -> bool).

Definition t := list (K * V).

(** [d.get(k)] *)
Fixpoint get (k : K) (d : t) : option V :=
  match d with
  | [] => None
  | (k', v) :: d' => if eqb k k' then Some v else get k d'
  end.

(** [k in d] *)
Definition mem (k : K) (d : t) : bool :=
  match get k d with Some _ => true | None => false end.

(** [d[k] = v]: an existing key keeps its position, a new one goes last. *)
Fixpoint set (k : K) (v : V) (d : t) : t :=
  match d with
  | [] => [(k, v)]
  | (k', v') :: d' =>
      if eqb k k' then (k', v) :: d' else (k', v') :: set k v d'
  end.

(** [del d[k]] / [d.pop(k, None)] *)
Fixpoint del (k : K) (d : t) : t :=
  match d with
  | [] => []
  | (k', v') :: d' => if eqb k k' then d' else (k', v') :: del k d'
  end.

Definition keys (d : t) : list K := map fst d.
Definition values (d : t) : list V := map snd d.

End Dict.
End Dict.

(* ------------------------------------------------------------------ *)
(** ** models.py: Song, and the object store *)

Record Song := mkSong {
  song_id : Z;
  title : string;
  artist : string;
  album : string;
  genre : string;
  year : Z;
  duration_seconds : Z;
  file_path : string;
  play_count : Z;
  is_favorite : bool
}.

(** A reference to a [Song] object. *)
Definition loc := nat.

(** The store of all [Song] objects ever constructed; a reference is the
    index of its object.  Objects are never freed. *)
Definition heap := list Song.

(** Value read through a reference that points nowhere.  Python has no such
    reference; every reference held by a state built by the operations
    below is below [length heap]. *)
Definition no_song : Song :=
  mkSong 0 "" "" "" "" 0 0 "" 0 false.

Definition deref (h : heap) (l : loc) : Song := nth l h no_song.

(** In-place replacement of the object at [l]. *)
Fixpoint heap_set (h : heap) (l : loc) (s : Song) : heap :=
  match h, l with
  | [], _ => []
  | _ :: h', O => s :: h'
  | x :: h', S l' => x :: heap_set h' l' s
  end.

(** [getattr(x, 'song_id', None) == song_id] for a stored reference. *)
Definition has_id (h : heap) (id : Z) (l : loc) : bool :=
  song_id (deref h l) =? id.

(** Drop the first element satisfying [p] (one unlink in a linked chain).
    The boolean tells whether something was unlinked. *)
Fixpoint unlink_first {A} (p : A -> bool) (xs : list A) : bool * list A :=
  match xs with
  | [] => (false, [])
  | x :: xs' =>
      if p x then (true, xs')
      else let '(b, r) := unlink_first p xs' in (b, x :: r)
  end.

(* ------------------------------------------------------------------ *)
(** ** data_structures.py: SinglyLinkedList *)

Module SinglyLinkedList.

(** The chain head -> ... -> tail, as the sequence of its songs. *)
Definition t := list loc.

Definition empty : t := [].

Definition insert_end (song : loc) (l : t) : t := l ++ [song].

Definition delete_by_song_id (h : heap) (id : Z) (l : t) : bool * t :=
  unlink_first (has_id h id) l.

Definition traverse (l : t) : list loc := l.

End SinglyLinkedList.

(* ------------------------------------------------------------------ *)
(** ** data_structures.py: Stack *)

Module Stack.
Section Stack.
Context {A : Type}.

(** [_items]; the top of the stack is the last element. *)
Definition t := list A.

Definition empty : t := [].

Definition push (x : A) (s : t) : t := s ++ [x].

Definition peek (s : t) : option A :=
  match s with [] => None | _ => nth_error s (Nat.pred (List.length s)) end.

Definition pop (s : t) : option A * t :=
  match s with [] => (None, s) | _ => (peek s, removelast s) end.

Definition is_empty (s : t) : bool :=
  match s with [] => true | _ => false end.

Definition to_list (s : t) : list A := rev s.

End Stack.
End Stack.

(* ------------------------------------------------------------------ *)
(** ** data_structures.py: Queue *)

Module Queue.
Section Queue.
Context {A : Type}.

Record t := mk { _data : list A; _head_idx : nat }.

Definition empty : t := mk [] 0.

Definition enqueue (x : A) (q : t) : t :=
  mk (_data q ++ [x]) (_head_idx q).

Definition dequeue (q : t) : option A * t :=
  if (List.length (_data q) <=? _head_idx q)%nat then (None, q)
  else
    let item := nth_error (_data q) (_head_idx q) in
    let hd := S (_head_idx q) in
    if ((32 <? hd)%nat && (List.length (_data q) <? hd * 2)%nat)%bool
    then (item, mk (skipn hd (_data q)) 0)
    else (item, mk (_data q) hd).

Definition peek (q : t) : option A :=
  if (List.length (_data q) <=? _head_idx q)%nat then None
  else nth_error (_data q) (_head_idx q).

Definition is_empty (q : t) : bool :=
  (List.length (_data q) <=? _head_idx q)%nat.

Definition to_list (q : t) : list A := skipn (_head_idx q) (_data q).

End Queue.
End Queue.

(* ------------------------------------------------------------------ *)
(** ** data_structures.py: MultiLinkedListByGenre *)

Module MultiLinkedListByGenre.

(** The chain of genre headers; each header carries its genre name (first
    seen casing) and the chain of its song nodes. *)
Definition t := list (string * list loc).

Definition empty : t := [].

(** [add_song]: [_find_or_create_header] followed by the append to the
    header's song chain.  [g] is [song.genre] read at the call. *)
Fixpoint add_genre (g : string) (song : loc) (hs : t) : t :=
  match hs with
  | [] => [(g, [song])]
  | (g', songs) :: hs' =>
      if String.eqb (PyStr.lower g') (PyStr.lower g)
      then (g', songs ++ [song]) :: hs'
      else (g', songs) :: add_genre g song hs'
  end.

Definition add_song (h : heap) (song : loc) (hs : t) : t :=
  add_genre (genre (deref h song)) song hs.

(** [remove_song]: in every header, unlink the first node with that id,
    then unlink the header when its chain is empty. *)
Fixpoint remove_song (h : heap) (id : Z) (hs : t) : t :=
  match hs with
  | [] => []
  | (g, songs) :: hs' =>
      match snd (unlink_first (has_id h id) songs) with
      | [] => remove_song h id hs'
      | songs' => (g, songs') :: remove_song h id hs'
      end
  end.

Fixpoint get_songs_by_genre (g : string) (hs : t) : list loc :=
  match hs with
  | [] => []
  | (g', songs) :: hs' =>
      if String.eqb (PyStr.lower g') (PyStr.lower g) then songs
      else get_songs_by_genre g hs'
  end.

Definition get_all_genres (hs : t) : list string := map fst hs.

End MultiLinkedListByGenre.

(* ------------------------------------------------------------------ *)
(** ** data_structures.py: BST *)

Module BST.

(** [Node key song left right]; [key] is the lower-cased title given at
    insertion. *)
Inductive t :=
| Leaf
| Node (key : string) (song : loc) (left right : t).

Definition empty : t := Leaf.

(** The descent of [insert] with the already lower-cased [node.key]. *)
Fixpoint insert_key (k : string) (song : loc) (tr : t) : t :=
  match tr with
  | Leaf => Node k song Leaf Leaf
  | Node k' s' l r =>
      if PyStr.lt k k' then Node k' s' (insert_key k song l) r
      else Node k' s' l (insert_key k song r)
  end.

Definition insert (key : string) (song : loc) (tr : t) : t :=
  insert_key (PyStr.lower key) song tr.

(** The descent of [search] with the already lower-cased key. *)
Fixpoint search_key (k : string) (tr : t) : option loc :=
  match tr with
  | Leaf => None
  | Node k' s' l r =>
      if String.eqb k k' then Some s'
      else if PyStr.lt k k' then search_key k l
      else search_key k r
  end.

Definition search (key : string) (tr : t) : option loc :=
  search_key (PyStr.lower key) tr.

Fixpoint inorder (tr : t) : list loc :=
  match tr with
  | Leaf => []
  | Node _ s l r => inorder l ++ s :: inorder r
  end.

Definition search_partial (h : heap) (query : string) (tr : t) : list loc :=
  let q := PyStr.lower query in
  filter (fun s => PyStr.contains q (PyStr.lower (title (deref h s))))
         (inorder tr).

(** The (key, song) pairs of the nodes, in-order. *)
Fixpoint nodes (tr : t) : list (string * loc) :=
  match tr with
  | Leaf => []
  | Node k s l r => nodes l ++ (k, s) :: nodes r
  end.

End BST.

(* ------------------------------------------------------------------ *)
(** ** data_structures.py: SongGraph *)

Module SongGraph.

(** [adj]: song id -> list of neighbour ids. *)
Definition t := Dict.t (K := Z) (V := list Z).

Definition empty : t := [].

Definition neighbors (v : Z) (g : t) : list Z :=
  match Dict.get Z.eqb v g with Some ns => ns | None => [] end.

Definition add_vertex (v : Z) (g : t) : t :=
  if Dict.mem Z.eqb v g then g else Dict.set Z.eqb v [] g.

(** [if b not in self.adj[a]: self.adj[a].append(b)] *)
Definition link (a b : Z) (g : t) : t :=
  let ns := neighbors a g in
  if existsb (Z.eqb b) ns then g else Dict.set Z.eqb a (ns ++ [b]) g.

Definition add_edge (a b : Z) (g : t) : t :=
  if a =? b then g
  else link b a (link a b (add_vertex b (add_vertex a g))).

End SongGraph.

(* ------------------------------------------------------------------ *)
(** ** models.py: Playlist *)

Module Playlist.

(** The doubly linked chain head <-> ... <-> tail as the sequence of its
    songs.  [_length] is 0 at creation, incremented by [append] and
    decremented by each successful [remove]: it is the number of nodes,
    and [__len__] is modelled as the length of the chain. *)
Record t := mk { name : string; songs : list loc }.

Definition new (n : string) : t := mk n [].

Definition append (song : loc) (p : t) : t :=
  mk (name p) (songs p ++ [song]).

(** Unlinks the first node holding that id and returns. *)
Definition remove (h : heap) (id : Z) (p : t) : bool * t :=
  let '(found, rest) := unlink_first (has_id h id) (songs p) in
  (found, mk (name p) rest).

(** [find_node]: the position of the first node holding that id. *)
Fixpoint find_from (h : heap) (id : Z) (xs : list loc) (i : nat)
  : option nat :=
  match xs with
  | [] => None
  | x :: xs' => if has_id h id x then Some i else find_from h id xs' (S i)
  end.

Definition find_node (h : heap) (id : Z) (p : t) : option nat :=
  find_from h id (songs p) 0.

(** [node.next] and [node.prev] of the node at position [i], as the song
    they hold. *)
Definition node_next (p : t) (i : nat) : option loc :=
  nth_error (songs p) (S i).

Definition node_prev (p : t) (i : nat) : option loc :=
  match i with O => None | S j => nth_error (songs p) j end.

Definition to_list (p : t) : list loc := songs p.

(** [__len__] *)
Definition len (p : t) : nat := List.length (songs p).

(** Truth value of a playlist object.  The class defines [__len__] and no
    [__bool__], so [if pl] / [not pl] test [len(pl) != 0]: a playlist
    without nodes is false. *)
Definition truthy (p : t) : bool := negb (len p =? 0)%nat.

End Playlist.

(* ------------------------------------------------------------------ *)
(** ** The random module

    [random.shuffle] and [random.choice] read a source of random numbers.
    The source is an input of the model: a list of draws consumed from the
    front ([randbelow n] is the next draw reduced below [n], 0 when the list
    is exhausted).  Probabilities are not modelled. *)

Module Random.

Definition randbelow (n : nat) (rnd : list nat) : nat * list nat :=
  match rnd with
  | [] => (O, [])
  | r :: rnd' => (Nat.modulo r n, rnd')
  end.

Fixpoint list_set {A} (xs : list A) (i : nat) (a : A) : list A :=
  match xs, i with
  | [], _ => []
  | _ :: xs', O => a :: xs'
  | x :: xs', S i' => x :: list_set xs' i' a
  end.

(** [x[i], x[j] = x[j], x[i]] *)
Definition swap {A} (xs : list A) (i j : nat) : list A :=
  match nth_error xs i, nth_error xs j with
  | Some a, Some b => list_set (list_set xs i b) j a
  | _, _ => xs
  end.

(** [for i in reversed(range(1, len(x))): j = randbelow(i + 1); swap] *)
Fixpoint shuffle_down {A} (i : nat) (xs : list A) (rnd : list nat)
  : list A * list nat :=
  match i with
  | O => (xs, rnd)
  | S i' =>
      let '(j, rnd') := randbelow (S i) rnd in
      shuffle_down i' (swap xs i j) rnd'
  end.

Definition shuffle {A} (xs : list A) (rnd : list nat) : list A * list nat :=
  shuffle_down (Nat.pred (List.length xs)) xs rnd.

(** [random.choice(xs)] on a non-empty list. *)
Definition choice {A} (xs : list A) (rnd : list nat) : option A :=
  nth_error xs (fst (randbelow (List.length xs) rnd)).

End Random.

(* ------------------------------------------------------------------ *)
(** ** music_manager.py: MusicLibraryManager *)

(** One record delivered by the scanner: the arguments from which
    [scan_and_build] constructs a [Song]. *)
Record RawTrackMetadata := mkRaw {
  r_title : string;
  r_artist : string;
  r_album : string;
  r_genre : string;
  r_year : Z;
  r_duration : Z;
  r_path : string
}.

(** A keyword argument value of [update_song]. *)
Inductive pyval :=
| VInt (z : Z)
| VStr (s : string)
| VBool (b : bool).

(** The state of a [MusicLibraryManager] together with the object store. *)
Record Library := mkLibrary {
  sll : SinglyLinkedList.t;
  genre_mll : MultiLinkedListByGenre.t;
  title_bst : BST.t;
  history : Stack.t (A := loc);
  up_next : Queue.t (A := loc);
  graph : SongGraph.t;
  playlists : Dict.t (K := string) (V := Playlist.t);
  _song_index : Dict.t (K := Z) (V := loc);
  _next_song_id : Z;
  objs : heap
}.

Definition set_sll v m := mkLibrary v (genre_mll m) (title_bst m) (history m)
  (up_next m) (graph m) (playlists m) (_song_index m) (_next_song_id m) (objs m).
Definition set_genre_mll v m := mkLibrary (sll m) v (title_bst m) (history m)
  (up_next m) (graph m) (playlists m) (_song_index m) (_next_song_id m) (objs m).
Definition set_title_bst v m := mkLibrary (sll m) (genre_mll m) v (history m)
  (up_next m) (graph m) (playlists m) (_song_index m) (_next_song_id m) (objs m).
Definition set_history v m := mkLibrary (sll m) (genre_mll m) (title_bst m) v
  (up_next m) (graph m) (playlists m) (_song_index m) (_next_song_id m) (objs m).
Definition set_up_next v m := mkLibrary (sll m) (genre_mll m) (title_bst m)
  (history m) v (graph m) (playlists m) (_song_index m) (_next_song_id m) (objs m).
Definition set_graph v m := mkLibrary (sll m) (genre_mll m) (title_bst m)
  (history m) (up_next m) v (playlists m) (_song_index m) (_next_song_id m) (objs m).
Definition set_playlists v m := mkLibrary (sll m) (genre_mll m) (title_bst m)
  (history m) (up_next m) (graph m) v (_song_index m) (_next_song_id m) (objs m).
Definition set_song_index v m := mkLibrary (sll m) (genre_mll m) (title_bst m)
  (history m) (up_next m) (graph m) (playlists m) v (_next_song_id m) (objs m).
Definition set_next_song_id v m := mkLibrary (sll m) (genre_mll m) (title_bst m)
  (history m) (up_next m) (graph m) (playlists m) (_song_index m) v (objs m).
Definition set_objs v m := mkLibrary (sll m) (genre_mll m) (title_bst m)
  (history m) (up_next m) (graph m) (playlists m) (_song_index m)
  (_next_song_id m) v.

(** [__init__] before its call of [scan_and_build]. *)
Definition new_manager : Library :=
  mkLibrary SinglyLinkedList.empty MultiLinkedListByGenre.empty BST.empty
            Stack.empty Queue.empty SongGraph.empty [] [] 1 [].

(** Construction of a [Song] object: a fresh reference. *)
Definition alloc (s : Song) (m : Library) : loc * Library :=
  (List.length (objs m), set_objs (objs m ++ [s]) m).

Definition _add_song (song : loc) (m : Library) : Library :=
  let m := set_sll (SinglyLinkedList.insert_end song (sll m)) m in
  let m := set_genre_mll
             (MultiLinkedListByGenre.add_song (objs m) song (genre_mll m)) m in
  let m := set_title_bst
             (BST.insert (title (deref (objs m) song)) song (title_bst m)) m in
  let m := set_graph
             (SongGraph.add_vertex (song_id (deref (objs m) song)) (graph m)) m in
  set_song_index
    (Dict.set Z.eqb (song_id (deref (objs m) song)) song (_song_index m)) m.

(** The pairwise score of [_rebuild_graph]. *)
Definition score (a b : Song) : Z :=
  (if PyStr.truthy (artist a) && PyStr.truthy (artist b)
      && String.eqb (PyStr.lower (artist a)) (PyStr.lower (artist b))
   then 2 else 0)
  + (if PyStr.truthy (genre a) && PyStr.truthy (genre b)
        && String.eqb (PyStr.lower (genre a)) (PyStr.lower (genre b))
     then 1 else 0)
  + (if negb (year a =? 0) && negb (year b =? 0)
        && (Z.abs (year a - year b) <=? 2)
     then 1 else 0).

(** The inner loop of [_rebuild_graph]: [a] against every later song. *)
Definition rebuild_row (h : heap) (a : loc) (rest : list loc)
                       (g : SongGraph.t) : SongGraph.t :=
  fold_left
    (fun g b =>
       if 1 <=? score (deref h a) (deref h b)
       then SongGraph.add_edge (song_id (deref h a)) (song_id (deref h b)) g
       else g)
    rest g.

(** The outer loop over [ids = list(self._song_index.keys())]; the songs
    [self._song_index[ids[i]]] are the values of the dict in key order. *)
Fixpoint rebuild_rows (h : heap) (songs : list loc) (g : SongGraph.t)
  : SongGraph.t :=
  match songs with
  | [] => g
  | a :: rest => rebuild_rows h rest (rebuild_row h a rest g)
  end.

Definition _rebuild_graph (m : Library) : Library :=
  set_graph (rebuild_rows (objs m) (Dict.values (_song_index m)) (graph m)) m.

(** The body of the scan loop for one accepted file. *)
Definition scan_one (m : Library) (r : RawTrackMetadata) : Library :=
  let '(song, m) :=
    alloc (mkSong (_next_song_id m) (r_title r) (r_artist r) (r_album r)
                  (r_genre r) (r_year r) (r_duration r) (r_path r) 0 false) m in
  let m := _add_song song m in
  set_next_song_id (_next_song_id m + 1) m.

(** *** The directory scan

    [scan_and_build] lists [music_dir], keeps the names that end in
    ".mp3" or ".wav" (case-insensitively) and infers the metadata of each
    from its name.  [scan_directory] is that computation; the library is
    then built from the records it yields. *)

(** Position of the last occurrence of character [c], if any. *)
Fixpoint rfind_char (c : ascii) (s : string) : option nat :=
  match s with
  | EmptyString => None
  | String a s' =>
      match rfind_char c s' with
      | Some i => Some (S i)
      | None => if Ascii.eqb a c then Some O else None
      end
  end.

(** [s.endswith(suffix)] *)
Definition ends_with (suffix s : string) : bool :=
  (String.length suffix <=? String.length s)%nat
  && String.eqb suffix
       (substring (String.length s - String.length suffix)
                  (String.length suffix) s).

(** [os.path.basename] *)
Definition basename (p : string) : string :=
  match rfind_char "/"%char p with
  | Some i => substring (S i) (String.length p - S i) p
  | None => p
  end.

(** All characters of [s] are dots. *)
Fixpoint only_dots (s : string) : bool :=
  match s with
  | EmptyString => true
  | String a s' => Ascii.eqb a "."%char && only_dots s'
  end.

(** [os.path.splitext(name)[0]] for a name without directory part: cut at
    the last dot unless only dots precede it. *)
Definition splitext_root (name : string) : string :=
  match rfind_char "."%char name with
  | Some i => if only_dots (substring 0 i name) then name
              else substring 0 i name
  | None => name
  end.

(** [_infer_metadata_from_filename]: "Artist - Title" or "Title". *)
Definition _infer_metadata_from_filename (filename : string)
  : string * string :=
  let name := splitext_root (basename filename) in
  match String.index 0 " - " name with
  | Some i => (substring 0 i name,
               substring (i + 3) (String.length name - (i + 3)) name)
  | None => ("Unknown Artist"%string, name)
  end.

(** [os.path.join(music_dir, fname)] for a name from [os.listdir]. *)
Definition path_join (dir fname : string) : string :=
  match dir with
  | EmptyString => fname
  | _ => if ends_with "/" dir then (dir ++ fname)%string
         else (dir ++ "/" ++ fname)%string
  end.

(** [path.replace("\\", "/")] *)
Fixpoint slashes (s : string) : string :=
  match s with
  | EmptyString => EmptyString
  | String a s' =>
      String (if Ascii.eqb a "\"%char then "/"%char else a) (slashes s')
  end.

Definition is_audio (fname : string) : bool :=
  ends_with ".mp3" (PyStr.lower fname) || ends_with ".wav" (PyStr.lower fname).

Definition scan_directory (music_dir : string) (listing : list string)
  : list RawTrackMetadata :=
  map (fun fname =>
         let '(artist, title) := _infer_metadata_from_filename fname in
         mkRaw title artist "" "Unknown" 0 0
               (slashes (path_join music_dir fname)))
      (filter is_audio listing).

(** [scan_and_build], with the records the directory scan yields as its
    input (any list of records is allowed, those of [scan_directory]
    included).  History, queue and playlists are not touched. *)
Definition scan_and_build (records : list RawTrackMetadata) (m : Library)
  : Library :=
  let m := set_sll SinglyLinkedList.empty m in
  let m := set_genre_mll MultiLinkedListByGenre.empty m in
  let m := set_title_bst BST.empty m in
  let m := set_graph SongGraph.empty m in
  let m := set_song_index [] m in
  let m := set_next_song_id 1 m in
  _rebuild_graph (fold_left scan_one records m).

Definition get_all_songs (m : Library) : list loc :=
  SinglyLinkedList.traverse (sll m).

Definition get_song_by_id (id : Z) (m : Library) : option loc :=
  Dict.get Z.eqb id (_song_index m).

(** The descriptive fields of the [Song] dataclass. *)
Definition mutable_attrs : list string :=
  ["title"; "artist"; "album"; "genre"; "year";
   "duration_seconds"; "file_path"; "play_count"; "is_favorite"]%string.

(** The dataclass fields of [Song]: the names for which [hasattr(s, k)]
    holds among the keywords the model covers.  (Names inherited from
    [object], the double-underscore ones, also pass [hasattr]; they are
    not track attributes and are left out of the model.) *)
Definition song_attrs : list string := "song_id"%string :: mutable_attrs.

Definition hasattr (k : string) : bool := existsb (String.eqb k) song_attrs.

(** [setattr(s, k, v)] for a value of the field's declared type.  The core
    assumes well-typed input; a value of another type is outside the model
    and leaves the field as it is. *)
Definition setattr (s : Song) (k : string) (v : pyval) : Song :=
  match v with
  | VInt z =>
      if String.eqb k "song_id" then
        mkSong z (title s) (artist s) (album s) (genre s) (year s)
               (duration_seconds s) (file_path s) (play_count s) (is_favorite s)
      else if String.eqb k "year" then
        mkSong (song_id s) (title s) (artist s) (album s) (genre s) z
               (duration_seconds s) (file_path s) (play_count s) (is_favorite s)
      else if String.eqb k "duration_seconds" then
        mkSong (song_id s) (title s) (artist s) (album s) (genre s) (year s)
               z (file_path s) (play_count s) (is_favorite s)
      else if String.eqb k "play_count" then
        mkSong (song_id s) (title s) (artist s) (album s) (genre s) (year s)
               (duration_seconds s) (file_path s) z (is_favorite s)
      else s
  | VStr x =>
      if String.eqb k "title" then
        mkSong (song_id s) x (artist s) (album s) (genre s) (year s)
               (duration_seconds s) (file_path s) (play_count s) (is_favorite s)
      else if String.eqb k "artist" then
        mkSong (song_id s) (title s) x (album s) (genre s) (year s)
               (duration_seconds s) (file_path s) (play_count s) (is_favorite s)
      else if String.eqb k "album" then
        mkSong (song_id s) (title s) (artist s) x (genre s) (year s)
               (duration_seconds s) (file_path s) (play_count s) (is_favorite s)
      else if String.eqb k "genre" then
        mkSong (song_id s) (title s) (artist s) (album s) x (year s)
               (duration_seconds s) (file_path s) (play_count s) (is_favorite s)
      else if String.eqb k "file_path" then
        mkSong (song_id s) (title s) (artist s) (album s) (genre s) (year s)
               (duration_seconds s) x (play_count s) (is_favorite s)
      else s
  | VBool b =>
      if String.eqb k "is_favorite" then
        mkSong (song_id s) (title s) (artist s) (album s) (genre s) (year s)
               (duration_seconds s) (file_path s) (play_count s) b
      else s
  end.

(** [getattr(s, k)] for the dataclass fields. *)
Definition getattr (s : Song) (k : string) : option pyval :=
  if String.eqb k "song_id" then Some (VInt (song_id s))
  else if String.eqb k "title" then Some (VStr (title s))
  else if String.eqb k "artist" then Some (VStr (artist s))
  else if String.eqb k "album" then Some (VStr (album s))
  else if String.eqb k "genre" then Some (VStr (genre s))
  else if String.eqb k "year" then Some (VInt (year s))
  else if String.eqb k "duration_seconds" then Some (VInt (duration_seconds s))
  else if String.eqb k "file_path" then Some (VStr (file_path s))
  else if String.eqb k "play_count" then Some (VInt (play_count s))
  else if String.eqb k "is_favorite" then Some (VBool (is_favorite s))
  else None.

(** The value a keyword carries has the type of the field it names. *)
Definition well_typed_entry (kv : string * pyval) : bool :=
  match getattr no_song (fst kv), snd kv with
  | Some (VInt _), VInt _ => true
  | Some (VStr _), VStr _ => true
  | Some (VBool _), VBool _ => true
  | None, _ => true
  | _, _ => false
  end.

Definition well_typed (fields : list (string * pyval)) : bool :=
  forallb well_typed_entry fields.

(** [for k, v in fields.items(): if hasattr(s, k): setattr(s, k, v)] *)
Definition apply_fields (fields : list (string * pyval)) (s : Song) : Song :=
  fold_left (fun s kv => if hasattr (fst kv) then setattr s (fst kv) (snd kv)
                         else s)
            fields s.

(** [self.title_bst = BST(); for song in self.get_all_songs(): insert] *)
Definition rebuild_title_bst (m : Library) : Library :=
  set_title_bst
    (fold_left (fun tr song => BST.insert (title (deref (objs m) song)) song tr)
               (get_all_songs m) BST.empty) m.

(** [self.genre_mll = MultiLinkedListByGenre(); for song in ...: add_song] *)
Definition rebuild_genre_mll (m : Library) : Library :=
  set_genre_mll
    (fold_left (fun hs song => MultiLinkedListByGenre.add_song (objs m) song hs)
               (get_all_songs m) MultiLinkedListByGenre.empty) m.

Definition update_song (id : Z) (fields : list (string * pyval))
                       (m : Library) : bool * Library :=
  match Dict.get Z.eqb id (_song_index m) with
  | None => (false, m)
  | Some s =>
      let old_title := title (deref (objs m) s) in
      let old_genre := genre (deref (objs m) s) in
      let m := set_objs (heap_set (objs m) s
                           (apply_fields fields (deref (objs m) s))) m in
      let m := if String.eqb (title (deref (objs m) s)) old_title then m
               else rebuild_title_bst m in
      let m := if String.eqb (genre (deref (objs m) s)) old_genre then m
               else rebuild_genre_mll m in
      (true, _rebuild_graph m)
  end.

(** [for pl in self.playlists.values(): pl.remove(song_id)] *)
Definition remove_from_all_playlists (h : heap) (id : Z)
  (ps : Dict.t (K := string) (V := Playlist.t))
  : Dict.t (K := string) (V := Playlist.t) :=
  map (fun kv => (fst kv, snd (Playlist.remove h id (snd kv)))) ps.

Definition delete_song (id : Z) (m : Library) : bool * Library :=
  if negb (Dict.mem Z.eqb id (_song_index m)) then (false, m)
  else
    let h := objs m in
    let m := set_sll (snd (SinglyLinkedList.delete_by_song_id h id (sll m))) m in
    let m := set_genre_mll
               (MultiLinkedListByGenre.remove_song h id (genre_mll m)) m in
    let m := set_playlists (remove_from_all_playlists h id (playlists m)) m in
    let m := set_up_next
               (Queue.mk (filter (fun s => negb (has_id h id s))
                                 (Queue.to_list (up_next m))) 0) m in
    let m := set_history
               (filter (fun s => negb (has_id h id s)) (history m)) m in
    let m := set_song_index (Dict.del Z.eqb id (_song_index m)) m in
    let m := rebuild_title_bst m in
    let m := set_graph
               (fold_left (fun g song =>
                             SongGraph.add_vertex (song_id (deref h song)) g)
                          (get_all_songs m) SongGraph.empty) m in
    (true, _rebuild_graph m).

Definition get_all_genres (m : Library) : list string :=
  MultiLinkedListByGenre.get_all_genres (genre_mll m).

Definition get_songs_by_genre (g : string) (m : Library) : list loc :=
  MultiLinkedListByGenre.get_songs_by_genre g (genre_mll m).

Definition search_by_title (query : string) (m : Library) : list loc :=
  match BST.search query (title_bst m) with
  | Some exact => [exact]
  | None => BST.search_partial (objs m) query (title_bst m)
  end.

Definition create_playlist (name : string) (m : Library) : bool * Library :=
  if Dict.mem String.eqb name (playlists m) then (false, m)
  else (true, set_playlists
                (Dict.set String.eqb name (Playlist.new name) (playlists m)) m).

Definition delete_playlist (name : string) (m : Library) : bool * Library :=
  (Dict.mem String.eqb name (playlists m),
   set_playlists (Dict.del String.eqb name (playlists m)) m).

(** [if not pl or not s: return False].  [not pl] holds for a missing
    playlist and, through [Playlist.__len__], for one without nodes. *)
Definition add_song_to_playlist (name : string) (id : Z) (m : Library)
  : bool * Library :=
  match Dict.get String.eqb name (playlists m),
        Dict.get Z.eqb id (_song_index m) with
  | Some pl, Some s =>
      if Playlist.truthy pl
      then (true, set_playlists
                    (Dict.set String.eqb name (Playlist.append s pl)
                              (playlists m)) m)
      else (false, m)
  | _, _ => (false, m)
  end.

Definition remove_song_from_playlist (name : string) (id : Z) (m : Library)
  : bool * Library :=
  match Dict.get String.eqb name (playlists m) with
  | Some pl =>
      if Playlist.truthy pl
      then let '(r, pl') := Playlist.remove (objs m) id pl in
           (r, set_playlists (Dict.set String.eqb name pl' (playlists m)) m)
      else (false, m)
  | None => (false, m)
  end.

Definition get_playlist_songs (name : string) (m : Library) : list loc :=
  match Dict.get String.eqb name (playlists m) with
  | Some pl => if Playlist.truthy pl then Playlist.to_list pl else []
  | None => []
  end.

Definition enqueue_song (id : Z) (m : Library) : bool * Library :=
  match Dict.get Z.eqb id (_song_index m) with
  | Some s => (true, set_up_next (Queue.enqueue s (up_next m)) m)
  | None => (false, m)
  end.

Definition dequeue_song (m : Library) : option loc * Library :=
  let '(r, q) := Queue.dequeue (up_next m) in (r, set_up_next q m).

Definition get_queue_list (m : Library) : list loc :=
  Queue.to_list (up_next m).

Definition record_play (song : loc) (m : Library) : Library :=
  let m := set_history (Stack.push song (history m)) m in
  let s := deref (objs m) song in
  set_objs (heap_set (objs m) song
              (mkSong (song_id s) (title s) (artist s) (album s) (genre s)
                      (year s) (duration_seconds s) (file_path s)
                      (play_count s + 1) (is_favorite s))) m.

Definition get_history_list (limit : nat) (m : Library) : list loc :=
  firstn limit (Stack.to_list (history m)).

Definition get_similar_songs (id : Z) (m : Library) : list Z :=
  SongGraph.neighbors id (graph m).

(** [for nid in neighbors: s = self._song_index.get(nid); if s: return s] *)
Fixpoint first_indexed (idx : Dict.t (K := Z) (V := loc)) (ns : list Z)
  : option loc :=
  match ns with
  | [] => None
  | nid :: ns' =>
      match Dict.get Z.eqb nid idx with
      | Some s => Some s
      | None => first_indexed idx ns'
      end
  end.

(** [random.choice(songs) if songs else None] *)
Definition choice_or_none (songs : list loc) (rnd : list nat) : option loc :=
  match songs with
  | [] => None
  | _ => Random.choice songs rnd
  end.

(** [get_next_similar_song].  [neighbors] is the adjacency list object of
    the graph itself, so the shuffle reorders it in place. *)
Definition get_next_similar_song (id : Z) (rnd : list nat) (m : Library)
  : option loc * Library * list nat :=
  let '(ns, rnd) := Random.shuffle (get_similar_songs id m) rnd in
  let m := if Dict.mem Z.eqb id (graph m)
           then set_graph (Dict.set Z.eqb id ns (graph m)) m else m in
  match first_indexed (_song_index m) ns with
  | Some s => (Some s, m, rnd)
  | None => (choice_or_none (get_all_songs m) rnd, m, rnd)
  end.

(** Truth value of an [Optional[int]] / [Optional[str]] argument. *)
Definition truthy_id (x : option Z) : option Z :=
  match x with
  | Some z => if z =? 0 then None else Some z
  | None => None
  end.

Definition truthy_name (x : option string) : option string :=
  match x with
  | Some n => if PyStr.truthy n then Some n else None
  | None => None
  end.

(** The playlist context shared by [get_next_song] and [get_previous_song]:
    the node of the current song in the named playlist, when the guards
    [if current_playlist_name and current_song_id], [if pl] and [node]
    all pass. *)
Definition playlist_node (cur : option Z) (pname : option string)
                         (m : Library) : option (Playlist.t * nat) :=
  match truthy_name pname, truthy_id cur with
  | Some n, Some c =>
      match Dict.get String.eqb n (playlists m) with
      | Some pl =>
          if Playlist.truthy pl then
            match Playlist.find_node (objs m) c pl with
            | Some i => Some (pl, i)
            | None => None
            end
          else None
      | None => None
      end
  | _, _ => None
  end.

Definition playlist_next (cur : option Z) (pname : option string)
                         (m : Library) : option loc :=
  match playlist_node cur pname m with
  | Some (pl, i) => Playlist.node_next pl i
  | None => None
  end.

Definition playlist_prev (cur : option Z) (pname : option string)
                         (m : Library) : option loc :=
  match playlist_node cur pname m with
  | Some (pl, i) => Playlist.node_prev pl i
  | None => None
  end.

Definition get_next_song (cur : option Z) (pname : option string)
                         (rnd : list nat) (m : Library)
  : option loc * Library :=
  match playlist_next cur pname m with
  | Some s => (Some s, m)
  | None =>
      match dequeue_song m with
      | (Some q, m) => (Some q, m)
      | (None, m) =>
          match truthy_id cur with
          | Some c =>
              match get_next_similar_song c rnd m with
              | (Some sim, m, _) => (Some sim, m)
              | (None, m, rnd) => (choice_or_none (get_all_songs m) rnd, m)
              end
          | None => (choice_or_none (get_all_songs m) rnd, m)
          end
      end
  end.

Definition get_previous_song (cur : option Z) (pname : option string)
                             (m : Library) : option loc * Library :=
  match playlist_prev cur pname m with
  | Some s => (Some s, m)
  | None =>
      if Stack.is_empty (history m) then (None, m)
      else
        let '(_, hist) := Stack.pop (history m) in
        (Stack.peek hist, set_history hist m)
  end.

(** The parameters of [update_song(self, song_id, **fields)].  A keyword
    with one of these names binds to the parameter, never to [fields]: with
    the id passed as well, Python raises [TypeError] ("got multiple values
    for argument") at the call and the body does not run. *)
Definition param_names : list string := ["self"; "song_id"]%string.

Definition binds_kwargs (fields : list (string * pyval)) : bool :=
  forallb (fun kv => negb (existsb (String.eqb (fst kv)) param_names)) fields.

(** The calls of [update_song] the model covers: the keywords can be
    collected in [fields], and each value has the type of the field it
    names (the core assumes well-typed input). *)
Definition accepted (fields : list (string * pyval)) : bool :=
  binds_kwargs fields && well_typed fields.

(* ------------------------------------------------------------------ *)
(** ** Sequences of manager calls *)

Inductive op :=
| Scan (records : list RawTrackMetadata)
| Update (id : Z) (fields : list (string * pyval))
| Delete (id : Z)
| CreatePlaylist (name : string)
| DeletePlaylist (name : string)
| AddToPlaylist (name : string) (id : Z)
| RemoveFromPlaylist (name : string) (id : Z)
| Enqueue (id : Z)
| Dequeue
| RecordPlay (song : loc)
| NextSong (cur : option Z) (pname : option string) (rnd : list nat)
| PreviousSong (cur : option Z) (pname : option string).

(** One call on the manager.  [record_play] receives a [Song] object the
    caller got from the manager, that is, an allocated reference.  A call
    of [update_song] whose keywords cannot be bound does not run its body;
    calls with ill-typed values are not part of the model.  Both leave the
    state as it is here. *)
Definition apply_op (m : Library) (o : op) : Library :=
  match o with
  | Scan rs => scan_and_build rs m
  | Update id fields =>
      if accepted fields then snd (update_song id fields m) else m
  | Delete id => snd (delete_song id m)
  | CreatePlaylist n => snd (create_playlist n m)
  | DeletePlaylist n => snd (delete_playlist n m)
  | AddToPlaylist n id => snd (add_song_to_playlist n id m)
  | RemoveFromPlaylist n id => snd (remove_song_from_playlist n id m)
  | Enqueue id => snd (enqueue_song id m)
  | Dequeue => snd (dequeue_song m)
  | RecordPlay s =>
      if (s <? List.length (objs m))%nat then record_play s m else m
  | NextSong cur pname rnd => snd (get_next_song cur pname rnd m)
  | PreviousSong cur pname => snd (get_previous_song cur pname m)
  end.

Definition run (ops : list op) (m : Library) : Library :=
  fold_left apply_op ops m.

(** The states a manager can be in: [__init__] (whose own scan is the first
    [Scan], the state before it being that of an empty directory) followed
    by any sequence of calls. *)
Definition reachable (m : Library) : Prop :=
  exists ops, m = run ops new_manager.

(* ------------------------------------------------------------------ *)
(** ** Definitions used by the statements *)

(** *** The Up-Next queue against a plain FIFO list *)

Module Fifo.
Section Fifo.
Context {A : Type}.

(** The reference: a list whose head is the front of the queue. *)
Definition t := list A.
Definition empty : t := [].
Definition enqueue (x : A) (l : t) : t := l ++ [x].
Definition dequeue (l : t) : option A * t :=
  match l with [] => (None, []) | x :: l' => (Some x, l') end.
Definition peek (l : t) : option A := hd_error l.
Definition is_empty (l : t) : bool :=
  match l with [] => true | _ => false end.
Definition to_list (l : t) : list A := l.

End Fifo.
End Fifo.

Section QueueTraces.
Context {A : Type}.

Inductive qop :=
| QEnqueue (x : A)
| QDequeue
| QPeek
| QIsEmpty
| QToList.

(** What a caller sees of one call. *)
Inductive qobs :=
| ODone
| OItem (r : option A)
| OBool (b : bool)
| OList (l : list A).

Definition queue_step (q : Queue.t) (o : qop) : qobs * Queue.t :=
  match o with
  | QEnqueue x => (ODone, Queue.enqueue x q)
  | QDequeue => let '(r, q') := Queue.dequeue q in (OItem r, q')
  | QPeek => (OItem (Queue.peek q), q)
  | QIsEmpty => (OBool (Queue.is_empty q), q)
  | QToList => (OList (Queue.to_list q), q)
  end.

Definition fifo_step (l : Fifo.t) (o : qop) : qobs * Fifo.t :=
  match o with
  | QEnqueue x => (ODone, Fifo.enqueue x l)
  | QDequeue => let '(r, l') := Fifo.dequeue l in (OItem r, l')
  | QPeek => (OItem (Fifo.peek l), l)
  | QIsEmpty => (OBool (Fifo.is_empty l), l)
  | QToList => (OList (Fifo.to_list l), l)
  end.

Fixpoint queue_trace (ops : list qop) (q : Queue.t) : list qobs :=
  match ops with
  | [] => []
  | o :: ops' => let '(r, q') := queue_step q o in r :: queue_trace ops' q'
  end.

Fixpoint fifo_trace (ops : list qop) (l : Fifo.t) : list qobs :=
  match ops with
  | [] => []
  | o :: ops' => let '(r, l') := fifo_step l o in r :: fifo_trace ops' l'
  end.

(** The backing list never ends before the head index. *)
Definition queue_ok (q : Queue.t (A := A)) : Prop :=
  (Queue._head_idx q <= List.length (Queue._data q))%nat.

End QueueTraces.

(** *** The title tree *)

(** The tree obtained by inserting the songs of a sequence one after the
    other under their current titles. *)
Definition bst_of (h : heap) (songs : list loc) : BST.t :=
  fold_left (fun tr song => BST.insert (title (deref h song)) song tr)
            songs BST.empty.

(** The key under which the title tree files a song. *)
Definition title_key (h : heap) (l : loc) : string :=
  PyStr.lower (title (deref h l)).

(** Search-tree order of the keys: smaller keys to the left, the others
    (equal keys included) to the right. *)
Fixpoint ordered (tr : BST.t) : Prop :=
  match tr with
  | BST.Leaf => True
  | BST.Node k _ l r =>
      Forall (fun kv => PyStr.lt (fst kv) k = true) (BST.nodes l)
      /\ Forall (fun kv => PyStr.lt (fst kv) k = false) (BST.nodes r)
      /\ ordered l /\ ordered r
  end.

(** "Sorted by title": non-decreasing lower-cased titles. *)
Definition title_le (h : heap) (a b : loc) : Prop :=
  String.leb (title_key h a) (title_key h b) = true.

(** Exact match of a title, case-insensitively. *)
Definition title_matches (h : heap) (query : string) (l : loc) : bool :=
  String.eqb (title_key h l) (PyStr.lower query).

(** Substring match of a title, case-insensitively. *)
Definition title_contains (h : heap) (query : string) (l : loc) : bool :=
  PyStr.contains (PyStr.lower query) (title_key h l).

(** *** Id sets of the three catalog structures *)

Definition ids_of (h : heap) (ls : list loc) : list Z :=
  map (fun l => song_id (deref h l)) ls.

Definition master_ids (m : Library) : list Z := ids_of (objs m) (sll m).
Definition title_ids (m : Library) : list Z :=
  ids_of (objs m) (BST.inorder (title_bst m)).
Definition index_ids (m : Library) : list Z := Dict.keys (_song_index m).

Definition same_set (a b : list Z) : Prop := forall x, In x a <-> In x b.

(** The references of a state point into its store. *)
Definition refs_ok (m : Library) : Prop :=
  Forall (fun l => (l < List.length (objs m))%nat) (sll m).

(** The id map lists the master sequence in order, each song under its own
    id. *)
Definition index_ok (m : Library) : Prop :=
  _song_index m = map (fun l => (song_id (deref (objs m) l), l)) (sll m).

(** The title tree is the one built from the master sequence. *)
Definition bst_ok (m : Library) : Prop :=
  title_bst m = bst_of (objs m) (sll m).

(** The title tree mirrors the master sequence. *)
Definition title_inv (m : Library) : Prop := bst_ok m /\ refs_ok m.

(** The id map mirrors the master sequence. *)
Definition catalog_inv (m : Library) : Prop := index_ok m /\ refs_ok m.

(** During a scan the ids handed out so far are below the counter. *)
Definition scan_inv (m : Library) : Prop :=
  catalog_inv m
  /\ Forall (fun l => song_id (deref (objs m) l) < _next_song_id m) (sll m).

(** No playlist holds a song. *)
Definition playlists_unfilled (m : Library) : Prop :=
  Forall (fun kv => Playlist.songs (snd kv) = []) (playlists m).

(** Two states with the same catalog: master sequence, title tree, id map
    and objects. *)
Definition same_catalog (m m' : Library) : Prop :=
  sll m' = sll m /\ title_bst m' = title_bst m
  /\ _song_index m' = _song_index m /\ objs m' = objs m.

(** *** Keywords of an update *)

(** The value given for keyword [k], the last one should the list repeat
    it (a Python keyword dictionary has each key once). *)
Definition entry_for (k : string) (fields : list (string * pyval))
  : option pyval :=
  fold_left (fun acc kv => if String.eqb (fst kv) k then Some (snd kv) else acc)
            fields None.

(** *** Position in a playlist *)

(** [nxt] is held by the node after the first node holding [id]. *)
Definition successor_in (h : heap) (id : Z) (pl : Playlist.t) (nxt : loc)
  : Prop :=
  exists pre x post,
    Playlist.songs pl = pre ++ x :: nxt :: post
    /\ forallb (fun y => negb (has_id h id y)) pre = true
    /\ has_id h id x = true.

(** [prv] is held by the node before the first node holding [id]. *)
Definition predecessor_in (h : heap) (id : Z) (pl : Playlist.t) (prv : loc)
  : Prop :=
  exists pre x post,
    Playlist.songs pl = pre ++ prv :: x :: post
    /\ forallb (fun y => negb (has_id h id y)) (pre ++ [prv]) = true
    /\ has_id h id x = true.

(** A playlist context is active: a non-empty playlist name that the
    manager knows, and a current id that is set (not [None], not 0). *)
Definition in_playlist (cur : option Z) (pname : option string)
                       (m : Library) (id : Z) (pl : Playlist.t) : Prop :=
  exists n, pname = Some n /\ n <> EmptyString /\ cur = Some id /\ id <> 0
            /\ Dict.get String.eqb n (playlists m) = Some pl.

Definition has_successor cur pname m (nxt : loc) : Prop :=
  exists id pl, in_playlist cur pname m id pl
                /\ successor_in (objs m) id pl nxt.

Definition has_predecessor cur pname m (prv : loc) : Prop :=
  exists id pl, in_playlist cur pname m id pl
                /\ predecessor_in (objs m) id pl prv.

(** The neighbours of [id] that the id map still resolves. *)
Definition live_neighbors (id : Z) (m : Library) : list Z :=
  filter (fun nid => Dict.mem Z.eqb nid (_song_index m))
         (get_similar_songs id m).

(** *** Sample inputs *)

Local Open Scope string_scope.

Definition rec_a : RawTrackMetadata :=
  mkRaw "Dawn" "Ann" "" "Unknown" 0 0 "static/music/Ann - Dawn.mp3".
Definition rec_b : RawTrackMetadata :=
  mkRaw "Dusk" "Bob" "" "Unknown" 0 0 "static/music/Bob - Dusk.mp3".
Definition rec_c : RawTrackMetadata :=
  mkRaw "DAWN" "Cy" "" "Unknown" 0 0 "static/music/Cy - DAWN.mp3".

(** A library of three files. *)
Definition lib3 : Library := run [Scan [rec_a; rec_b; rec_c]] new_manager.

(** Two files, then the genre of track 1 is edited. *)
Definition lib_regenre : Library :=
  run [Scan [rec_a; rec_b]; Update 1 [("genre", VStr "Rock")]] new_manager.

(** One file is queued, then a rescan finds the directory empty. *)
Definition lib_stale_queue : Library :=
  run [Scan [rec_a]; Enqueue 1; Scan []] new_manager.

(** Track 1 queued twice, played twice and present twice in a playlist
    (filled by [Playlist.append], the call [add_song_to_playlist] makes
    once its guard lets it through). *)
Definition lib_twice : Library :=
  set_playlists
    [("Drive", Playlist.append 0%nat
                 (Playlist.append 0%nat (Playlist.new "Drive")))]
    (run [Scan [rec_a; rec_b]; Enqueue 1; Enqueue 1;
          RecordPlay 0%nat; RecordPlay 0%nat] new_manager).

(** A playlist of the three tracks of [lib3], and a history of two plays. *)
Definition lib_drive : Library :=
  set_playlists
    [("Drive", Playlist.append 2%nat (Playlist.append 1%nat
                 (Playlist.append 0%nat (Playlist.new "Drive"))))]
    (run [RecordPlay 0%nat; RecordPlay 1%nat] lib3).

Local Close Scope string_scope.

(* ------------------------------------------------------------------ *)
(** ** Definitions for the further properties *)

(** The state in which [scan_and_build] starts its loop: catalog
    structures new, history, queue, playlists and objects kept. *)
Definition scan_reset (m : Library) : Library :=
  mkLibrary SinglyLinkedList.empty MultiLinkedListByGenre.empty BST.empty
            (history m) (up_next m) SongGraph.empty (playlists m) [] 1
            (objs m).

(** Ids of the catalog are pairwise different and lie between 1 and the
    id counter. *)
Definition ids_inv (m : Library) : Prop :=
  NoDup (master_ids m)
  /\ Forall (fun i => 0 < i < _next_song_id m) (master_ids m).

(** The genre index built from a sequence under the current genres. *)
Definition mll_of (h : heap) (songs : list loc) : MultiLinkedListByGenre.t :=
  fold_left (fun hs song => MultiLinkedListByGenre.add_song h song hs)
            songs MultiLinkedListByGenre.empty.

(** The genre of a song equals [g] case-insensitively. *)
Definition genre_matches (h : heap) (g : string) (l : loc) : bool :=
  String.eqb (PyStr.lower g) (PyStr.lower (genre (deref h l))).

(** The genre index partitions a sequence of songs: header names differ
    even up to case, no header is empty, each header holds the songs of its
    genre in sequence order, and every song has its header. *)
Definition genre_inv (h : heap) (songs : list loc)
                     (hs : MultiLinkedListByGenre.t) : Prop :=
  NoDup (map (fun kv => PyStr.lower (fst kv)) hs)
  /\ Forall (fun kv => snd kv <> []
                       /\ snd kv = filter (genre_matches h (fst kv)) songs) hs
  /\ (forall l, In l songs ->
        exists kv, In kv hs /\ genre_matches h (fst kv) l = true).

(** The similarity graph as a relation: symmetric, without loops, and
    every neighbour is a vertex. *)
Definition graph_ok (g : SongGraph.t) : Prop :=
  (forall a b, In b (SongGraph.neighbors a g) ->
               In a (SongGraph.neighbors b g))
  /\ (forall a, ~ In a (SongGraph.neighbors a g))
  /\ (forall a b, In b (SongGraph.neighbors a g) ->
                  Dict.mem Z.eqb b g = true).

(** The vertices of the graph are the ids of the catalog. *)
Definition graph_vertices_ok (m : Library) : Prop :=
  forall v, Dict.mem Z.eqb v (graph m) = true <-> In v (index_ids m).

(** The pairs (earlier, later) of a sequence, as [_rebuild_graph] visits
    them. *)
Fixpoint pairs {A} (xs : list A) : list (A * A) :=
  match xs with
  | [] => []
  | a :: rest => map (pair a) rest ++ pairs rest
  end.

(** The consumed prefix that the backing list of a queue still holds is
    short: at most 32 entries, or at most half of the list. *)
Definition queue_tight {A} (q : Queue.t (A := A)) : Prop :=
  queue_ok q
  /\ ((Queue._head_idx q <= 32)%nat
      \/ (2 * Queue._head_idx q <= List.length (Queue._data q))%nat).

(** Two states with the same catalog and counters; playback state and
    graph may differ. *)
Definition same_core (m m' : Library) : Prop :=
  sll m' = sll m /\ genre_mll m' = genre_mll m
  /\ title_bst m' = title_bst m /\ _song_index m' = _song_index m
  /\ _next_song_id m' = _next_song_id m /\ objs m' = objs m.

(** During a scan: the id map mirrors the master sequence, the ids are
    fresh and positive. *)
Definition scan_ids_inv (m : Library) : Prop :=
  scan_inv m /\ ids_inv m /\ 0 < _next_song_id m.

(** The pair [a], [b] of songs scores, and [x], [y] are their ids in one
    order or the other: the edge [_rebuild_graph] adds for the pair. *)
Definition links (h : heap) (a b : loc) (x y : Z) : Prop :=
  1 <= score (deref h a) (deref h b)
  /\ song_id (deref h a) <> song_id (deref h b)
  /\ ((x = song_id (deref h a) /\ y = song_id (deref h b))
      \/ (x = song_id (deref h b) /\ y = song_id (deref h a))).

(** Every two tracks of the catalog that score at least 1 are neighbours
    in the graph. *)
Definition graph_complete (m : Library) : Prop :=
  forall a b, In a (get_all_songs m) -> In b (get_all_songs m) -> a <> b ->
    1 <= score (deref (objs m) a) (deref (objs m) b) ->
    In (song_id (deref (objs m) b))
       (get_similar_songs (song_id (deref (objs m) a)) m).

(** Two tracks of the catalog are neighbours in the graph exactly when
    they score at least 1. *)
Definition graph_exact (m : Library) : Prop :=
  forall a b, In a (get_all_songs m) -> In b (get_all_songs m) -> a <> b ->
    (In (song_id (deref (objs m) b))
        (get_similar_songs (song_id (deref (objs m) a)) m)
     <-> 1 <= score (deref (objs m) a) (deref (objs m) b)).

(** The song object [scan_and_build] constructs for a file. *)
Definition record_song (id : Z) (r : RawTrackMetadata) : Song :=
  mkSong id (r_title r) (r_artist r) (r_album r) (r_genre r) (r_year r)
         (r_duration r) (r_path r) 0 false.

(** The objects of a scan: the files in listing order, numbered from
    [id]. *)
Fixpoint songs_from (id : Z) (rs : list RawTrackMetadata) : list Song :=
  match rs with
  | [] => []
  | r :: rs' => record_song id r :: songs_from (id + 1) rs'
  end.

(** *** Serialization and the calls of the web layer *)

Local Open Scope string_scope.

(** The URL the frontend plays: the file path, made absolute. *)
Definition audio_url (s : Song) : string :=
  if String.prefix "/" (file_path s) then file_path s
  else "/" ++ file_path s.

(** [song_to_dict]: the dataclass fields in declaration order (the result
    of [asdict]), then the key [audio_url]. *)
Definition song_to_dict (s : Song) : Dict.t (K := string) (V := pyval) :=
  [("song_id", VInt (song_id s)); ("title", VStr (title s));
   ("artist", VStr (artist s)); ("album", VStr (album s));
   ("genre", VStr (genre s)); ("year", VInt (year s));
   ("duration_seconds", VInt (duration_seconds s));
   ("file_path", VStr (file_path s)); ("play_count", VInt (play_count s));
   ("is_favorite", VBool (is_favorite s)); ("audio_url", VStr (audio_url s))].

(** app.py, [admin_edit_song]: the form entries whose key is one of five
    names become the keywords of [update_song]; the year is converted with
    [int], and an empty or unreadable year becomes 0.  [parse_int v] stands
    for [int(v)], [None] when it raises. *)
Definition edit_keys : list string :=
  ["title"; "artist"; "album"; "genre"; "year"].

Definition year_value (parse_int : string -> option Z) (v : string) : Z :=
  if PyStr.truthy v
  then match parse_int v with Some z => z | None => 0 end
  else 0.

Definition edit_fields (parse_int : string -> option Z)
                       (form : list (string * string))
  : list (string * pyval) :=
  map (fun kv => if String.eqb (fst kv) "year"
                 then (fst kv, VInt (year_value parse_int (snd kv)))
                 else (fst kv, VStr (snd kv)))
      (filter (fun kv => existsb (String.eqb (fst kv)) edit_keys) form).

(** app.py, [api_favorite]: [update_song(song_id, is_favorite=is_fav)]. *)
Definition favorite_fields (is_fav : bool) : list (string * pyval) :=
  [("is_favorite", VBool is_fav)].

Local Close Scope string_scope.

(* ------------------------------------------------------------------ *)
(** * Proofs *)

(** ** Queue: the head index and the compaction are invisible *)

Section QueueFacts.
Context {A : Type}.
Implicit Types (q : Queue.t (A := A)) (x : A).

Lemma skipn_cons_nth (l : list A) (n : nat) x :
  nth_error l n = Some x -> skipn n l = x :: skipn (S n) l.
Proof.
  revert n; induction l as [|a l IH]; intros [|n] H; simpl in *;
    try discriminate.
  - now inversion H.
  - now apply IH.
Qed.

Lemma skipn_nil_iff (l : list A) (n : nat) :
  skipn n l = [] <-> (List.length l <= n)%nat.
Proof.
  revert n; induction l as [|a l IH]; intros [|n]; simpl; split; intros H;
    try reflexivity; try lia; try discriminate.
  - apply IH in H. lia.
  - apply IH. lia.
Qed.

Lemma to_list_enqueue q x :
  queue_ok q ->
  Queue.to_list (Queue.enqueue x q) = Queue.to_list q ++ [x].
Proof.
  unfold queue_ok, Queue.to_list, Queue.enqueue; simpl; intros H.
  rewrite skipn_app.
  replace (Queue._head_idx q - List.length (Queue._data q))%nat with O by lia.
  reflexivity.
Qed.

Lemma peek_to_list q : Queue.peek q = hd_error (Queue.to_list q).
Proof.
  unfold Queue.peek, Queue.to_list.
  destruct (Nat.leb_spec (List.length (Queue._data q)) (Queue._head_idx q))
    as [H|H].
  - apply skipn_nil_iff in H. now rewrite H.
  - destruct (nth_error (Queue._data q) (Queue._head_idx q)) as [x|] eqn:E.
    + now rewrite (skipn_cons_nth _ _ _ E).
    + apply nth_error_None in E. lia.
Qed.

Lemma is_empty_to_list q :
  Queue.is_empty q = Fifo.is_empty (Queue.to_list q).
Proof.
  unfold Queue.is_empty, Queue.to_list, Fifo.is_empty.
  destruct (Nat.leb_spec (List.length (Queue._data q)) (Queue._head_idx q))
    as [H|H].
  - apply skipn_nil_iff in H. now rewrite H.
  - destruct (skipn (Queue._head_idx q) (Queue._data q)) eqn:E; auto.
    apply skipn_nil_iff in E. lia.
Qed.

Lemma dequeue_to_list q :
  queue_ok q ->
  fst (Queue.dequeue q) = fst (Fifo.dequeue (Queue.to_list q))
  /\ Queue.to_list (snd (Queue.dequeue q))
     = snd (Fifo.dequeue (Queue.to_list q))
  /\ queue_ok (snd (Queue.dequeue q)).
Proof.
  unfold Queue.dequeue, Queue.to_list, queue_ok. intros Hok.
  destruct (Nat.leb_spec (List.length (Queue._data q)) (Queue._head_idx q))
    as [H|H].
  - pose proof H as H'. apply skipn_nil_iff in H'. rewrite H'. simpl.
    rewrite H'. auto.
  - destruct (nth_error (Queue._data q) (Queue._head_idx q)) as [x|] eqn:E.
    2:{ apply nth_error_None in E. lia. }
    rewrite (skipn_cons_nth _ _ _ E).
    destruct ((32 <? S (Queue._head_idx q))%nat
              && (List.length (Queue._data q) <? S (Queue._head_idx q) * 2)%nat);
      simpl; repeat split; auto; lia.
Qed.

Lemma queue_step_sim q (o : qop (A := A)) :
  queue_ok q ->
  fst (queue_step q o) = fst (fifo_step (Queue.to_list q) o)
  /\ Queue.to_list (snd (queue_step q o))
     = snd (fifo_step (Queue.to_list q) o)
  /\ queue_ok (snd (queue_step q o)).
Proof.
  intros Hok. destruct o as [x| | | |]; simpl.
  - repeat split.
    + now apply to_list_enqueue.
    + unfold queue_ok in *; simpl. rewrite length_app; simpl. lia.
  - destruct (dequeue_to_list q Hok) as (H1 & H2 & H3).
    destruct (Queue.dequeue q) as [r q'].
    destruct (Fifo.dequeue (Queue.to_list q)) as [r' l'].
    simpl in *. subst. auto.
  - rewrite peek_to_list. auto.
  - rewrite is_empty_to_list. auto.
  - auto.
Qed.

Lemma queue_trace_sim (ops : list (qop (A := A))) : forall q,
  queue_ok q -> queue_trace ops q = fifo_trace ops (Queue.to_list q).
Proof.
  induction ops as [|o ops IH]; intros q Hok; simpl; [reflexivity|].
  destruct (queue_step_sim q o Hok) as (H1 & H2 & H3).
  destruct (queue_step q o) as [r q'].
  destruct (fifo_step (Queue.to_list q) o) as [r' l'].
  simpl in *. subst. f_equal. now apply IH.
Qed.

(** C7. For every sequence of enqueue, dequeue, peek, is_empty and
    to_list calls on a fresh Up-Next queue, the queue with its logical
    head index and its compaction of the backing list returns, call by
    call, exactly what a plain FIFO list returns: dequeue yields the
    elements in enqueue order and every observer sees only the
    unconsumed suffix, compaction or not. *)
Theorem C7_queue_refines_fifo (ops : list (qop (A := A))) :
  queue_trace ops Queue.empty = fifo_trace ops Fifo.empty.
Proof.
  rewrite queue_trace_sim.
  - reflexivity.
  - unfold queue_ok; simpl; lia.
Qed.

End QueueFacts.

(** ** The directory scan on the sample files *)

Lemma scan_directory_sample :
  scan_directory "static/music"
    ["Ann - Dawn.mp3"; "notes.txt"; "Bob - Dusk.mp3"; "Cy - DAWN.mp3"]%string
  = [rec_a; rec_b; rec_c].
Proof. vm_compute. reflexivity. Qed.

Lemma scan_directory_plain_name :
  scan_directory "static/music" ["Intro.WAV"; ".mp3"]%string
  = [mkRaw "Intro" "Unknown Artist" "" "Unknown" 0 0 "static/music/Intro.WAV";
     mkRaw ".mp3" "Unknown Artist" "" "Unknown" 0 0 "static/music/.mp3"].
Proof. vm_compute. reflexivity. Qed.

(** ** The order on strings *)

Lemma ascii_compare_refl (a : ascii) : Ascii.compare a a = Eq.
Proof. unfold Ascii.compare. apply N.compare_refl. Qed.

Lemma ascii_compare_lt_trans (a b c : ascii) :
  Ascii.compare a b = Lt -> Ascii.compare b c = Lt -> Ascii.compare a c = Lt.
Proof.
  unfold Ascii.compare. rewrite !N.compare_lt_iff. apply N.lt_trans.
Qed.

Lemma str_compare_lt_trans : forall a b c : string,
  String.compare a b = Lt -> String.compare b c = Lt ->
  String.compare a c = Lt.
Proof.
  induction a as [|x a IH]; intros [|y b] [|z c]; simpl; auto;
    try discriminate.
  destruct (Ascii.compare x y) eqn:Exy; try discriminate;
    destruct (Ascii.compare y z) eqn:Eyz; try discriminate; intros H1 H2.
  - apply Ascii.compare_eq_iff in Exy, Eyz. subst.
    rewrite ascii_compare_refl. eauto.
  - apply Ascii.compare_eq_iff in Exy. subst. now rewrite Eyz.
  - apply Ascii.compare_eq_iff in Eyz. subst. now rewrite Exy.
  - now rewrite (ascii_compare_lt_trans _ _ _ Exy Eyz).
Qed.

Lemma lt_trans (a b c : string) :
  PyStr.lt a b = true -> PyStr.lt b c = true -> PyStr.lt a c = true.
Proof.
  unfold PyStr.lt, String.ltb.
  destruct (String.compare a b) eqn:E1; try discriminate.
  destruct (String.compare b c) eqn:E2; try discriminate.
  now rewrite (str_compare_lt_trans _ _ _ E1 E2).
Qed.

Lemma lt_asym (a b : string) : PyStr.lt a b = true -> PyStr.lt b a = false.
Proof.
  unfold PyStr.lt, String.ltb. rewrite (String.compare_antisym b a).
  destruct (String.compare a b); simpl; intros H; try discriminate H; auto.
Qed.

Lemma lt_irrefl (a : string) : PyStr.lt a a = false.
Proof.
  destruct (PyStr.lt a a) eqn:E; auto. now rewrite (lt_asym _ _ E) in E.
Qed.

Lemma not_lt_leb (a b : string) :
  PyStr.lt b a = false -> String.leb a b = true.
Proof.
  unfold PyStr.lt, String.ltb, String.leb.
  rewrite (String.compare_antisym b a).
  destruct (String.compare a b); simpl; intros H; try discriminate H; auto.
Qed.

Lemma lt_across (kl k kr : string) :
  PyStr.lt kl k = true -> PyStr.lt kr k = false -> PyStr.lt kr kl = false.
Proof.
  intros H1 H2. destruct (PyStr.lt kr kl) eqn:E; auto.
  now rewrite (lt_trans _ _ _ E H1) in H2.
Qed.

(** ** The title tree *)

Lemma inorder_nodes (tr : BST.t) : BST.inorder tr = map snd (BST.nodes tr).
Proof.
  induction tr as [|k s l IHl r IHr]; simpl; auto.
  rewrite map_app; simpl. now rewrite IHl, IHr.
Qed.

Lemma nodes_insert_key (k : string) (v : loc) (tr : BST.t) :
  Permutation (BST.nodes (BST.insert_key k v tr)) ((k, v) :: BST.nodes tr).
Proof.
  induction tr as [|k' s l IHl r IHr]; simpl; auto.
  destruct (PyStr.lt k k'); simpl.
  - rewrite IHl. reflexivity.
  - rewrite IHr.
    replace (BST.nodes l ++ (k', s) :: (k, v) :: BST.nodes r)
      with ((BST.nodes l ++ [(k', s)]) ++ (k, v) :: BST.nodes r)
      by (rewrite <- app_assoc; reflexivity).
    rewrite <- Permutation_middle, <- app_assoc. reflexivity.
Qed.

Lemma ordered_insert_key (k : string) (v : loc) (tr : BST.t) :
  ordered tr -> ordered (BST.insert_key k v tr).
Proof.
  induction tr as [|k' s l IHl r IHr]; simpl.
  - intros _. repeat split; constructor.
  - intros (Hl & Hr & Ol & Or).
    destruct (PyStr.lt k k') eqn:E; simpl; repeat split; auto.
    + eapply Permutation_Forall.
      * symmetry. apply nodes_insert_key.
      * constructor; auto.
    + eapply Permutation_Forall.
      * symmetry. apply nodes_insert_key.
      * constructor; auto.
Qed.

Lemma StronglySorted_app {A} (R : A -> A -> Prop) (l1 l2 : list A) :
  StronglySorted R l1 -> StronglySorted R l2 ->
  (forall a b, In a l1 -> In b l2 -> R a b) ->
  StronglySorted R (l1 ++ l2).
Proof.
  induction l1 as [|x l1 IH]; simpl; intros S1 S2 H; auto.
  inversion S1; subst. constructor.
  - apply IH; auto.
  - apply Forall_app; split; auto.
    apply Forall_forall. intros b Hb. apply H; auto.
Qed.

Lemma StronglySorted_filter {A} (R : A -> A -> Prop) (p : A -> bool) l :
  StronglySorted R l -> StronglySorted R (filter p l).
Proof.
  induction 1 as [|x l S IH F]; simpl; [constructor|].
  destruct (p x); auto. constructor; auto.
  rewrite Forall_forall in *. intros y Hy. apply filter_In in Hy.
  apply F, Hy.
Qed.

Lemma StronglySorted_map {A B} (R : B -> B -> Prop) (f : A -> B) l :
  StronglySorted R (map f l) <-> StronglySorted (fun a b => R (f a) (f b)) l.
Proof.
  induction l as [|x l IH]; simpl; split; intros H; try constructor;
    inversion H; subst.
  - now apply IH.
  - rewrite Forall_map in *. auto.
  - now apply IH.
  - rewrite Forall_map. auto.
Qed.

Lemma nodes_sorted (tr : BST.t) :
  ordered tr ->
  StronglySorted (fun a b => String.leb (fst a) (fst b) = true) (BST.nodes tr).
Proof.
  induction tr as [|k s l IHl r IHr]; simpl.
  - constructor.
  - intros (Hl & Hr & Ol & Or).
    rewrite Forall_forall in Hl, Hr.
    apply StronglySorted_app; auto.
    + constructor; auto. apply Forall_forall. intros b Hb.
      apply not_lt_leb. simpl. auto.
    + intros a b Ha [Hb|Hb].
      * subst b. simpl. apply not_lt_leb. apply lt_asym. auto.
      * apply not_lt_leb. eapply lt_across; eauto.
Qed.

(** A search for [k] after one more insertion: the older match stays. *)
Lemma search_insert_key (k k' : string) (v : loc) (tr : BST.t) :
  BST.search_key k (BST.insert_key k' v tr)
  = match BST.search_key k tr with
    | Some x => Some x
    | None => if String.eqb k k' then Some v else None
    end.
Proof.
  induction tr as [|k0 s l IHl r IHr]; simpl.
  - destruct (String.eqb k k'); auto. destruct (PyStr.lt k k'); auto.
  - destruct (PyStr.lt k' k0) eqn:E'; simpl;
      destruct (String.eqb k k0) eqn:E0; auto;
      destruct (PyStr.lt k k0) eqn:E; auto.
    + destruct (BST.search_key k r); auto.
      destruct (String.eqb_spec k k'); auto. subst. congruence.
    + destruct (BST.search_key k l); auto.
      destruct (String.eqb_spec k k'); auto. subst. congruence.
Qed.

Lemma bst_of_snoc (h : heap) (ls : list loc) (l : loc) :
  bst_of h (ls ++ [l]) = BST.insert (title (deref h l)) l (bst_of h ls).
Proof. unfold bst_of. now rewrite fold_left_app. Qed.

Lemma bst_of_ext (h h' : heap) (ls : list loc) :
  (forall l, In l ls -> title (deref h l) = title (deref h' l)) ->
  bst_of h ls = bst_of h' ls.
Proof.
  induction ls as [|l ls IH] using rev_ind; intros H; [reflexivity|].
  rewrite !bst_of_snoc, IH, (H l).
  - reflexivity.
  - apply in_or_app. right. now left.
  - intros x Hx. apply H. apply in_or_app. now left.
Qed.

Lemma bst_of_nodes (h : heap) (ls : list loc) :
  Permutation (BST.nodes (bst_of h ls)) (map (fun l => (title_key h l, l)) ls).
Proof.
  induction ls as [|l ls IH] using rev_ind; [reflexivity|].
  rewrite bst_of_snoc, map_app. simpl. unfold BST.insert.
  rewrite nodes_insert_key, IH. apply Permutation_cons_append.
Qed.

Lemma bst_of_inorder (h : heap) (ls : list loc) :
  Permutation (BST.inorder (bst_of h ls)) ls.
Proof.
  rewrite inorder_nodes, bst_of_nodes, map_map. simpl. now rewrite map_id.
Qed.

Lemma bst_of_ordered (h : heap) (ls : list loc) : ordered (bst_of h ls).
Proof.
  induction ls as [|l ls IH] using rev_ind; [exact I|].
  rewrite bst_of_snoc. now apply ordered_insert_key.
Qed.

Lemma bst_of_keys (h : heap) (ls : list loc) (k : string) (l : loc) :
  In (k, l) (BST.nodes (bst_of h ls)) -> k = title_key h l.
Proof.
  intros H. eapply Permutation_in in H; [|apply bst_of_nodes].
  apply in_map_iff in H. destruct H as (x & E & _). now inversion E.
Qed.

(** In-order traversal of the tree of a sequence is sorted by title. *)
Lemma bst_of_sorted (h : heap) (ls : list loc) :
  StronglySorted (title_le h) (BST.inorder (bst_of h ls)).
Proof.
  rewrite inorder_nodes. apply StronglySorted_map.
  pose proof (nodes_sorted _ (bst_of_ordered h ls)) as S.
  assert (K : Forall (fun kv => fst kv = title_key h (snd kv))
                     (BST.nodes (bst_of h ls))).
  { apply Forall_forall. intros [k l] Hin. simpl.
    eapply bst_of_keys; eauto. }
  revert S K. generalize (BST.nodes (bst_of h ls)) as ns.
  induction ns as [|a ns IH]; intros S K; [constructor|].
  inversion S as [|? ? S' F]; subst. inversion K as [|? ? Ka Kr]; subst.
  constructor; auto.
  rewrite Forall_forall in *. intros b Hb. unfold title_le.
  rewrite <- Ka, <- (Kr b Hb). auto.
Qed.

Lemma find_app_first {A} (p : A -> bool) (l1 l2 : list A) :
  find p (l1 ++ l2)
  = match find p l1 with Some x => Some x | None => find p l2 end.
Proof.
  induction l1 as [|a l1 IH]; simpl; auto. destruct (p a); auto.
Qed.

(** Exact search in the tree of a sequence finds the first song of the
    sequence whose title matches. *)
Lemma bst_of_search (h : heap) (ls : list loc) (query : string) :
  BST.search query (bst_of h ls) = find (title_matches h query) ls.
Proof.
  unfold BST.search.
  induction ls as [|l ls IH] using rev_ind; [reflexivity|].
  rewrite bst_of_snoc. unfold BST.insert. rewrite search_insert_key, IH.
  rewrite find_app_first.
  destruct (find (title_matches h query) ls); auto.
  simpl. unfold title_matches, title_key. rewrite String.eqb_sym.
  destruct (String.eqb (PyStr.lower (title (deref h l))) (PyStr.lower query));
    auto.
Qed.

(** ** The object store *)

Lemma heap_set_length (h : heap) (l : loc) (s : Song) :
  List.length (heap_set h l s) = List.length h.
Proof.
  revert l; induction h as [|x h IH]; intros [|l]; simpl; auto.
Qed.

Lemma deref_heap_set_same (h : heap) (l : loc) (s : Song) :
  (l < List.length h)%nat -> deref (heap_set h l s) l = s.
Proof.
  unfold deref. revert l; induction h as [|x h IH]; intros [|l]; simpl;
    intros H; try lia; auto. apply IH. lia.
Qed.

Lemma deref_heap_set_other (h : heap) (l l' : loc) (s : Song) :
  l' <> l -> deref (heap_set h l s) l' = deref h l'.
Proof.
  unfold deref. revert l l'; induction h as [|x h IH]; intros [|l] [|l'];
    simpl; intros H; try congruence; auto.
Qed.

Lemma heap_set_out (h : heap) (l : loc) (s : Song) :
  (List.length h <= l)%nat -> heap_set h l s = h.
Proof.
  revert l; induction h as [|x h IH]; intros [|l]; simpl; intros H;
    try lia; auto. f_equal. apply IH. lia.
Qed.

(** A field that the new object shares with the old one is unchanged at
    every reference. *)
Lemma deref_heap_set_field {B} (f : Song -> B) (h : heap) (l l' : loc) s :
  f s = f (deref h l) -> f (deref (heap_set h l s) l') = f (deref h l').
Proof.
  intros E. destruct (Nat.eq_dec l' l) as [->|N].
  - destruct (Nat.lt_ge_cases l (List.length h)).
    + now rewrite deref_heap_set_same.
    + now rewrite heap_set_out.
  - now rewrite deref_heap_set_other.
Qed.

Lemma deref_app_old (h : heap) (s : Song) (l : loc) :
  (l < List.length h)%nat -> deref (h ++ [s]) l = deref h l.
Proof. intros H. unfold deref. now rewrite app_nth1. Qed.

Lemma deref_app_new (h : heap) (s : Song) :
  deref (h ++ [s]) (List.length h) = s.
Proof. unfold deref. now rewrite nth_middle. Qed.

Lemma unlink_first_In {A} (p : A -> bool) (xs : list A) (x : A) :
  In x (snd (unlink_first p xs)) -> In x xs.
Proof.
  induction xs as [|a xs IH]; simpl; auto.
  destruct (p a); simpl; auto.
  destruct (unlink_first p xs) as [b r]; simpl in *.
  intros [H|H]; auto.
Qed.

(** ** Invariants of the manager *)

(** Exposes the fields of a state written with the field setters. *)
Ltac fields :=
  cbv zeta;
  unfold _rebuild_graph, rebuild_title_bst, rebuild_genre_mll, get_all_songs,
    SinglyLinkedList.traverse, set_sll, set_genre_mll, set_title_bst,
    set_history, set_up_next, set_graph, set_playlists, set_song_index,
    set_next_song_id, set_objs in *;
  cbn [sll genre_mll title_bst history up_next graph playlists _song_index
       _next_song_id objs fst snd] in *.

(** *** The title tree mirrors the master sequence (every reachable state) *)

(** The song object that [scan_and_build] constructs from a record. *)
Lemma scan_one_fields (m : Library) (r : RawTrackMetadata) :
  let s := mkSong (_next_song_id m) (r_title r) (r_artist r) (r_album r)
                  (r_genre r) (r_year r) (r_duration r) (r_path r) 0 false in
  let l := List.length (objs m) in
  sll (scan_one m r) = sll m ++ [l]
  /\ objs (scan_one m r) = objs m ++ [s]
  /\ _song_index (scan_one m r)
     = Dict.set Z.eqb (song_id (deref (objs m ++ [s]) l)) l (_song_index m)
  /\ _next_song_id (scan_one m r) = _next_song_id m + 1
  /\ playlists (scan_one m r) = playlists m.
Proof. repeat split. Qed.

Lemma scan_one_title_inv (m : Library) (r : RawTrackMetadata) :
  title_inv m -> title_inv (scan_one m r).
Proof.
  unfold title_inv, bst_ok, refs_ok, scan_one, alloc, _add_song,
    SinglyLinkedList.insert_end. simpl. intros [B R]. split.
  - rewrite bst_of_snoc, B. f_equal.
    apply bst_of_ext. intros l Hl. rewrite Forall_forall in R.
    now rewrite deref_app_old by auto.
  - apply Forall_app. split.
    + eapply Forall_impl; [|exact R]. simpl. intros l Hl.
      rewrite length_app. simpl. lia.
    + constructor; [|constructor]. rewrite length_app. simpl. lia.
Qed.

Lemma scan_fold_title_inv (rs : list RawTrackMetadata) : forall m,
  title_inv m -> title_inv (fold_left scan_one rs m).
Proof.
  induction rs as [|r rs IH]; simpl; auto using scan_one_title_inv.
Qed.

Lemma scan_title_inv (rs : list RawTrackMetadata) (m : Library) :
  title_inv (scan_and_build rs m).
Proof.
  unfold scan_and_build.
  match goal with |- title_inv (_rebuild_graph ?x) =>
    assert (H : title_inv x) end.
  { apply scan_fold_title_inv. split.
    - reflexivity.
    - constructor. }
  exact H.
Qed.

Lemma update_title_inv (id : Z) fields (m : Library) :
  title_inv m -> title_inv (snd (update_song id fields m)).
Proof.
  unfold update_song. intros [B R].
  destruct (Dict.get Z.eqb id (_song_index m)) as [s|]; [|split; auto].
  unfold title_inv, bst_ok, refs_ok in *. fields.
  set (h' := heap_set (objs m) s (apply_fields fields (deref (objs m) s))).
  assert (R' : Forall (fun l => (l < List.length h')%nat) (sll m)).
  { unfold h'. now rewrite heap_set_length. }
  destruct (String.eqb_spec (title (deref h' s)) (title (deref (objs m) s)))
    as [E|N]; fields;
  destruct (String.eqb (genre (deref h' s)) (genre (deref (objs m) s)));
    fields; (split; [|exact R']); try reflexivity.
  all: rewrite B; apply bst_of_ext; intros l Hl; symmetry; unfold h'.
  all: destruct (Nat.eq_dec l s) as [->|Nl];
    [ exact E | now rewrite deref_heap_set_other ].
Qed.

(** What [delete_song] leaves in each field when the id is known. *)
Lemma delete_song_fields (id : Z) (m : Library) :
  Dict.mem Z.eqb id (_song_index m) = true ->
  fst (delete_song id m) = true
  /\ sll (snd (delete_song id m))
     = snd (unlink_first (has_id (objs m) id) (sll m))
  /\ title_bst (snd (delete_song id m))
     = bst_of (objs m) (snd (unlink_first (has_id (objs m) id) (sll m)))
  /\ _song_index (snd (delete_song id m)) = Dict.del Z.eqb id (_song_index m)
  /\ objs (snd (delete_song id m)) = objs m
  /\ playlists (snd (delete_song id m))
     = remove_from_all_playlists (objs m) id (playlists m)
  /\ history (snd (delete_song id m))
     = filter (fun s => negb (has_id (objs m) id s)) (history m)
  /\ get_queue_list (snd (delete_song id m))
     = filter (fun s => negb (has_id (objs m) id s)) (get_queue_list m).
Proof.
  intros H. unfold delete_song. rewrite H. repeat split.
Qed.

Lemma delete_song_unknown (id : Z) (m : Library) :
  Dict.mem Z.eqb id (_song_index m) = false -> delete_song id m = (false, m).
Proof. intros H. unfold delete_song. now rewrite H. Qed.

Lemma delete_title_inv (id : Z) (m : Library) :
  title_inv m -> title_inv (snd (delete_song id m)).
Proof.
  intros [B R]. destruct (Dict.mem Z.eqb id (_song_index m)) eqn:M.
  - destruct (delete_song_fields id m M) as (_ & S & T & _ & O & _).
    unfold title_inv, bst_ok, refs_ok in *. rewrite S, T, O. split; auto.
    rewrite Forall_forall in *. intros l Hl. apply R.
    eapply unlink_first_In; eauto.
  - rewrite (delete_song_unknown id m M). split; auto.
Qed.

Lemma record_play_title_inv (l : loc) (m : Library) :
  title_inv m -> title_inv (record_play l m).
Proof.
  unfold record_play, title_inv, bst_ok, refs_ok. intros [B R]. fields. split.
  - rewrite B. apply bst_of_ext. intros x _. symmetry.
    now apply (deref_heap_set_field title).
  - now rewrite heap_set_length.
Qed.

Lemma same_catalog_refl (m : Library) : same_catalog m m.
Proof. repeat split. Qed.

Lemma same_catalog_title_inv (m m' : Library) :
  same_catalog m m' -> title_inv m -> title_inv m'.
Proof.
  unfold title_inv, bst_ok, refs_ok. intros (E1 & E2 & E3 & E4) H.
  now rewrite E1, E2, E4.
Qed.

Lemma create_playlist_frame n m : same_catalog m (snd (create_playlist n m)).
Proof.
  unfold create_playlist. destruct (Dict.mem String.eqb n (playlists m));
    repeat split.
Qed.

Lemma delete_playlist_frame n m : same_catalog m (snd (delete_playlist n m)).
Proof. repeat split. Qed.

Lemma add_song_to_playlist_frame n id m :
  same_catalog m (snd (add_song_to_playlist n id m)).
Proof.
  unfold add_song_to_playlist.
  destruct (Dict.get String.eqb n (playlists m)) as [pl|];
    destruct (Dict.get Z.eqb id (_song_index m));
    try destruct (Playlist.truthy pl); repeat split.
Qed.

Lemma remove_song_from_playlist_frame n id m :
  same_catalog m (snd (remove_song_from_playlist n id m)).
Proof.
  unfold remove_song_from_playlist.
  destruct (Dict.get String.eqb n (playlists m)) as [pl|];
    try destruct (Playlist.truthy pl);
    try destruct (Playlist.remove (objs m) id pl); repeat split.
Qed.

Lemma enqueue_song_frame id m : same_catalog m (snd (enqueue_song id m)).
Proof.
  unfold enqueue_song. destruct (Dict.get Z.eqb id (_song_index m));
    repeat split.
Qed.

Lemma dequeue_song_frame m : same_catalog m (snd (dequeue_song m)).
Proof.
  unfold dequeue_song. destruct (Queue.dequeue (up_next m)); repeat split.
Qed.

Lemma get_next_similar_song_frame id rnd m :
  same_catalog m (snd (fst (get_next_similar_song id rnd m))).
Proof.
  unfold get_next_similar_song.
  destruct (Random.shuffle (get_similar_songs id m) rnd) as [ns rnd'].
  destruct (Dict.mem Z.eqb id (graph m));
    match goal with |- context [first_indexed ?i ?n] =>
      destruct (first_indexed i n) end; repeat split.
Qed.

Lemma get_next_song_frame cur pname rnd m :
  same_catalog m (snd (get_next_song cur pname rnd m)).
Proof.
  unfold get_next_song.
  destruct (playlist_next cur pname m); [apply same_catalog_refl|].
  pose proof (dequeue_song_frame m) as D.
  destruct (dequeue_song m) as [[q|] m1]; simpl in D; auto.
  destruct (truthy_id cur) as [c|]; auto.
  pose proof (get_next_similar_song_frame c rnd m1) as S.
  destruct (get_next_similar_song c rnd m1) as [[[sim|] m2] rnd2];
    simpl in *; unfold same_catalog in *; intuition congruence.
Qed.

Lemma get_previous_song_frame cur pname m :
  same_catalog m (snd (get_previous_song cur pname m)).
Proof.
  unfold get_previous_song.
  destruct (playlist_prev cur pname m); [apply same_catalog_refl|].
  destruct (Stack.is_empty (history m)); [apply same_catalog_refl|].
  destruct (Stack.pop (history m)); repeat split.
Qed.

(** Every call but scan, update, delete and record_play leaves the
    catalog as it is. *)
Lemma apply_op_frame (o : op) (m : Library) :
  match o with
  | Scan _ | Update _ _ | Delete _ | RecordPlay _ => True
  | _ => same_catalog m (apply_op m o)
  end.
Proof.
  destruct o; try exact I; unfold apply_op.
  - apply create_playlist_frame.
  - apply delete_playlist_frame.
  - apply add_song_to_playlist_frame.
  - apply remove_song_from_playlist_frame.
  - apply enqueue_song_frame.
  - apply dequeue_song_frame.
  - apply get_next_song_frame.
  - apply get_previous_song_frame.
Qed.

Lemma apply_op_title_inv (o : op) (m : Library) :
  title_inv m -> title_inv (apply_op m o).
Proof.
  intros H. pose proof (apply_op_frame o m) as F.
  destruct o; simpl in *;
    try (eapply same_catalog_title_inv; [exact F|exact H]).
  - apply scan_title_inv.
  - destruct (accepted fields); auto. now apply update_title_inv.
  - now apply delete_title_inv.
  - destruct (song <? List.length (objs m))%nat; auto.
    now apply record_play_title_inv.
Qed.

Lemma run_title_inv (ops : list op) : forall m,
  title_inv m -> title_inv (run ops m).
Proof.
  unfold run. induction ops as [|o ops IH]; simpl; intros m H; auto.
  apply IH. now apply apply_op_title_inv.
Qed.

Lemma reachable_title_inv (ops : list op) : title_inv (run ops new_manager).
Proof. apply run_title_inv. split; [reflexivity|constructor]. Qed.

(** ** Title search *)

Lemma search_by_title_exact (ops : list op) (query : string) :
  let m := run ops new_manager in
  BST.search query (title_bst m)
  = find (title_matches (objs m) query) (get_all_songs m).
Proof.
  intros m. destruct (reachable_title_inv ops) as [B _].
  fold m in B. rewrite B. apply bst_of_search.
Qed.

(** C10. When several tracks have the same title up to case, a search for
    that title returns exactly one track, and it is the first of them in
    master-sequence order: the track inserted first into the title tree,
    which [BST.search] meets before the later duplicates that
    [BST.insert] sent into right subtrees. *)
Theorem C10_first_inserted_match (ops : list op) (query : string) (l : loc) :
  let m := run ops new_manager in
  find (title_matches (objs m) query) (get_all_songs m) = Some l ->
  search_by_title query m = [l].
Proof.
  intros m H. unfold search_by_title.
  unfold m. rewrite search_by_title_exact. fold m. now rewrite H.
Qed.

Lemma C10_witness :
  find (title_matches (objs lib3) "dawn") (get_all_songs lib3) = Some 0%nat
  /\ title_matches (objs lib3) "dawn" 2%nat = true
  /\ search_by_title "dawn" lib3 = [0%nat].
Proof.
  assert (F : find (title_matches (objs lib3) "dawn") (get_all_songs lib3)
              = Some 0%nat) by (vm_compute; reflexivity).
  split; [exact F|]. split; [vm_compute; reflexivity|].
  exact (C10_first_inserted_match [Scan [rec_a; rec_b; rec_c]] "dawn" 0%nat F).
Defined.

(** C4. [search_by_title query]: when some track of the catalog has a
    title equal to the query up to case, the result is a singleton holding
    such a track; when none has, the result holds all and only the tracks
    whose title contains the query up to case, in the order of the
    in-order traversal of the title tree, which is sorted by lower-cased
    title. *)
Theorem C4_search_by_title (ops : list op) (query : string) :
  let m := run ops new_manager in
  ((exists l, In l (get_all_songs m) /\ title_matches (objs m) query l = true)
   -> exists l, search_by_title query m = [l]
                /\ In l (get_all_songs m)
                /\ title_matches (objs m) query l = true)
  /\ ((forall l, In l (get_all_songs m) ->
                 title_matches (objs m) query l = false)
      -> (forall l, In l (search_by_title query m)
                    <-> In l (get_all_songs m)
                        /\ title_contains (objs m) query l = true)
         /\ search_by_title query m
            = filter (title_contains (objs m) query)
                     (BST.inorder (title_bst m))
         /\ StronglySorted (title_le (objs m)) (search_by_title query m)).
Proof.
  intros m. pose proof (search_by_title_exact ops query) as S. fold m in S.
  destruct (reachable_title_inv ops) as [B _]. fold m in B.
  unfold bst_ok in B. split.
  - intros (l & Hin & Hm).
    destruct (find (title_matches (objs m) query) (get_all_songs m))
      as [x|] eqn:F.
    + exists x. apply find_some in F as F'. destruct F' as [Hx Mx].
      repeat split; auto. unfold search_by_title. now rewrite S, F.
    + eapply find_none in F; eauto. congruence.
  - intros Hno.
    assert (F : find (title_matches (objs m) query) (get_all_songs m) = None).
    { destruct (find (title_matches (objs m) query) (get_all_songs m))
        as [x|] eqn:F; auto.
      apply find_some in F. destruct F as [Hx Mx].
      rewrite (Hno x Hx) in Mx. discriminate. }
    assert (E : search_by_title query m
                = filter (title_contains (objs m) query)
                         (BST.inorder (title_bst m))).
    { unfold search_by_title. now rewrite S, F. }
    split; [|split]; auto.
    + intros l. rewrite E, filter_In, B.
      pose proof (bst_of_inorder (objs m) (sll m)) as P.
      split; intros [H1 H2]; split; auto.
      * eapply Permutation_in; eauto.
      * eapply Permutation_in; [symmetry; exact P|exact H1].
    + rewrite E, B. apply StronglySorted_filter, bst_of_sorted.
Qed.

Lemma C4_witness :
  (exists l, In l (get_all_songs lib3)
             /\ title_matches (objs lib3) "DUSK" l = true)
  /\ (exists l, search_by_title "DUSK" lib3 = [l]
                /\ In l (get_all_songs lib3)
                /\ title_matches (objs lib3) "DUSK" l = true)
  /\ (forall l, In l (get_all_songs lib3) ->
                title_matches (objs lib3) "us" l = false)
  /\ search_by_title "us" lib3
     = filter (title_contains (objs lib3) "us")
              (BST.inorder (title_bst lib3))
  /\ StronglySorted (title_le (objs lib3)) (search_by_title "us" lib3).
Proof.
  assert (P1 : exists l, In l (get_all_songs lib3)
                         /\ title_matches (objs lib3) "DUSK" l = true).
  { exists 1%nat. vm_compute. split; [right; left|]; reflexivity. }
  assert (P2 : forall l, In l (get_all_songs lib3) ->
                         title_matches (objs lib3) "us" l = false).
  { assert (B : forallb (fun l => negb (title_matches (objs lib3) "us" l))
                        (get_all_songs lib3) = true)
      by (vm_compute; reflexivity).
    intros l H. apply negb_true_iff.
    exact (proj1 (forallb_forall _ _) B l H). }
  split; [exact P1|]. split.
  - exact (proj1 (C4_search_by_title [Scan [rec_a; rec_b; rec_c]] "DUSK") P1).
  - split; [exact P2|].
    exact (proj2 (proj2 (C4_search_by_title [Scan [rec_a; rec_b; rec_c]] "us")
                    P2)).
Defined.

(** ** Failed update and delete *)

(** C8. [update_song] and [delete_song] return [False] exactly when the
    id is not a key of the id map, and a call that returns [False] leaves
    the whole state (master sequence, genre index, title tree, graph,
    queue, history, playlists, id map, id counter, objects) as it was. *)
Theorem C8_failure_is_not_found (m : Library) (id : Z)
                                (fields : list (string * pyval)) :
  (fst (update_song id fields m) = false <-> get_song_by_id id m = None)
  /\ (fst (update_song id fields m) = false
      -> snd (update_song id fields m) = m)
  /\ (fst (delete_song id m) = false <-> get_song_by_id id m = None)
  /\ (fst (delete_song id m) = false -> snd (delete_song id m) = m).
Proof.
  unfold update_song, delete_song, get_song_by_id, Dict.mem.
  destruct (Dict.get Z.eqb id (_song_index m)) as [s|]; simpl;
    repeat split; intros; try discriminate; auto.
Qed.

Lemma C8_witness :
  get_song_by_id 9 lib3 = None
  /\ snd (update_song 9 [("title"%string, VStr "Noon")] lib3) = lib3
  /\ snd (delete_song 9 lib3) = lib3.
Proof.
  destruct (C8_failure_is_not_found lib3 9 [("title"%string, VStr "Noon")])
    as (U1 & U2 & D1 & D2).
  assert (N : get_song_by_id 9 lib3 = None) by (vm_compute; reflexivity).
  split; [exact N|]. split.
  - apply U2, U1, N.
  - apply D2, D1, N.
Defined.

(** ** The id map mirrors the master sequence *)

Lemma dict_set_fresh {V} (k : Z) (v : V) (d : Dict.t (K := Z) (V := V)) :
  Forall (fun kv => fst kv < k) d -> Dict.set Z.eqb k v d = d ++ [(k, v)].
Proof.
  induction 1 as [|[k' v'] d H F IH]; simpl; auto.
  simpl in H. destruct (Z.eqb_spec k k'); [lia|]. now rewrite IH.
Qed.

Lemma dict_del_index (h : heap) (id : Z) (ls : list loc) :
  Dict.del Z.eqb id (map (fun l => (song_id (deref h l), l)) ls)
  = map (fun l => (song_id (deref h l), l))
        (snd (unlink_first (has_id h id) ls)).
Proof.
  induction ls as [|l ls IH]; simpl; auto.
  unfold has_id at 1. rewrite (Z.eqb_sym id).
  destruct (song_id (deref h l) =? id); simpl; auto.
  destruct (unlink_first (has_id h id) ls) as [b r]; simpl in *.
  now rewrite IH.
Qed.

Lemma index_map_ext (h h' : heap) (ls : list loc) :
  (forall l, In l ls -> song_id (deref h' l) = song_id (deref h l)) ->
  map (fun l => (song_id (deref h' l), l)) ls
  = map (fun l => (song_id (deref h l), l)) ls.
Proof.
  intros H. apply map_ext_in. intros l Hl. now rewrite H.
Qed.

Lemma scan_one_scan_inv (m : Library) (r : RawTrackMetadata) :
  scan_inv m -> scan_inv (scan_one m r).
Proof.
  unfold scan_inv, catalog_inv, index_ok, refs_ok.
  intros ((I & R) & F).
  destruct (scan_one_fields m r) as (S & O & X & N & _).
  rewrite S, O, X, N, deref_app_new. clear S O X N. simpl song_id.
  set (s := mkSong (_next_song_id m) (r_title r) (r_artist r) (r_album r)
                   (r_genre r) (r_year r) (r_duration r) (r_path r) 0 false).
  assert (Old : forall l, In l (sll m) ->
                          deref (objs m ++ [s]) l = deref (objs m) l).
  { intros l Hl. rewrite Forall_forall in R. now apply deref_app_old, R. }
  repeat split.
  - rewrite map_app. simpl. rewrite deref_app_new. simpl.
    rewrite (index_map_ext (objs m)) by (intros; now rewrite Old).
    rewrite I. apply dict_set_fresh.
    rewrite Forall_map. simpl. exact F.
  - apply Forall_app. split.
    + eapply Forall_impl; [|exact R]. simpl. intros l Hl.
      rewrite length_app. simpl. lia.
    + constructor; [|constructor]. rewrite length_app. simpl. lia.
  - apply Forall_app. split.
    + rewrite Forall_forall in *. intros l Hl. rewrite Old by auto.
      specialize (F l Hl). lia.
    + constructor; [|constructor]. rewrite deref_app_new. simpl. lia.
Qed.

Lemma scan_fold_scan_inv (rs : list RawTrackMetadata) : forall m,
  scan_inv m -> scan_inv (fold_left scan_one rs m).
Proof.
  induction rs as [|r rs IH]; simpl; auto using scan_one_scan_inv.
Qed.

Lemma scan_catalog_inv (rs : list RawTrackMetadata) (m : Library) :
  catalog_inv (scan_and_build rs m).
Proof.
  unfold scan_and_build.
  match goal with |- catalog_inv (_rebuild_graph ?x) =>
    assert (H : scan_inv x) end.
  { apply scan_fold_scan_inv. repeat split; constructor. }
  exact (proj1 H).
Qed.

Lemma setattr_keeps_id (s : Song) (k : string) (v : pyval) :
  String.eqb k "song_id" = false -> song_id (setattr s k v) = song_id s.
Proof.
  intros E. unfold setattr. rewrite E.
  destruct v; repeat match goal with
    |- context [if ?c then _ else _] => destruct c end; reflexivity.
Qed.

Lemma binds_kwargs_cons (k : string) (v : pyval) fs :
  binds_kwargs ((k, v) :: fs) = true ->
  String.eqb k "song_id" = false /\ binds_kwargs fs = true.
Proof.
  unfold binds_kwargs. simpl. intros H.
  apply andb_true_iff in H. destruct H as [Hk Hfs]. split; auto.
  apply negb_true_iff in Hk. apply orb_false_iff in Hk.
  destruct Hk as [_ Hk]. apply orb_false_iff in Hk. tauto.
Qed.

Lemma apply_fields_keeps_id (fields : list (string * pyval)) : forall s,
  binds_kwargs fields = true -> song_id (apply_fields fields s) = song_id s.
Proof.
  unfold apply_fields.
  induction fields as [|[k v] fs IH]; intros s H; [reflexivity|].
  apply binds_kwargs_cons in H. destruct H as [Hk Hfs].
  cbn [fold_left fst snd]. rewrite IH by auto.
  destruct (hasattr k); auto. now apply setattr_keeps_id.
Qed.

Lemma update_catalog_inv (id : Z) fields (m : Library) :
  binds_kwargs fields = true ->
  catalog_inv m -> catalog_inv (snd (update_song id fields m)).
Proof.
  unfold update_song. intros Hf [I R].
  destruct (Dict.get Z.eqb id (_song_index m)) as [s|]; [|split; auto].
  unfold catalog_inv, index_ok, refs_ok in *. fields.
  set (h' := heap_set (objs m) s (apply_fields fields (deref (objs m) s))).
  assert (R' : Forall (fun l => (l < List.length h')%nat) (sll m)).
  { unfold h'. now rewrite heap_set_length. }
  assert (I' : _song_index m
               = map (fun l => (song_id (deref h' l), l)) (sll m)).
  { rewrite I at 1. symmetry. apply index_map_ext. intros l _. unfold h'.
    apply (deref_heap_set_field song_id). now apply apply_fields_keeps_id. }
  destruct (String.eqb (title (deref h' s)) (title (deref (objs m) s)));
    fields;
  destruct (String.eqb (genre (deref h' s)) (genre (deref (objs m) s)));
    fields; split; auto.
Qed.

Lemma delete_catalog_inv (id : Z) (m : Library) :
  catalog_inv m -> catalog_inv (snd (delete_song id m)).
Proof.
  intros [I R]. destruct (Dict.mem Z.eqb id (_song_index m)) eqn:M.
  - destruct (delete_song_fields id m M) as (_ & S & _ & X & O & _).
    unfold catalog_inv, index_ok, refs_ok in *. rewrite S, X, O. split.
    + rewrite I. apply dict_del_index.
    + rewrite Forall_forall in *. intros l Hl. apply R.
      eapply unlink_first_In; eauto.
  - rewrite (delete_song_unknown id m M). split; auto.
Qed.

Lemma record_play_catalog_inv (l : loc) (m : Library) :
  catalog_inv m -> catalog_inv (record_play l m).
Proof.
  unfold record_play, catalog_inv, index_ok, refs_ok. intros [I R]. fields.
  split.
  - rewrite I at 1. symmetry. apply index_map_ext. intros x _.
    now apply (deref_heap_set_field song_id).
  - now rewrite heap_set_length.
Qed.

Lemma same_catalog_catalog_inv (m m' : Library) :
  same_catalog m m' -> catalog_inv m -> catalog_inv m'.
Proof.
  unfold catalog_inv, index_ok, refs_ok. intros (E1 & E2 & E3 & E4) H.
  now rewrite E1, E3, E4.
Qed.

Lemma apply_op_catalog_inv (o : op) (m : Library) :
  catalog_inv m -> catalog_inv (apply_op m o).
Proof.
  intros H. pose proof (apply_op_frame o m) as F.
  destruct o; simpl in *;
    try (eapply same_catalog_catalog_inv; [exact F|exact H]).
  - apply scan_catalog_inv.
  - destruct (accepted fields) eqn:A; auto.
    apply update_catalog_inv; auto.
    unfold accepted in A. now apply andb_true_iff in A.
  - now apply delete_catalog_inv.
  - destruct (song <? List.length (objs m))%nat; auto.
    now apply record_play_catalog_inv.
Qed.

Lemma run_catalog_inv (ops : list op) : forall m,
  catalog_inv m -> catalog_inv (run ops m).
Proof.
  unfold run. induction ops as [|o ops IH]; simpl; intros m H; auto.
  apply IH. now apply apply_op_catalog_inv.
Qed.

Lemma reachable_catalog_inv (ops : list op) :
  catalog_inv (run ops new_manager).
Proof. apply run_catalog_inv. split; [reflexivity|constructor]. Qed.

(** A key of the id map leads to an object of the store that carries that
    id. *)
Lemma index_get (m : Library) (id : Z) (l : loc) :
  catalog_inv m -> get_song_by_id id m = Some l ->
  song_id (deref (objs m) l) = id /\ (l < List.length (objs m))%nat.
Proof.
  unfold catalog_inv, index_ok, refs_ok, get_song_by_id. intros [I R].
  rewrite I. clear I. induction (sll m) as [|x xs IH]; simpl;
    [discriminate|].
  inversion R; subst. destruct (Z.eqb_spec id (song_id (deref (objs m) x))).
  - intros E. inversion E; subst. auto.
  - auto.
Qed.

Lemma same_set_of_perm (h : heap) (a b : list loc) :
  Permutation a b -> same_set (ids_of h a) (ids_of h b).
Proof.
  intros P x. unfold ids_of.
  split; apply Permutation_in; [|symmetry]; now apply Permutation_map.
Qed.

(** C3. After every call of any sequence of manager calls (scan, update,
    delete and the others), the ids met along the master sequence, the ids
    of the songs in the title tree and the keys of the id map are the same
    set. *)
Theorem C3_same_ids (ops : list op) :
  let m := run ops new_manager in
  same_set (master_ids m) (title_ids m)
  /\ same_set (title_ids m) (index_ids m)
  /\ same_set (master_ids m) (index_ids m).
Proof.
  intros m.
  destruct (reachable_title_inv ops) as [B _]. fold m in B.
  destruct (reachable_catalog_inv ops) as [I _].
  fold m in I. unfold bst_ok in B. unfold index_ok in I.
  assert (E : index_ids m = master_ids m).
  { unfold index_ids, master_ids, ids_of, Dict.keys.
    rewrite I, map_map. reflexivity. }
  assert (T : same_set (title_ids m) (master_ids m)).
  { unfold title_ids, master_ids. rewrite B.
    apply same_set_of_perm, bst_of_inorder. }
  rewrite E. split; [|split].
  - intros x. symmetry. apply T.
  - exact T.
  - intros x. tauto.
Qed.

(** ** update_song *)

Lemma update_song_objs (id : Z) fields (m : Library) (l : loc) :
  get_song_by_id id m = Some l ->
  objs (snd (update_song id fields m))
  = heap_set (objs m) l (apply_fields fields (deref (objs m) l))
  /\ _song_index (snd (update_song id fields m)) = _song_index m
  /\ fst (update_song id fields m) = true.
Proof.
  unfold update_song, get_song_by_id. intros ->. fields.
  match goal with |- context [if ?c then _ else _] => destruct c end; fields;
  match goal with |- context [if ?c then _ else _] => destruct c end; fields;
  auto.
Qed.

Lemma hasattr_cases (k : string) :
  hasattr k = true ->
  In k song_attrs.
Proof.
  unfold hasattr. rewrite existsb_exists. intros (x & Hx & E).
  apply String.eqb_eq in E. now subst.
Qed.

Lemma getattr_setattr (s : Song) (k k' : string) (v : pyval) :
  hasattr k' = true -> well_typed_entry (k', v) = true ->
  getattr (setattr s k' v) k
  = if String.eqb k k' then Some v else getattr s k.
Proof.
  intros H W. apply hasattr_cases in H. unfold song_attrs in H. simpl in H.
  repeat (destruct H as [<-|H]); try contradiction;
    destruct v; try discriminate W; unfold setattr, getattr; simpl;
    repeat match goal with
    | |- context [String.eqb k ?c] =>
        destruct (String.eqb_spec k c); [subst; try reflexivity|]
    end; reflexivity.
Qed.

Lemma entry_for_snoc (k : string) fs (kv : string * pyval) :
  entry_for k (fs ++ [kv])
  = if String.eqb (fst kv) k then Some (snd kv) else entry_for k fs.
Proof. unfold entry_for. now rewrite fold_left_app. Qed.

Lemma apply_fields_snoc fs (kv : string * pyval) (s : Song) :
  apply_fields (fs ++ [kv]) s
  = if hasattr (fst kv) then setattr (apply_fields fs s) (fst kv) (snd kv)
    else apply_fields fs s.
Proof. unfold apply_fields. now rewrite fold_left_app. Qed.

Lemma getattr_apply_fields (fs : list (string * pyval)) (s : Song) k :
  well_typed fs = true -> hasattr k = true ->
  getattr (apply_fields fs s) k
  = match entry_for k fs with Some v => Some v | None => getattr s k end.
Proof.
  intros W H. induction fs as [|[k' v] fs IH] using rev_ind; [reflexivity|].
  unfold well_typed in W. rewrite forallb_app in W.
  apply andb_true_iff in W. destruct W as [W1 W2]. simpl in W2.
  rewrite andb_true_r in W2.
  rewrite entry_for_snoc, apply_fields_snoc. simpl.
  destruct (hasattr k') eqn:H'.
  - rewrite getattr_setattr by auto. rewrite String.eqb_sym.
    destruct (String.eqb k' k); auto.
  - destruct (String.eqb_spec k' k); [congruence|]. auto.
Qed.

Lemma apply_fields_filter (fs : list (string * pyval)) : forall s,
  apply_fields (filter (fun kv => hasattr (fst kv)) fs) s = apply_fields fs s.
Proof.
  unfold apply_fields. induction fs as [|[k v] fs IH]; simpl; intros s; auto.
  destruct (hasattr k) eqn:H; simpl; rewrite ?H; auto.
Qed.

Lemma hasattr_mutable (k : string) :
  String.eqb k "song_id" = false ->
  hasattr k = existsb (String.eqb k) mutable_attrs.
Proof. intros H. unfold hasattr, song_attrs. simpl. now rewrite H. Qed.

Lemma apply_fields_mutable (fs : list (string * pyval)) : forall s,
  binds_kwargs fs = true ->
  apply_fields (filter (fun kv => existsb (String.eqb (fst kv)) mutable_attrs)
                       fs) s
  = apply_fields fs s.
Proof.
  induction fs as [|[k v] fs IH]; intros s H; [reflexivity|].
  apply binds_kwargs_cons in H. destruct H as [Hk Hfs].
  pose proof (hasattr_mutable k Hk) as E.
  cbn [filter fst]. rewrite <- E.
  destruct (hasattr k) eqn:Hh.
  - unfold apply_fields in *. cbn [fold_left fst snd]. rewrite Hh.
    now apply IH.
  - rewrite IH by auto. unfold apply_fields. cbn [fold_left fst snd].
    now rewrite Hh.
Qed.

(** C9. For a known id, [update_song] applies the entries of the keyword
    dictionary that name one of the nine descriptive fields (title,
    artist, album, genre, year, duration_seconds, file_path, play_count,
    is_favorite), each with the value it carries, leaves the other fields
    as they were and ignores every other entry.  The id is not touched:
    before and after the call the track carries the id that is its key in
    the id map. *)
Theorem C9_update_applies_named_fields
    (ops : list op) (id : Z) (l : loc) (fs : list (string * pyval)) :
  let m := run ops new_manager in
  get_song_by_id id m = Some l ->
  accepted fs = true ->
  let m' := snd (update_song id fs m) in
  fst (update_song id fs m) = true
  /\ (forall k, In k mutable_attrs ->
        getattr (deref (objs m') l) k
        = match entry_for k fs with
          | Some v => Some v
          | None => getattr (deref (objs m) l) k
          end)
  /\ update_song id
       (filter (fun kv => existsb (String.eqb (fst kv)) mutable_attrs) fs) m
     = update_song id fs m
  /\ get_song_by_id id m' = Some l
  /\ song_id (deref (objs m) l) = id
  /\ song_id (deref (objs m') l) = id.
Proof.
  intros m G A m'.
  unfold accepted in A. apply andb_true_iff in A. destruct A as [Bk W].
  destruct (index_get m id l (reachable_catalog_inv ops) G) as [Hid L].
  destruct (update_song_objs id fs m l G) as (O & I & T).
  fold m' in O, I. repeat split; auto.
  - intros k H. rewrite O, deref_heap_set_same by auto.
    apply getattr_apply_fields; auto.
    unfold hasattr, song_attrs. apply existsb_exists. exists k.
    split; [now right|apply String.eqb_refl].
  - unfold update_song. unfold get_song_by_id in G.
    now rewrite G, apply_fields_mutable.
  - unfold get_song_by_id in *. now rewrite I.
  - rewrite O, deref_heap_set_same by auto.
    now rewrite apply_fields_keeps_id.
Qed.

Lemma C9_witness :
  get_song_by_id 2 lib3 = Some 1%nat
  /\ accepted [("title", VStr "Noon"); ("mood", VStr "calm");
               ("year", VInt 1999)]%string = true
  /\ getattr (deref (objs (snd (update_song 2
                [("title", VStr "Noon"); ("mood", VStr "calm");
                 ("year", VInt 1999)]%string lib3))) 1%nat) "title"
     = Some (VStr "Noon")
  /\ song_id (deref (objs (snd (update_song 2
                [("title", VStr "Noon"); ("mood", VStr "calm");
                 ("year", VInt 1999)]%string lib3))) 1%nat)
     = 2.
Proof.
  assert (G : get_song_by_id 2 lib3 = Some 1%nat) by (vm_compute; reflexivity).
  assert (W : accepted [("title", VStr "Noon"); ("mood", VStr "calm");
                        ("year", VInt 1999)]%string = true)
    by (vm_compute; reflexivity).
  destruct (C9_update_applies_named_fields [Scan [rec_a; rec_b; rec_c]] 2 1%nat
              [("title", VStr "Noon"); ("mood", VStr "calm");
               ("year", VInt 1999)]%string G W) as (_ & A & _ & _ & _ & K).
  split; [exact G|]. split; [exact W|]. split.
  - exact (A "title"%string (or_introl eq_refl)).
  - exact K.
Defined.

(** ** Positions in a playlist *)

Lemma find_from_some (h : heap) (id : Z) (xs : list loc) : forall i j,
  Playlist.find_from h id xs i = Some j <->
  exists pre x post,
    xs = pre ++ x :: post
    /\ forallb (fun y => negb (has_id h id y)) pre = true
    /\ has_id h id x = true
    /\ j = (i + List.length pre)%nat.
Proof.
  induction xs as [|a xs IH]; simpl; intros i j.
  - split; [discriminate|]. intros (pre & x & post & E & _).
    destruct pre; discriminate.
  - destruct (has_id h id a) eqn:Ha.
    + split.
      * intros E. inversion E; subst. exists [], a, xs.
        simpl. repeat split; auto; lia.
      * intros ([|p pre] & x & post & E & F & Hx & ->); simpl in *.
        -- f_equal. lia.
        -- inversion E; subst. rewrite Ha in F. discriminate.
    + rewrite IH. split.
      * intros (pre & x & post & E & F & Hx & ->).
        exists (a :: pre), x, post. simpl. rewrite Ha, F, E.
        repeat split; auto; lia.
      * intros ([|p pre] & x & post & E & F & Hx & ->); simpl in *.
        -- inversion E; subst. congruence.
        -- inversion E; subst. rewrite Ha in F. simpl in F.
           exists pre, x, post. repeat split; auto; lia.
Qed.

Lemma truthy_name_some (pname : option string) (n : string) :
  truthy_name pname = Some n <-> pname = Some n /\ n <> EmptyString.
Proof.
  unfold truthy_name, PyStr.truthy. destruct pname as [[|c s]|]; split;
    try discriminate; try (intros [E N]; inversion E; subst; congruence).
  intros E. inversion E; subst. split; auto. discriminate.
Qed.

Lemma truthy_id_some (cur : option Z) (c : Z) :
  truthy_id cur = Some c <-> cur = Some c /\ c <> 0.
Proof.
  unfold truthy_id. destruct cur as [z|]; [|split; [discriminate|]].
  - destruct (Z.eqb_spec z 0); split; try discriminate.
    + intros [E N]. inversion E; subst. contradiction.
    + intros E. inversion E; subst. auto.
    + intros [E N]. auto.
  - intros [E _]. discriminate.
Qed.

Lemma playlist_node_some cur pname m pl i :
  playlist_node cur pname m = Some (pl, i) <->
  exists id, in_playlist cur pname m id pl
             /\ Playlist.find_node (objs m) id pl = Some i.
Proof.
  unfold playlist_node, in_playlist. split.
  - destruct (truthy_name pname) as [n|] eqn:Tn; try discriminate.
    destruct (truthy_id cur) as [c|] eqn:Tc; try discriminate.
    apply truthy_name_some in Tn. apply truthy_id_some in Tc.
    destruct (Dict.get String.eqb n (playlists m)) as [p|] eqn:G;
      try discriminate.
    destruct (Playlist.truthy p); try discriminate.
    destruct (Playlist.find_node (objs m) c p) as [k|] eqn:F;
      try discriminate.
    intros E. inversion E; subst. exists c. split; auto.
    exists n. tauto.
  - intros (id & (n & Hn & Nn & Hc & Nc & G) & F).
    rewrite (proj2 (truthy_name_some pname n)) by auto.
    rewrite (proj2 (truthy_id_some cur id)) by auto.
    rewrite G.
    assert (T : Playlist.truthy pl = true).
    { unfold Playlist.find_node in F. apply find_from_some in F.
      destruct F as (pre & x & post & E & _).
      unfold Playlist.truthy, Playlist.len. rewrite E, length_app. simpl.
      apply negb_true_iff, Nat.eqb_neq. lia. }
    now rewrite T, F.
Qed.

Lemma has_predecessor_iff cur pname m prv :
  has_predecessor cur pname m prv <-> playlist_prev cur pname m = Some prv.
Proof.
  unfold has_predecessor, playlist_prev, predecessor_in. split.
  - intros (id & pl & Hin & pre & x & post & E & F & Hx).
    assert (N : playlist_node cur pname m
                = Some (pl, S (List.length pre))).
    { apply playlist_node_some. exists id. split; auto.
      unfold Playlist.find_node. apply find_from_some.
      exists (pre ++ [prv]), x, post. rewrite <- app_assoc. simpl.
      repeat split; auto. rewrite length_app. simpl. lia. }
    rewrite N. unfold Playlist.node_prev. rewrite E.
    now rewrite nth_error_app2, Nat.sub_diag by lia.
  - destruct (playlist_node cur pname m) as [[pl i]|] eqn:N; try discriminate.
    apply playlist_node_some in N. destruct N as (id & Hin & F).
    unfold Playlist.node_prev. destruct i as [|j]; try discriminate.
    intros P. exists id, pl. split; auto.
    unfold Playlist.find_node in F. apply find_from_some in F.
    destruct F as (pre' & x & post & E & Fa & Hx & L). simpl in L.
    destruct (exists_last (l := pre')) as (pre & y & ->).
    { intros ->. discriminate. }
    rewrite length_app in L. simpl in L.
    assert (j = List.length pre) by lia. subst j.
    rewrite E, <- app_assoc in P. simpl in P.
    rewrite nth_error_app2, Nat.sub_diag in P by lia. simpl in P.
    inversion P; subst y.
    exists pre, x, post. rewrite E, <- app_assoc. simpl. auto.
Qed.

Lemma has_successor_iff cur pname m nxt :
  has_successor cur pname m nxt <-> playlist_next cur pname m = Some nxt.
Proof.
  unfold has_successor, playlist_next, successor_in. split.
  - intros (id & pl & Hin & pre & x & post & E & F & Hx).
    assert (N : playlist_node cur pname m = Some (pl, List.length pre)).
    { apply playlist_node_some. exists id. split; auto.
      unfold Playlist.find_node. apply find_from_some.
      exists pre, x, (nxt :: post). repeat split; auto. }
    rewrite N. unfold Playlist.node_next. rewrite E.
    rewrite nth_error_app2 by lia.
    replace (S (List.length pre) - List.length pre)%nat with 1%nat by lia.
    reflexivity.
  - destruct (playlist_node cur pname m) as [[pl i]|] eqn:N; try discriminate.
    apply playlist_node_some in N. destruct N as (id & Hin & F).
    unfold Playlist.node_next. intros P. exists id, pl. split; auto.
    unfold Playlist.find_node in F. apply find_from_some in F.
    destruct F as (pre & x & post & E & Fa & Hx & L). simpl in L. subst i.
    rewrite E in P. rewrite nth_error_app2 in P by lia.
    replace (S (List.length pre) - List.length pre)%nat with 1%nat in P by lia.
    destruct post as [|y post]; simpl in P; inversion P; subst.
    exists pre, x, post. auto.
Qed.

(** ** get_previous_song *)

Lemma peek_snoc {A} (s : list A) (x : A) : Stack.peek (s ++ [x]) = Some x.
Proof.
  unfold Stack.peek. destruct (s ++ [x]) eqn:E.
  - destruct s; discriminate.
  - rewrite <- E, length_app. simpl.
    replace (Nat.pred (List.length s + 1)) with (List.length s) by lia.
    now rewrite nth_error_app2, Nat.sub_diag by lia.
Qed.

Lemma set_history_same (m : Library) : set_history (history m) m = m.
Proof. now destruct m. Qed.

Lemma previous_song_history (m : Library) :
  (if Stack.is_empty (history m) then (None, m)
   else let '(_, hist) := Stack.pop (history m) in
        (Stack.peek hist, set_history hist m))
  = (Stack.peek (removelast (history m)),
     set_history (removelast (history m)) m).
Proof.
  pose proof (set_history_same m) as S.
  destruct (history m) as [|a hs] eqn:E.
  - simpl. now rewrite S.
  - reflexivity.
Qed.

(** C6. [get_previous_song]: when the named playlist exists and the
    current id has a predecessor node in it (the node before the first
    node holding that id), that predecessor is returned and nothing,
    history included, changes.  Otherwise the top entry of the history is
    popped and the new top, the previous play, is returned: history is
    one entry shorter (an empty history stays empty), and with fewer than
    two entries there is no result.  (A playlist is named by a non-empty
    name and the current id is given by a value other than [None] and 0:
    the guard of the source.) *)
Theorem C6_previous_song (m : Library) (cur : option Z)
                         (pname : option string) :
  (forall prv, has_predecessor cur pname m prv ->
               get_previous_song cur pname m = (Some prv, m))
  /\ ((forall prv, ~ has_predecessor cur pname m prv) ->
      snd (get_previous_song cur pname m)
      = set_history (removelast (history m)) m
      /\ fst (get_previous_song cur pname m)
         = Stack.peek (removelast (history m))
      /\ (forall hs p c, history m = hs ++ [p; c] ->
            fst (get_previous_song cur pname m) = Some p
            /\ history (snd (get_previous_song cur pname m)) = hs ++ [p])
      /\ ((List.length (history m) < 2)%nat ->
          fst (get_previous_song cur pname m) = None)
      /\ (history m <> [] ->
          S (List.length (history (snd (get_previous_song cur pname m))))
          = List.length (history m))).
Proof.
  split.
  - intros prv H. apply has_predecessor_iff in H.
    unfold get_previous_song. now rewrite H.
  - intros H.
    assert (N : playlist_prev cur pname m = None).
    { destruct (playlist_prev cur pname m) as [prv|] eqn:E; auto.
      apply has_predecessor_iff in E. now apply H in E. }
    unfold get_previous_song. rewrite N, previous_song_history. simpl.
    repeat split.
    + replace (hs ++ [p; c]) with ((hs ++ [p]) ++ [c]) in H0
        by (rewrite <- app_assoc; reflexivity).
      rewrite H0, removelast_last. apply peek_snoc.
    + replace (hs ++ [p; c]) with ((hs ++ [p]) ++ [c]) in H0
        by (rewrite <- app_assoc; reflexivity).
      now rewrite H0, removelast_last.
    + intros L. destruct (history m) as [|a [|b hs]]; simpl in *;
        try reflexivity. lia.
    + intros NE. destruct (exists_last NE) as (hs & a & ->).
      rewrite removelast_last, length_app. simpl. lia.
Qed.

Lemma C6_witness :
  has_predecessor (Some 2) (Some "Drive"%string) lib_drive 0%nat
  /\ get_previous_song (Some 2) (Some "Drive"%string) lib_drive
     = (Some 0%nat, lib_drive)
  /\ (forall prv, ~ has_predecessor (Some 1) None lib_drive prv)
  /\ fst (get_previous_song (Some 1) None lib_drive) = Some 0%nat
  /\ history (snd (get_previous_song (Some 1) None lib_drive)) = [0%nat].
Proof.
  assert (P : has_predecessor (Some 2) (Some "Drive"%string) lib_drive 0%nat).
  { exists 2, (Playlist.mk "Drive" [0; 1; 2]%nat). split.
    - exists "Drive"%string.
      split; [reflexivity|]. split; [discriminate|]. split; [reflexivity|].
      split; [discriminate|]. vm_compute. reflexivity.
    - exists [], 1%nat, [2%nat].
      split; [reflexivity|]. split; vm_compute; reflexivity. }
  assert (Q : forall prv, ~ has_predecessor (Some 1) None lib_drive prv).
  { intros prv (id & pl & (n & E & _) & _). discriminate. }
  destruct (C6_previous_song lib_drive (Some 2) (Some "Drive"%string))
    as [A _].
  destruct (C6_previous_song lib_drive (Some 1) None) as [_ B].
  destruct (B Q) as (_ & _ & B3 & _).
  destruct (B3 [] 0%nat 1%nat eq_refl) as [B4 B5].
  repeat split; auto.
Defined.

(** ** The random module *)

Lemma list_set_length {A} (xs : list A) (i : nat) (a : A) :
  List.length (Random.list_set xs i a) = List.length xs.
Proof.
  revert i; induction xs as [|x xs IH]; intros [|i]; simpl; auto.
Qed.

Lemma nth_error_list_set {A} (xs : list A) (i k : nat) (a : A) :
  nth_error (Random.list_set xs i a) k
  = if ((k =? i) && (i <? List.length xs))%nat then Some a
    else nth_error xs k.
Proof.
  revert i k; induction xs as [|x xs IH]; intros [|i] [|k]; simpl; auto;
    rewrite ?andb_false_r; auto.
Qed.

Lemma In_nth_error_iff {A} (xs : list A) (x : A) :
  In x xs <-> exists k, nth_error xs k = Some x.
Proof.
  split.
  - apply In_nth_error.
  - intros [k H]. eapply nth_error_In; eauto.
Qed.

Lemma swap_In {A} (xs : list A) (i j : nat) (x : A) :
  In x (Random.swap xs i j) <-> In x xs.
Proof.
  unfold Random.swap.
  destruct (nth_error xs i) as [a|] eqn:Ei; [|tauto].
  destruct (nth_error xs j) as [b|] eqn:Ej; [|tauto].
  assert (Li : (i < List.length xs)%nat)
    by (apply nth_error_Some; congruence).
  assert (Lj : (j < List.length xs)%nat)
    by (apply nth_error_Some; congruence).
  apply Nat.ltb_lt in Li, Lj.
  rewrite !In_nth_error_iff. split; intros [k H].
  - rewrite !nth_error_list_set, list_set_length, Li, Lj, !andb_true_r in H.
    destruct (k =? j)%nat; [exists i; congruence|].
    destruct (k =? i)%nat; [exists j; congruence|].
    eauto.
  - destruct (Nat.eqb_spec k i) as [->|Ni].
    + exists j. rewrite !nth_error_list_set, list_set_length, Li, Lj,
        !andb_true_r, Nat.eqb_refl. congruence.
    + destruct (Nat.eqb_spec k j) as [->|Nj].
      * exists i. rewrite !nth_error_list_set, list_set_length, Li, Lj,
          !andb_true_r, Nat.eqb_refl.
        destruct (Nat.eqb_spec i j); congruence.
      * exists k. rewrite !nth_error_list_set, list_set_length, Li, Lj,
          !andb_true_r.
        destruct (Nat.eqb_spec k j); [contradiction|].
        destruct (Nat.eqb_spec k i); [contradiction|]. auto.
Qed.

Lemma shuffle_down_In {A} (i : nat) : forall (xs : list A) rnd x,
  In x (fst (Random.shuffle_down i xs rnd)) <-> In x xs.
Proof.
  induction i as [|i IH]; intros xs rnd x; simpl; [tauto|].
  destruct (Random.randbelow (S (S i)) rnd) as [j rnd'].
  rewrite IH. apply swap_In.
Qed.

Lemma shuffle_In {A} (xs : list A) rnd x :
  In x (fst (Random.shuffle xs rnd)) <-> In x xs.
Proof. apply shuffle_down_In. Qed.

Lemma randbelow_lt (n : nat) rnd :
  (0 < n)%nat -> (fst (Random.randbelow n rnd) < n)%nat.
Proof.
  intros H. destruct rnd as [|r rnd]; simpl; auto.
  apply Nat.mod_upper_bound. lia.
Qed.

Lemma choice_or_none_some (songs : list loc) rnd :
  songs <> [] ->
  exists l, choice_or_none songs rnd = Some l /\ In l songs.
Proof.
  intros N. unfold choice_or_none, Random.choice.
  destruct songs as [|a songs]; [contradiction|].
  destruct (nth_error (a :: songs)
              (fst (Random.randbelow (List.length (a :: songs)) rnd)))
    as [l|] eqn:E.
  - exists l. split; auto. eapply nth_error_In; eauto.
  - apply nth_error_None in E.
    pose proof (randbelow_lt (List.length (a :: songs)) rnd) as L.
    simpl in *. lia.
Qed.

Lemma choice_or_none_none (songs : list loc) rnd :
  choice_or_none songs rnd = None <-> songs = [].
Proof.
  split.
  - intros H. destruct songs as [|a songs]; auto.
    destruct (choice_or_none_some (a :: songs) rnd) as (l & E & _);
      congruence.
  - now intros ->.
Qed.

Lemma choice_or_none_any (songs : list loc) (l : loc) :
  In l songs -> exists rnd, choice_or_none songs rnd = Some l.
Proof.
  intros H. destruct (In_nth_error _ _ H) as [k E].
  assert (L : (k < List.length songs)%nat)
    by (apply nth_error_Some; congruence).
  exists [k]. unfold choice_or_none, Random.choice, Random.randbelow.
  destruct songs as [|a songs]; [destruct H|].
  cbn [fst]. now rewrite Nat.mod_small.
Qed.

(** ** get_next_song *)

Lemma first_indexed_some idx (ns : list Z) (s : loc) :
  first_indexed idx ns = Some s ->
  exists nid, In nid ns /\ Dict.get Z.eqb nid idx = Some s.
Proof.
  induction ns as [|n ns IH]; simpl; [discriminate|].
  destruct (Dict.get Z.eqb n idx) as [x|] eqn:G.
  - intros E. inversion E; subst. eauto.
  - intros E. destruct (IH E) as (nid & Hin & Hg). eauto.
Qed.

Lemma first_indexed_none idx (ns : list Z) :
  first_indexed idx ns = None <->
  forall nid, In nid ns -> Dict.get Z.eqb nid idx = None.
Proof.
  induction ns as [|n ns IH]; simpl.
  - split; auto. intros _ nid [].
  - destruct (Dict.get Z.eqb n idx) as [x|] eqn:G.
    + split; [discriminate|]. intros H.
      rewrite (H n (or_introl eq_refl)) in G. discriminate.
    + rewrite IH. split.
      * intros H nid [<-|Hin]; auto.
      * intros H nid Hin. apply H. now right.
Qed.

Lemma set_up_next_same (m : Library) : set_up_next (up_next m) m = m.
Proof. now destruct m. Qed.

Lemma skipn_cons_inv {A} (l : list A) (n : nat) x r :
  skipn n l = x :: r -> nth_error l n = Some x /\ skipn (S n) l = r.
Proof.
  revert n; induction l as [|a l IH]; intros [|n] H; simpl in *;
    try discriminate.
  - inversion H; subst. split; auto.
  - now apply IH.
Qed.

Lemma dequeue_song_front (m : Library) (q : loc) (rest : list loc) :
  get_queue_list m = q :: rest ->
  fst (dequeue_song m) = Some q
  /\ get_queue_list (snd (dequeue_song m)) = rest.
Proof.
  unfold get_queue_list, dequeue_song, Queue.dequeue, Queue.to_list.
  intros H. pose proof (skipn_cons_inv _ _ _ _ H) as [N S].
  assert (L : (Queue._head_idx (up_next m)
               < List.length (Queue._data (up_next m)))%nat)
    by (apply nth_error_Some; congruence).
  destruct (Nat.leb_spec (List.length (Queue._data (up_next m)))
                         (Queue._head_idx (up_next m))); [lia|].
  rewrite N.
  match goal with |- context [if ?c then _ else _] => destruct c end;
    simpl; auto.
Qed.

Lemma dequeue_song_empty (m : Library) :
  get_queue_list m = [] -> dequeue_song m = (None, m).
Proof.
  unfold get_queue_list, dequeue_song, Queue.dequeue, Queue.to_list.
  intros H. apply skipn_nil_iff in H. apply Nat.leb_le in H.
  rewrite H. now rewrite set_up_next_same.
Qed.

Lemma similar_result (c : Z) rnd (m : Library) :
  exists ns rnd' m',
    (forall x, In x ns <-> In x (get_similar_songs c m))
    /\ same_catalog m m'
    /\ get_next_similar_song c rnd m
       = (match first_indexed (_song_index m) ns with
          | Some s => Some s
          | None => choice_or_none (get_all_songs m) rnd'
          end, m', rnd').
Proof.
  unfold get_next_similar_song.
  pose proof (fun x => shuffle_In (get_similar_songs c m) rnd x) as P.
  destruct (Random.shuffle (get_similar_songs c m) rnd) as [ns rnd'].
  simpl in P. exists ns, rnd'.
  destruct (Dict.mem Z.eqb c (graph m)).
  - exists (set_graph (Dict.set Z.eqb c ns (graph m)) m).
    split; [exact P|]. split; [repeat split|].
    change (_song_index (set_graph (Dict.set Z.eqb c ns (graph m)) m))
      with (_song_index m).
    change (get_all_songs (set_graph (Dict.set Z.eqb c ns (graph m)) m))
      with (get_all_songs m).
    destruct (first_indexed (_song_index m) ns); reflexivity.
  - exists m. split; [exact P|]. split; [repeat split|].
    destruct (first_indexed (_song_index m) ns); reflexivity.
Qed.

Lemma live_neighbors_In (c : Z) (m : Library) (nid : Z) :
  In nid (live_neighbors c m) <->
  In nid (get_similar_songs c m) /\ get_song_by_id nid m <> None.
Proof.
  unfold live_neighbors, get_song_by_id, Dict.mem. rewrite filter_In.
  destruct (Dict.get Z.eqb nid (_song_index m)); split; intros [H1 H2];
    split; auto; congruence.
Qed.

(** The suggestion of [get_next_similar_song]: a neighbour of [c] that the
    id map resolves when there is one, else a track of the master
    sequence. *)
Lemma similar_suggestion (c : Z) rnd (m : Library) :
  let r := fst (fst (get_next_similar_song c rnd m)) in
  (live_neighbors c m <> [] ->
   exists nid, In nid (live_neighbors c m)
               /\ r = get_song_by_id nid m /\ r <> None)
  /\ (live_neighbors c m = [] ->
      exists rnd', r = choice_or_none (get_all_songs m) rnd').
Proof.
  destruct (similar_result c rnd m) as (ns & rnd' & m' & P & _ & E).
  rewrite E. simpl.
  destruct (first_indexed (_song_index m) ns) as [s|] eqn:F.
  - apply first_indexed_some in F. destruct F as (nid & Hin & G).
    assert (L : In nid (live_neighbors c m)).
    { apply live_neighbors_In. split; [now apply P|].
      unfold get_song_by_id. congruence. }
    split.
    + intros _. exists nid. unfold get_song_by_id. rewrite G.
      repeat split; auto. discriminate.
    + intros N. rewrite N in L. destruct L.
  - split; [|eauto]. intros N.
    destruct (live_neighbors c m) as [|nid l] eqn:E'; [contradiction|].
    assert (L : In nid (live_neighbors c m)) by (rewrite E'; now left).
    apply live_neighbors_In in L. destruct L as [L1 L2].
    rewrite first_indexed_none in F. apply P in L1.
    apply F in L1. unfold get_song_by_id in L2. contradiction.
Qed.

Lemma next_song_tail cur pname rnd (m : Library) :
  playlist_next cur pname m = None -> get_queue_list m = [] ->
  get_next_song cur pname rnd m
  = match truthy_id cur with
    | Some c =>
        match get_next_similar_song c rnd m with
        | (Some sim, m', _) => (Some sim, m')
        | (None, m', rnd') => (choice_or_none (get_all_songs m') rnd', m')
        end
    | None => (choice_or_none (get_all_songs m) rnd, m)
    end.
Proof.
  intros N Q. unfold get_next_song. now rewrite N, (dequeue_song_empty m Q).
Qed.

Lemma next_song_known cur pname rnd (m : Library) (c : Z) :
  playlist_next cur pname m = None -> get_queue_list m = [] ->
  truthy_id cur = Some c ->
  fst (get_next_song cur pname rnd m)
  = match fst (fst (get_next_similar_song c rnd m)) with
    | Some sim => Some sim
    | None => None
    end
  /\ (fst (fst (get_next_similar_song c rnd m)) = None ->
      get_all_songs m = []).
Proof.
  intros N Q T. rewrite (next_song_tail _ _ _ _ N Q), T.
  destruct (similar_result c rnd m) as (ns & rnd' & m' & _ & C & E).
  rewrite E. simpl.
  destruct (first_indexed (_song_index m) ns) as [s|]; simpl.
  - split; auto. discriminate.
  - destruct (choice_or_none (get_all_songs m) rnd') as [l|] eqn:Ch; simpl.
    + split; auto. discriminate.
    + apply choice_or_none_none in Ch.
      destruct C as (C1 & _). unfold get_all_songs, SinglyLinkedList.traverse
        in *. rewrite C1, Ch. auto.
Qed.

Lemma truthy_id_none (cur : option Z) :
  truthy_id cur = None <-> cur = None \/ cur = Some 0.
Proof.
  unfold truthy_id. destruct cur as [z|]; [|tauto].
  destruct (Z.eqb_spec z 0); split; intros H; try discriminate; subst; auto.
  destruct H as [H|H]; inversion H. contradiction.
Qed.

(** C5 (as amended). [get_next_song] resolves in this order: (1) the
    successor of the current id in the named playlist, when there is one;
    (2) else the front of the Up-Next queue, which is dequeued, when the
    queue is not empty; (3) else, when a current id is given, the
    similarity suggestion: a neighbour of the current id that the id map
    still resolves, or a track of the catalog drawn at random when no
    neighbour qualifies; (4) else a track of the catalog drawn at random
    (any track can be drawn).  It returns no result only if the catalog
    is empty; with an empty catalog (master sequence and id map) it
    returns no result when, besides, the queue is empty and no playlist
    successor exists. *)
Theorem C5_next_song_resolution (m : Library) (cur : option Z)
    (pname : option string) (rnd : list nat) :
  let r := fst (get_next_song cur pname rnd m) in
  let m' := snd (get_next_song cur pname rnd m) in
  (forall nxt, has_successor cur pname m nxt -> r = Some nxt /\ m' = m)
  /\ ((forall nxt, ~ has_successor cur pname m nxt) ->
      (forall q rest, get_queue_list m = q :: rest ->
                      r = Some q /\ get_queue_list m' = rest)
      /\ (get_queue_list m = [] ->
          (forall c, cur = Some c -> c <> 0 ->
             (live_neighbors c m <> [] ->
              exists nid, In nid (live_neighbors c m)
                          /\ r = get_song_by_id nid m /\ r <> None)
             /\ (live_neighbors c m = [] -> get_all_songs m <> [] ->
                 exists l, r = Some l /\ In l (get_all_songs m)))
          /\ (cur = None \/ cur = Some 0 ->
              r = choice_or_none (get_all_songs m) rnd
              /\ (get_all_songs m <> [] ->
                  exists l, r = Some l /\ In l (get_all_songs m))
              /\ (forall l, In l (get_all_songs m) ->
                    exists rnd',
                      fst (get_next_song cur pname rnd' m) = Some l))
          /\ (get_all_songs m = [] -> _song_index m = [] -> r = None)))
  /\ (r = None ->
      get_all_songs m = [] /\ get_queue_list m = []
      /\ forall nxt, ~ has_successor cur pname m nxt).
Proof.
  intros r m'.
  assert (A : forall nxt, has_successor cur pname m nxt ->
                          r = Some nxt /\ m' = m).
  { intros nxt H. apply has_successor_iff in H.
    unfold r, m', get_next_song. now rewrite H. }
  assert (Nx : (forall nxt, ~ has_successor cur pname m nxt) ->
               playlist_next cur pname m = None).
  { intros H. destruct (playlist_next cur pname m) as [nxt|] eqn:E; auto.
    apply has_successor_iff in E. now apply H in E. }
  assert (B : (forall nxt, ~ has_successor cur pname m nxt) ->
              forall q rest, get_queue_list m = q :: rest ->
                             r = Some q /\ get_queue_list m' = rest).
  { intros H q rest Q. apply Nx in H.
    destruct (dequeue_song_front m q rest Q) as [D1 D2].
    unfold r, m', get_next_song. rewrite H.
    destruct (dequeue_song m) as [[x|] m1]; simpl in *; try discriminate.
    inversion D1; subst. auto. }
  assert (K : forall c, playlist_next cur pname m = None ->
                get_queue_list m = [] -> truthy_id cur = Some c ->
                r = fst (fst (get_next_similar_song c rnd m))).
  { intros c N Q T.
    destruct (next_song_known cur pname rnd m c N Q T) as [E _].
    unfold r. rewrite E.
    now destruct (fst (fst (get_next_similar_song c rnd m))). }
  split; [exact A|]. split.
  - intros H. split; [now apply B|]. intros Q.
    pose proof (Nx H) as N. split; [|split].
    + intros c Hc Nc.
      assert (T : truthy_id cur = Some c) by (now apply truthy_id_some).
      rewrite (K c N Q T).
      destruct (similar_suggestion c rnd m) as [S1 S2]. split; auto.
      intros L NE. destruct (S2 L) as [rnd' E]. rewrite E.
      now apply choice_or_none_some.
    + intros Hc. apply truthy_id_none in Hc.
      assert (E : forall rnd0, fst (get_next_song cur pname rnd0 m)
                               = choice_or_none (get_all_songs m) rnd0).
      { intros rnd0. now rewrite (next_song_tail _ _ _ _ N Q), Hc. }
      unfold r. rewrite E. repeat split.
      * now apply choice_or_none_some.
      * intros l Hl. destruct (choice_or_none_any _ _ Hl) as [rnd' C].
        exists rnd'. now rewrite E.
    + intros Es Ei. unfold r. rewrite (next_song_tail _ _ _ _ N Q).
      destruct (truthy_id cur) as [c|] eqn:T.
      * destruct (similar_result c rnd m) as (ns & rnd' & m1 & _ & C & E).
        rewrite E, Ei, Es.
        assert (F : first_indexed [] ns = None)
          by (apply first_indexed_none; reflexivity).
        rewrite F. simpl. destruct C as (C1 & _).
        unfold get_all_songs, SinglyLinkedList.traverse in *.
        now rewrite C1, Es.
      * now rewrite Es.
  - intros R.
    assert (H : forall nxt, ~ has_successor cur pname m nxt).
    { intros nxt Hn. destruct (A nxt Hn) as [E _]. congruence. }
    assert (Q : get_queue_list m = []).
    { destruct (get_queue_list m) as [|q rest] eqn:Q; auto.
      destruct (B H q rest eq_refl) as [E _]. congruence. }
    repeat split; auto.
    pose proof (Nx H) as N.
    destruct (truthy_id cur) as [c|] eqn:T.
    + destruct (next_song_known cur pname rnd m c N Q T) as [_ E].
      apply E. rewrite <- (K c N Q eq_refl). exact R.
    + unfold r in R. rewrite (next_song_tail _ _ _ _ N Q), T in R.
      simpl in R. now apply choice_or_none_none in R.
Qed.

Lemma C5_witness :
  has_successor (Some 2) (Some "Drive"%string) lib_drive 2%nat
  /\ fst (get_next_song (Some 2) (Some "Drive"%string) [] lib_drive)
     = Some 2%nat
  /\ get_queue_list (run [Enqueue 3] lib3) = [2%nat]
  /\ fst (get_next_song (Some 1) None [] (run [Enqueue 3] lib3)) = Some 2%nat
  /\ get_queue_list lib3 = []
  /\ fst (get_next_song None None [4%nat] lib3)
     = choice_or_none (get_all_songs lib3) [4%nat].
Proof.
  assert (P : has_successor (Some 2) (Some "Drive"%string) lib_drive 2%nat).
  { exists 2, (Playlist.mk "Drive" [0; 1; 2]%nat). split.
    - exists "Drive"%string.
      split; [reflexivity|]. split; [discriminate|]. split; [reflexivity|].
      split; [discriminate|]. vm_compute. reflexivity.
    - exists [0%nat], 1%nat, [].
      split; [reflexivity|]. split; vm_compute; reflexivity. }
  assert (Q : forall (m : Library) c nxt, ~ has_successor c None m nxt).
  { intros m c nxt (id & pl & (n & E & _) & _). discriminate. }
  assert (Q1 : get_queue_list (run [Enqueue 3] lib3) = [2%nat])
    by (vm_compute; reflexivity).
  assert (Q2 : get_queue_list lib3 = []) by (vm_compute; reflexivity).
  destruct (C5_next_song_resolution lib_drive (Some 2) (Some "Drive"%string) [])
    as [A _].
  destruct (C5_next_song_resolution (run [Enqueue 3] lib3) (Some 1) None [])
    as (_ & B & _).
  destruct (C5_next_song_resolution lib3 None None [4%nat]) as (_ & C & _).
  destruct (B (Q _ _)) as [B1 _].
  destruct (C (Q _ _)) as [_ C1].
  destruct (C1 Q2) as (_ & C2 & _).
  destruct (C2 (or_introl eq_refl)) as [C3 _].
  split; [exact P|]. split; [exact (proj1 (A _ P))|].
  split; [exact Q1|]. split; [exact (proj1 (B1 2%nat [] Q1))|].
  split; [exact Q2|exact C3].
Defined.

(** C5 as stated fails in its last clause: a track is queued, a rescan
    finds the directory empty, and [get_next_song(None, None)] still
    returns the queued track although the catalog is empty. *)
Lemma C5_counterexample :
  get_all_songs lib_stale_queue = []
  /\ _song_index lib_stale_queue = []
  /\ fst (get_next_song None None [] lib_stale_queue) = Some 0%nat
  /\ ~ (fst (get_next_song None None [] lib_stale_queue) = None
        <-> get_all_songs lib_stale_queue = []).
Proof.
  assert (S : get_all_songs lib_stale_queue = []) by (vm_compute; reflexivity).
  assert (X : _song_index lib_stale_queue = []) by (vm_compute; reflexivity).
  assert (R : fst (get_next_song None None [] lib_stale_queue) = Some 0%nat)
    by (vm_compute; reflexivity).
  repeat split; auto. rewrite R. intros [_ H]. specialize (H S).
  discriminate H.
Qed.

(** ** Delete cascade and graph rebuild at concrete inputs *)

(** What the cascade of [delete_song] does in general: queue and history
    lose every entry with the id, each playlist loses the first one only. *)
Lemma delete_song_cascade (id : Z) (m : Library) :
  fst (delete_song id m) = true ->
  Forall (fun s => has_id (objs m) id s = false)
         (get_queue_list (snd (delete_song id m)))
  /\ Forall (fun s => has_id (objs m) id s = false)
            (history (snd (delete_song id m)))
  /\ playlists (snd (delete_song id m))
     = map (fun kv => (fst kv, snd (Playlist.remove (objs m) id (snd kv))))
           (playlists m).
Proof.
  intros T. destruct (Dict.mem Z.eqb id (_song_index m)) eqn:M.
  - destruct (delete_song_fields id m M) as (_ & _ & _ & _ & _ & P & H & Q).
    rewrite P, H, Q. repeat split; apply Forall_forall; intros x Hx;
      apply filter_In in Hx; destruct Hx as [_ Hx];
      now apply negb_true_iff in Hx.
  - rewrite (delete_song_unknown id m M) in T. discriminate.
Qed.

(** C1 (the code departs from it). Track 1 is queued twice, played twice
    and held twice by playlist "Drive".  [delete_song(1)] returns [True],
    empties the queue and the history of it and removes it from the id
    map, but [Playlist.remove] unlinks one node only: the playlist still
    holds track 1. *)
Theorem C1_duplicate_survives_delete :
  get_song_by_id 1 lib_twice = Some 0%nat
  /\ get_playlist_songs "Drive" lib_twice = [0%nat; 0%nat]
  /\ get_queue_list lib_twice = [0%nat; 0%nat]
  /\ history lib_twice = [0%nat; 0%nat]
  /\ fst (delete_song 1 lib_twice) = true
  /\ get_queue_list (snd (delete_song 1 lib_twice)) = []
  /\ history (snd (delete_song 1 lib_twice)) = []
  /\ get_song_by_id 1 (snd (delete_song 1 lib_twice)) = None
  /\ get_playlist_songs "Drive" (snd (delete_song 1 lib_twice)) = [0%nat]
  /\ song_id (deref (objs (snd (delete_song 1 lib_twice))) 0%nat) = 1.
Proof. repeat split; vm_compute; reflexivity. Qed.

(** C2 (the code departs from it). Two tracks share the genre "Unknown"
    and are linked by the scan.  After [update_song(1, genre="Rock")]
    their score is 0, yet each is still the other's neighbour:
    [update_song] calls [_rebuild_graph] on the old graph, which only adds
    edges.  [delete_song] starts from a new graph: deleting a third track
    after the same update leaves no edge between tracks 1 and 2. *)
Theorem C2_stale_edge_after_update :
  get_song_by_id 1 lib_regenre = Some 0%nat
  /\ get_song_by_id 2 lib_regenre = Some 1%nat
  /\ score (deref (objs lib_regenre) 0%nat) (deref (objs lib_regenre) 1%nat)
     = 0
  /\ get_similar_songs 1 lib_regenre = [2]
  /\ get_similar_songs 2 lib_regenre = [1]
  /\ get_similar_songs 1
       (run [Scan [rec_a; rec_b; rec_c];
             Update 1 [("genre"%string, VStr "Rock")]; Delete 3]
            new_manager) = [].
Proof. repeat split; vm_compute; reflexivity. Qed.

(** ** Playlists under the manager's own calls

    [add_song_to_playlist] tests [not pl] on the playlist object, which is
    true for the empty playlist that [create_playlist] makes: the call
    returns [False] before its [append].  No sequence of manager calls
    therefore puts a song into a playlist. *)

Ltac split_ifs :=
  repeat match goal with
  | |- context [match ?x with _ => _ end] => destruct x eqn:?
  end.

Lemma scan_fold_playlists (rs : list RawTrackMetadata) : forall m,
  playlists (fold_left scan_one rs m) = playlists m.
Proof.
  induction rs as [|r rs IH]; simpl; intros m; auto.
  rewrite IH. apply scan_one_fields.
Qed.

Lemma scan_playlists (rs : list RawTrackMetadata) (m : Library) :
  playlists (scan_and_build rs m) = playlists m.
Proof.
  unfold scan_and_build.
  match goal with |- playlists (_rebuild_graph ?x) = _ =>
    change (playlists (_rebuild_graph x)) with (playlists x) end.
  now rewrite scan_fold_playlists.
Qed.

Lemma dict_get_In {V} (k : string) (d : Dict.t (K := string) (V := V)) v :
  Dict.get String.eqb k d = Some v -> exists k', In (k', v) d.
Proof.
  induction d as [|[k' v'] d IH]; simpl; [discriminate|].
  destruct (String.eqb k k').
  - intros E. inversion E; subst. eauto.
  - intros E. destruct (IH E) as [k0 H]. eauto.
Qed.

Lemma dict_set_Forall {V} (P : V -> Prop) (k : string) (v : V)
                      (d : Dict.t (K := string) (V := V)) :
  P v -> Forall (fun kv => P (snd kv)) d ->
  Forall (fun kv => P (snd kv)) (Dict.set String.eqb k v d).
Proof.
  intros Hv. induction 1 as [|[k' v'] d H F IH]; simpl.
  - constructor; auto.
  - destruct (String.eqb k k'); constructor; auto.
Qed.

Lemma dict_del_Forall {V} (P : string * V -> Prop) (k : string)
                      (d : Dict.t (K := string) (V := V)) :
  Forall P d -> Forall P (Dict.del String.eqb k d).
Proof.
  induction 1 as [|[k' v'] d H F IH]; simpl; auto.
  destruct (String.eqb k k'); auto.
Qed.

Lemma get_next_song_playlists cur pname rnd (m : Library) :
  playlists (snd (get_next_song cur pname rnd m)) = playlists m.
Proof.
  unfold get_next_song.
  destruct (playlist_next cur pname m); [reflexivity|].
  assert (D : playlists (snd (dequeue_song m)) = playlists m).
  { unfold dequeue_song. now destruct (Queue.dequeue (up_next m)). }
  destruct (dequeue_song m) as [[q|] m1]; simpl in D; auto.
  destruct (truthy_id cur) as [c|]; auto.
  assert (S : playlists (snd (fst (get_next_similar_song c rnd m1)))
              = playlists m1).
  { unfold get_next_similar_song.
    destruct (Random.shuffle (get_similar_songs c m1) rnd) as [ns rnd'].
    destruct (Dict.mem Z.eqb c (graph m1));
      match goal with |- context [first_indexed ?i ?n] =>
        destruct (first_indexed i n) end; reflexivity. }
  destruct (get_next_similar_song c rnd m1) as [[[sim|] m2] rnd2];
    simpl in *; congruence.
Qed.

Lemma apply_op_playlists_unfilled (o : op) (m : Library) :
  playlists_unfilled m -> playlists_unfilled (apply_op m o).
Proof.
  unfold playlists_unfilled. intros H. destruct o; cbn [apply_op].
  - now rewrite scan_playlists.
  - destruct (accepted fields); auto.
    unfold update_song. split_ifs; fields; auto.
  - destruct (Dict.mem Z.eqb id (_song_index m)) eqn:M;
      [|now rewrite (delete_song_unknown id m M)].
    destruct (delete_song_fields id m M) as (_ & _ & _ & _ & _ & P & _).
    rewrite P.
    unfold remove_from_all_playlists. rewrite Forall_map. simpl.
    eapply Forall_impl; [|exact H]. intros [k pl]. simpl.
    unfold Playlist.remove. now intros ->.
  - unfold create_playlist. split_ifs; fields; auto.
    now apply (dict_set_Forall (fun pl => Playlist.songs pl = [])).
  - cbn [delete_playlist snd]. fields. now apply dict_del_Forall.
  - unfold add_song_to_playlist.
    destruct (Dict.get String.eqb name (playlists m)) as [pl|] eqn:G; auto.
    destruct (Dict.get Z.eqb id (_song_index m)); auto.
    destruct (dict_get_In _ _ _ G) as [k Hin].
    pose proof (proj1 (Forall_forall _ _) H _ Hin) as E. simpl in E.
    unfold Playlist.truthy, Playlist.len. rewrite E. exact H.
  - unfold remove_song_from_playlist.
    destruct (Dict.get String.eqb name (playlists m)) as [pl|] eqn:G; auto.
    destruct (dict_get_In _ _ _ G) as [k Hin].
    pose proof (proj1 (Forall_forall _ _) H _ Hin) as E. simpl in E.
    unfold Playlist.truthy, Playlist.len. rewrite E. exact H.
  - unfold enqueue_song. split_ifs; fields; auto.
  - unfold dequeue_song. split_ifs; fields; auto.
  - unfold record_play. split_ifs; fields; auto.
  - now rewrite get_next_song_playlists.
  - unfold get_previous_song. split_ifs; fields; auto.
Qed.

Lemma reachable_playlists_unfilled (m : Library) :
  reachable m -> playlists_unfilled m.
Proof.
  intros [ops ->]. unfold run.
  assert (H : playlists_unfilled new_manager) by constructor.
  revert H. generalize new_manager.
  induction ops as [|o ops IH]; simpl; intros m H; auto.
  apply IH. now apply apply_op_playlists_unfilled.
Qed.

(* ------------------------------------------------------------------ *)
(** * Further properties of the library *)

(** ** Fields after each call *)

Lemma scan_and_build_eq (rs : list RawTrackMetadata) (m : Library) :
  scan_and_build rs m = _rebuild_graph (fold_left scan_one rs (scan_reset m)).
Proof. reflexivity. Qed.

Lemma scan_one_more_fields (m : Library) (r : RawTrackMetadata) :
  let s := mkSong (_next_song_id m) (r_title r) (r_artist r) (r_album r)
                  (r_genre r) (r_year r) (r_duration r) (r_path r) 0 false in
  let l := List.length (objs m) in
  graph (scan_one m r)
  = SongGraph.add_vertex (song_id (deref (objs m ++ [s]) l)) (graph m)
  /\ genre_mll (scan_one m r)
     = MultiLinkedListByGenre.add_song (objs m ++ [s]) l (genre_mll m)
  /\ history (scan_one m r) = history m
  /\ up_next (scan_one m r) = up_next m.
Proof. repeat split. Qed.

Lemma scan_fold_kept (rs : list RawTrackMetadata) : forall m,
  history (fold_left scan_one rs m) = history m
  /\ up_next (fold_left scan_one rs m) = up_next m
  /\ playlists (fold_left scan_one rs m) = playlists m.
Proof.
  induction rs as [|r rs IH]; simpl; intros m; auto.
  destruct (IH (scan_one m r)) as (H & U & P). rewrite H, U, P.
  destruct (scan_one_more_fields m r) as (_ & _ & H' & U').
  destruct (scan_one_fields m r) as (_ & _ & _ & _ & P'). auto.
Qed.

Lemma delete_song_more_fields (id : Z) (m : Library) :
  Dict.mem Z.eqb id (_song_index m) = true ->
  graph (snd (delete_song id m))
  = rebuild_rows (objs m) (Dict.values (Dict.del Z.eqb id (_song_index m)))
      (fold_left (fun g song =>
                    SongGraph.add_vertex (song_id (deref (objs m) song)) g)
                 (snd (unlink_first (has_id (objs m) id) (sll m)))
                 SongGraph.empty)
  /\ genre_mll (snd (delete_song id m))
     = MultiLinkedListByGenre.remove_song (objs m) id (genre_mll m)
  /\ _next_song_id (snd (delete_song id m)) = _next_song_id m
  /\ up_next (snd (delete_song id m))
     = Queue.mk (filter (fun s => negb (has_id (objs m) id s))
                        (Queue.to_list (up_next m))) 0.
Proof.
  intros H. unfold delete_song. rewrite H. repeat split.
Qed.

(** What [update_song] leaves in each field when the id is known. *)
Lemma update_song_fields (id : Z) fs (m : Library) (l : loc) :
  get_song_by_id id m = Some l ->
  let h' := heap_set (objs m) l (apply_fields fs (deref (objs m) l)) in
  let m' := snd (update_song id fs m) in
  objs m' = h'
  /\ sll m' = sll m /\ _song_index m' = _song_index m
  /\ history m' = history m /\ up_next m' = up_next m
  /\ playlists m' = playlists m /\ _next_song_id m' = _next_song_id m
  /\ graph m' = rebuild_rows h' (Dict.values (_song_index m)) (graph m)
  /\ genre_mll m'
     = (if String.eqb (genre (deref h' l)) (genre (deref (objs m) l))
        then genre_mll m else mll_of h' (sll m))
  /\ title_bst m'
     = (if String.eqb (title (deref h' l)) (title (deref (objs m) l))
        then title_bst m else bst_of h' (sll m)).
Proof.
  unfold get_song_by_id. intros G. cbv zeta.
  unfold update_song. rewrite G. fields.
  destruct (String.eqb
              (title (deref (heap_set (objs m) l
                               (apply_fields fs (deref (objs m) l))) l))
              (title (deref (objs m) l))); fields;
  destruct (String.eqb
              (genre (deref (heap_set (objs m) l
                               (apply_fields fs (deref (objs m) l))) l))
              (genre (deref (objs m) l))); fields;
  repeat split.
Qed.

Lemma record_play_fields (l : loc) (m : Library) :
  let s := deref (objs m) l in
  sll (record_play l m) = sll m
  /\ genre_mll (record_play l m) = genre_mll m
  /\ title_bst (record_play l m) = title_bst m
  /\ _song_index (record_play l m) = _song_index m
  /\ _next_song_id (record_play l m) = _next_song_id m
  /\ graph (record_play l m) = graph m
  /\ up_next (record_play l m) = up_next m
  /\ playlists (record_play l m) = playlists m
  /\ history (record_play l m) = history m ++ [l]
  /\ objs (record_play l m)
     = heap_set (objs m) l
         (mkSong (song_id s) (title s) (artist s) (album s) (genre s)
                 (year s) (duration_seconds s) (file_path s)
                 (play_count s + 1) (is_favorite s)).
Proof. repeat split. Qed.

Lemma same_core_refl (m : Library) : same_core m m.
Proof. repeat split. Qed.

Lemma get_next_song_core cur pname rnd (m : Library) :
  same_core m (snd (get_next_song cur pname rnd m)).
Proof.
  unfold get_next_song.
  destruct (playlist_next cur pname m); [apply same_core_refl|].
  assert (D : same_core m (snd (dequeue_song m))).
  { unfold dequeue_song. destruct (Queue.dequeue (up_next m)).
    repeat split. }
  destruct (dequeue_song m) as [[q|] m1]; simpl in D; auto.
  destruct (truthy_id cur) as [c|]; auto.
  assert (S : same_core m1 (snd (fst (get_next_similar_song c rnd m1)))).
  { unfold get_next_similar_song.
    destruct (Random.shuffle (get_similar_songs c m1) rnd) as [ns rnd'].
    destruct (Dict.mem Z.eqb c (graph m1));
      match goal with |- context [first_indexed ?i ?n] =>
        destruct (first_indexed i n) end; repeat split. }
  destruct (get_next_similar_song c rnd m1) as [[[sim|] m2] rnd2];
    simpl in *; unfold same_core in *; intuition congruence.
Qed.

(** The calls that touch only playback state or playlists. *)
Lemma apply_op_core (o : op) (m : Library) :
  match o with
  | Scan _ | Update _ _ | Delete _ | RecordPlay _ => True
  | _ => same_core m (apply_op m o)
  end.
Proof.
  destruct o; try exact I; unfold apply_op.
  - unfold create_playlist.
    destruct (Dict.mem String.eqb name (playlists m)); repeat split.
  - repeat split.
  - unfold add_song_to_playlist.
    destruct (Dict.get String.eqb name (playlists m)) as [pl|];
      destruct (Dict.get Z.eqb id (_song_index m));
      try destruct (Playlist.truthy pl); repeat split.
  - unfold remove_song_from_playlist.
    destruct (Dict.get String.eqb name (playlists m)) as [pl|];
      try destruct (Playlist.truthy pl);
      try destruct (Playlist.remove (objs m) id pl); repeat split.
  - unfold enqueue_song. destruct (Dict.get Z.eqb id (_song_index m));
      repeat split.
  - unfold dequeue_song. destruct (Queue.dequeue (up_next m)); repeat split.
  - apply get_next_song_core.
  - unfold get_previous_song.
    destruct (playlist_prev cur pname m); [apply same_core_refl|].
    destruct (Stack.is_empty (history m)); [apply same_core_refl|].
    destruct (Stack.pop (history m)); repeat split.
Qed.

(** ** Ids of the catalog *)

Lemma master_ids_scan_one (m : Library) (r : RawTrackMetadata) :
  refs_ok m ->
  master_ids (scan_one m r) = master_ids m ++ [_next_song_id m].
Proof.
  unfold refs_ok, master_ids, ids_of. intros R.
  destruct (scan_one_fields m r) as (S & O & _). rewrite S, O, map_app.
  simpl. rewrite deref_app_new. simpl. f_equal.
  apply map_ext_in. intros l Hl. rewrite Forall_forall in R.
  now rewrite deref_app_old by auto.
Qed.

Lemma scan_one_scan_ids_inv (m : Library) (r : RawTrackMetadata) :
  scan_ids_inv m -> scan_ids_inv (scan_one m r).
Proof.
  unfold scan_ids_inv, ids_inv. intros (S & (N & F) & P).
  pose proof (scan_one_scan_inv m r S) as S'.
  assert (R : refs_ok m) by (destruct S as [[_ R] _]; exact R).
  rewrite (master_ids_scan_one m r R).
  destruct (scan_one_fields m r) as (_ & _ & _ & X & _). rewrite X.
  split; [exact S'|]. split; [split|lia].
  - apply NoDup_app; repeat split; auto.
    + constructor; [intros []|constructor].
    + intros x Hx [<-|[]]. rewrite Forall_forall in F.
      specialize (F _ Hx). lia.
  - apply Forall_app. split.
    + eapply Forall_impl; [|exact F]. simpl. intros; lia.
    + constructor; [lia|constructor].
Qed.

Lemma scan_fold_scan_ids_inv (rs : list RawTrackMetadata) : forall m,
  scan_ids_inv m -> scan_ids_inv (fold_left scan_one rs m).
Proof.
  induction rs as [|r rs IH]; simpl; auto using scan_one_scan_ids_inv.
Qed.

Lemma scan_reset_scan_ids_inv (m : Library) : scan_ids_inv (scan_reset m).
Proof.
  repeat split; try constructor; reflexivity.
Qed.

Lemma scan_ids_inv_result (rs : list RawTrackMetadata) (m : Library) :
  ids_inv (scan_and_build rs m).
Proof.
  rewrite scan_and_build_eq.
  destruct (scan_fold_scan_ids_inv rs _ (scan_reset_scan_ids_inv m))
    as (_ & I & _).
  exact I.
Qed.

Lemma unlink_first_NoDup_map {A B} (f : A -> B) (p : A -> bool) xs :
  NoDup (map f xs) -> NoDup (map f (snd (unlink_first p xs))).
Proof.
  induction xs as [|x xs IH]; simpl; auto. intros N.
  inversion N as [|? ? Hn N']; subst.
  destruct (p x); simpl; auto.
  destruct (unlink_first p xs) as [b r] eqn:E. simpl in *.
  constructor; auto. intros Hin. apply Hn.
  apply in_map_iff in Hin. destruct Hin as (y & Ey & Hy).
  apply in_map_iff. exists y. split; auto.
  apply (unlink_first_In p xs). now rewrite E.
Qed.

Lemma master_ids_update (id : Z) fs (m : Library) :
  binds_kwargs fs = true ->
  master_ids (snd (update_song id fs m)) = master_ids m
  /\ _next_song_id (snd (update_song id fs m)) = _next_song_id m.
Proof.
  intros B. destruct (get_song_by_id id m) as [l|] eqn:G.
  - destruct (update_song_fields id fs m l G)
      as (O & S & _ & _ & _ & _ & N & _).
    unfold master_ids, ids_of. rewrite O, S, N. split; auto.
    apply map_ext. intros x.
    apply (deref_heap_set_field song_id). now apply apply_fields_keeps_id.
  - unfold update_song. unfold get_song_by_id in G. now rewrite G.
Qed.

Lemma apply_op_ids_inv (o : op) (m : Library) :
  ids_inv m -> ids_inv (apply_op m o).
Proof.
  intros I. pose proof (apply_op_core o m) as C.
  destruct o; cbn [apply_op] in *;
    try (destruct C as (S & _ & _ & _ & N & O);
         unfold ids_inv, master_ids in *; now rewrite S, N, O).
  - apply scan_ids_inv_result.
  - destruct (accepted fields) eqn:A; auto.
    unfold accepted in A. apply andb_true_iff in A. destruct A as [B _].
    destruct (master_ids_update id fields m B) as [E N].
    unfold ids_inv. now rewrite E, N.
  - destruct (Dict.mem Z.eqb id (_song_index m)) eqn:M;
      [|now rewrite (delete_song_unknown id m M)].
    destruct (delete_song_fields id m M) as (_ & S & _ & _ & O & _).
    destruct (delete_song_more_fields id m M) as (_ & _ & N & _).
    destruct I as [D F]. unfold ids_inv, master_ids in *.
    rewrite S, O, N. split.
    + now apply unlink_first_NoDup_map.
    + unfold ids_of in *. rewrite Forall_map in *.
      rewrite Forall_forall in *. intros x Hx. apply F.
      eapply unlink_first_In; eauto.
  - destruct (song <? List.length (objs m))%nat; auto.
    destruct (record_play_fields song m)
      as (S & _ & _ & _ & N & _ & _ & _ & _ & O).
    unfold ids_inv, master_ids, ids_of in *. rewrite S, N, O.
    assert (E : map (fun l => song_id (deref (heap_set (objs m) song
                  (mkSong (song_id (deref (objs m) song))
                     (title (deref (objs m) song))
                     (artist (deref (objs m) song))
                     (album (deref (objs m) song))
                     (genre (deref (objs m) song))
                     (year (deref (objs m) song))
                     (duration_seconds (deref (objs m) song))
                     (file_path (deref (objs m) song))
                     (play_count (deref (objs m) song) + 1)
                     (is_favorite (deref (objs m) song)))) l)) (sll m)
              = map (fun l => song_id (deref (objs m) l)) (sll m)).
    { apply map_ext. intros x. now apply (deref_heap_set_field song_id). }
    now rewrite E.
Qed.

(** ** The similarity graph *)

Lemma dict_get_set_same {V} (k : Z) (v : V) (d : Dict.t (K := Z) (V := V)) :
  Dict.get Z.eqb k (Dict.set Z.eqb k v d) = Some v.
Proof.
  induction d as [|[k' v'] d IH]; simpl.
  - now rewrite Z.eqb_refl.
  - destruct (Z.eqb_spec k k') as [E|N]; simpl.
    + now rewrite E, Z.eqb_refl.
    + destruct (Z.eqb_spec k k'); [contradiction|auto].
Qed.

Lemma dict_get_set_other {V} (k k' : Z) (v : V)
                         (d : Dict.t (K := Z) (V := V)) :
  k' <> k -> Dict.get Z.eqb k' (Dict.set Z.eqb k v d) = Dict.get Z.eqb k' d.
Proof.
  intros N. induction d as [|[k0 v0] d IH]; simpl.
  - destruct (Z.eqb_spec k' k); [contradiction|reflexivity].
  - destruct (Z.eqb_spec k k0) as [E|N0]; simpl.
    + subst k0. destruct (Z.eqb_spec k' k); [contradiction|reflexivity].
    + destruct (Z.eqb_spec k' k0); auto.
Qed.

Lemma neighbors_set (a k : Z) (ns : list Z) (g : SongGraph.t) :
  SongGraph.neighbors a (Dict.set Z.eqb k ns g)
  = if a =? k then ns else SongGraph.neighbors a g.
Proof.
  unfold SongGraph.neighbors. destruct (Z.eqb_spec a k) as [->|N].
  - now rewrite dict_get_set_same.
  - now rewrite dict_get_set_other.
Qed.

Lemma mem_set (a k : Z) (ns : list Z) (g : SongGraph.t) :
  Dict.mem Z.eqb a (Dict.set Z.eqb k ns g) = (a =? k) || Dict.mem Z.eqb a g.
Proof.
  unfold Dict.mem. destruct (Z.eqb_spec a k) as [->|N].
  - now rewrite dict_get_set_same.
  - now rewrite dict_get_set_other.
Qed.

Lemma neighbors_not_mem (a : Z) (g : SongGraph.t) :
  Dict.mem Z.eqb a g = false -> SongGraph.neighbors a g = [].
Proof.
  unfold Dict.mem, SongGraph.neighbors.
  destruct (Dict.get Z.eqb a g); [discriminate|reflexivity].
Qed.

Lemma neighbors_add_vertex (a v : Z) (g : SongGraph.t) :
  SongGraph.neighbors a (SongGraph.add_vertex v g) = SongGraph.neighbors a g.
Proof.
  unfold SongGraph.add_vertex. destruct (Dict.mem Z.eqb v g) eqn:M; auto.
  rewrite neighbors_set. destruct (Z.eqb_spec a v) as [->|N]; auto.
  now rewrite neighbors_not_mem.
Qed.

Lemma mem_add_vertex (a v : Z) (g : SongGraph.t) :
  Dict.mem Z.eqb a (SongGraph.add_vertex v g)
  = (a =? v) || Dict.mem Z.eqb a g.
Proof.
  unfold SongGraph.add_vertex. destruct (Dict.mem Z.eqb v g) eqn:M.
  - destruct (Z.eqb_spec a v) as [->|N]; auto.
  - apply mem_set.
Qed.

Lemma neighbors_link (c a b x : Z) (g : SongGraph.t) :
  In x (SongGraph.neighbors c (SongGraph.link a b g))
  <-> In x (SongGraph.neighbors c g) \/ (c = a /\ x = b).
Proof.
  unfold SongGraph.link.
  destruct (existsb (Z.eqb b) (SongGraph.neighbors a g)) eqn:E.
  - split; auto. intros [H|[-> ->]]; auto.
    apply existsb_exists in E. destruct E as (y & Hy & Ey).
    apply Z.eqb_eq in Ey. now subst.
  - rewrite neighbors_set. destruct (Z.eqb_spec c a) as [->|N].
    + rewrite in_app_iff. simpl. split; intros [H|H]; auto.
      * destruct H as [<-|[]]. auto.
      * destruct H as [_ ->]. auto.
    + split; auto. intros [H|[H _]]; auto. contradiction.
Qed.

Lemma mem_link (c a b : Z) (g : SongGraph.t) :
  Dict.mem Z.eqb a g = true ->
  Dict.mem Z.eqb c (SongGraph.link a b g) = Dict.mem Z.eqb c g.
Proof.
  intros M. unfold SongGraph.link.
  destruct (existsb (Z.eqb b) (SongGraph.neighbors a g)); auto.
  rewrite mem_set. destruct (Z.eqb_spec c a) as [->|N]; auto.
Qed.

Lemma neighbors_add_edge (c a b x : Z) (g : SongGraph.t) :
  In x (SongGraph.neighbors c (SongGraph.add_edge a b g))
  <-> In x (SongGraph.neighbors c g)
      \/ (a <> b /\ ((c = a /\ x = b) \/ (c = b /\ x = a))).
Proof.
  unfold SongGraph.add_edge. destruct (Z.eqb_spec a b) as [E|N].
  - split; auto. intros [H|[H _]]; auto; contradiction.
  - rewrite !neighbors_link, !neighbors_add_vertex. tauto.
Qed.

Lemma mem_add_edge (c a b : Z) (g : SongGraph.t) :
  Dict.mem Z.eqb c (SongGraph.add_edge a b g) = true
  <-> Dict.mem Z.eqb c g = true \/ (a <> b /\ (c = a \/ c = b)).
Proof.
  unfold SongGraph.add_edge. destruct (Z.eqb_spec a b) as [E|N].
  - split; auto. intros [H|[H _]]; auto; contradiction.
  - assert (Ma : Dict.mem Z.eqb a
                   (SongGraph.add_vertex b (SongGraph.add_vertex a g)) = true).
    { rewrite !mem_add_vertex, Z.eqb_refl. apply orb_true_r. }
    assert (Mb : Dict.mem Z.eqb b
                   (SongGraph.link a b
                      (SongGraph.add_vertex b (SongGraph.add_vertex a g)))
                 = true).
    { rewrite mem_link by auto. rewrite mem_add_vertex, Z.eqb_refl. auto. }
    rewrite mem_link by auto. rewrite mem_link by auto.
    rewrite !mem_add_vertex, !orb_true_iff, !Z.eqb_eq. tauto.
Qed.

Lemma graph_ok_add_edge (a b : Z) (g : SongGraph.t) :
  graph_ok g -> graph_ok (SongGraph.add_edge a b g).
Proof.
  intros (S & I & C). repeat split.
  - intros x y. rewrite !neighbors_add_edge. intros [H|H]; [left; auto|].
    right. tauto.
  - intros x. rewrite neighbors_add_edge. intros [H|(N & [[-> ->]|[-> ->]])].
    + now apply I in H.
    + now apply N.
    + now apply N.
  - intros x y. rewrite neighbors_add_edge, mem_add_edge.
    intros [H|(N & [[-> ->]|[-> ->]])]; [left; eauto|right; auto..].
Qed.

Lemma graph_ok_rebuild_row (h : heap) (a : loc) (rest : list loc) : forall g,
  graph_ok g -> graph_ok (rebuild_row h a rest g).
Proof.
  unfold rebuild_row. induction rest as [|b rest IH]; simpl; intros g H; auto.
  apply IH. destruct (1 <=? score (deref h a) (deref h b)); auto.
  now apply graph_ok_add_edge.
Qed.

Lemma graph_ok_rebuild_rows (h : heap) (songs : list loc) : forall g,
  graph_ok g -> graph_ok (rebuild_rows h songs g).
Proof.
  induction songs as [|a rest IH]; simpl; intros g H; auto.
  apply IH. now apply graph_ok_rebuild_row.
Qed.

Lemma mem_rebuild_row (h : heap) (a : loc) (rest : list loc) (v : Z) :
  forall g,
  Dict.mem Z.eqb (song_id (deref h a)) g = true ->
  Forall (fun b => Dict.mem Z.eqb (song_id (deref h b)) g = true) rest ->
  (Dict.mem Z.eqb v (rebuild_row h a rest g) = true
   <-> Dict.mem Z.eqb v g = true).
Proof.
  unfold rebuild_row. induction rest as [|b rest IH]; simpl; intros g Ha F;
    [tauto|].
  inversion F as [|? ? Hb F']; subst.
  assert (E : forall c,
            Dict.mem Z.eqb c
              (if 1 <=? score (deref h a) (deref h b)
               then SongGraph.add_edge (song_id (deref h a))
                                       (song_id (deref h b)) g
               else g) = true
            <-> Dict.mem Z.eqb c g = true).
  { intros c. destruct (1 <=? score (deref h a) (deref h b)); [|tauto].
    rewrite mem_add_edge. split; auto.
    intros [H|(_ & [->| ->])]; auto. }
  rewrite IH.
  - apply E.
  - now apply E.
  - eapply Forall_impl; [|exact F']. intros c Hc. now apply E.
Qed.

Lemma mem_rebuild_rows (h : heap) (songs : list loc) (v : Z) : forall g,
  Forall (fun b => Dict.mem Z.eqb (song_id (deref h b)) g = true) songs ->
  (Dict.mem Z.eqb v (rebuild_rows h songs g) = true
   <-> Dict.mem Z.eqb v g = true).
Proof.
  induction songs as [|a rest IH]; simpl; intros g F; [tauto|].
  inversion F as [|? ? Ha F']; subst.
  rewrite IH.
  - now apply mem_rebuild_row.
  - eapply Forall_impl; [|exact F']. intros c Hc.
    now apply mem_rebuild_row.
Qed.

Lemma add_vertices (f : loc -> Z) (ls : list loc) : forall g,
  (forall a, SongGraph.neighbors a
               (fold_left (fun g l => SongGraph.add_vertex (f l) g) ls g)
             = SongGraph.neighbors a g)
  /\ (forall v, Dict.mem Z.eqb v
                  (fold_left (fun g l => SongGraph.add_vertex (f l) g) ls g)
                = true
                <-> Dict.mem Z.eqb v g = true \/ In v (map f ls)).
Proof.
  induction ls as [|l ls IH]; simpl; intros g.
  - split; auto. intros v. tauto.
  - destruct (IH (SongGraph.add_vertex (f l) g)) as [N M]. split.
    + intros a. now rewrite N, neighbors_add_vertex.
    + intros v. rewrite M, mem_add_vertex, orb_true_iff, Z.eqb_eq.
      intuition.
Qed.

Lemma graph_ok_no_edges (g : SongGraph.t) :
  (forall a, SongGraph.neighbors a g = []) -> graph_ok g.
Proof.
  intros H. repeat split.
  - intros a b. rewrite (H a). intros [].
  - intros a. rewrite (H a). intros [].
  - intros a b. rewrite (H a). intros [].
Qed.

(** Reordering one adjacency list keeps the relation. *)
Lemma graph_ok_equiv (g g' : SongGraph.t) :
  (forall a x, In x (SongGraph.neighbors a g')
               <-> In x (SongGraph.neighbors a g)) ->
  (forall v, Dict.mem Z.eqb v g' = Dict.mem Z.eqb v g) ->
  graph_ok g -> graph_ok g'.
Proof.
  intros N M (S & I & C). repeat split.
  - intros a b. rewrite !N. apply S.
  - intros a. rewrite N. apply I.
  - intros a b. rewrite N, M. apply C.
Qed.

Lemma index_ids_master (m : Library) :
  index_ok m -> index_ids m = master_ids m.
Proof.
  unfold index_ok, index_ids, master_ids, ids_of, Dict.keys. intros ->.
  rewrite map_map. reflexivity.
Qed.

Lemma index_values (m : Library) :
  index_ok m -> Dict.values (_song_index m) = sll m.
Proof.
  unfold index_ok, Dict.values. intros ->.
  rewrite map_map. simpl. apply map_id.
Qed.

(** What [get_next_similar_song] does to the graph: the adjacency list of
    the current song may come back in another order. *)
Lemma similar_graph (c : Z) rnd (m : Library) :
  (forall a x,
      In x (SongGraph.neighbors a
              (graph (snd (fst (get_next_similar_song c rnd m)))))
      <-> In x (SongGraph.neighbors a (graph m)))
  /\ (forall v,
        Dict.mem Z.eqb v (graph (snd (fst (get_next_similar_song c rnd m))))
        = Dict.mem Z.eqb v (graph m)).
Proof.
  unfold get_next_similar_song.
  pose proof (fun x => shuffle_In (get_similar_songs c m) rnd x) as Sh.
  destruct (Random.shuffle (get_similar_songs c m) rnd) as [ns rnd'].
  simpl in Sh. unfold get_similar_songs in Sh.
  assert (G : (forall a x,
      In x (SongGraph.neighbors a
              (graph (if Dict.mem Z.eqb c (graph m)
                      then set_graph (Dict.set Z.eqb c ns (graph m)) m
                      else m)))
      <-> In x (SongGraph.neighbors a (graph m)))
    /\ (forall v,
        Dict.mem Z.eqb v
          (graph (if Dict.mem Z.eqb c (graph m)
                  then set_graph (Dict.set Z.eqb c ns (graph m)) m
                  else m))
        = Dict.mem Z.eqb v (graph m))).
  { destruct (Dict.mem Z.eqb c (graph m)) eqn:M; [|split; intros; tauto].
    change (graph (set_graph (Dict.set Z.eqb c ns (graph m)) m))
      with (Dict.set Z.eqb c ns (graph m)).
    split.
    - intros a x. rewrite neighbors_set.
      destruct (Z.eqb_spec a c) as [->|N]; [apply Sh|tauto].
    - intros v. rewrite mem_set.
      destruct (Z.eqb_spec v c) as [->|N]; auto. }
  match goal with |- context [first_indexed ?i ?n] =>
    destruct (first_indexed i n) end; exact G.
Qed.

Lemma get_next_song_graph cur pname rnd (m : Library) :
  (forall a x,
      In x (SongGraph.neighbors a (graph (snd (get_next_song cur pname rnd m))))
      <-> In x (SongGraph.neighbors a (graph m)))
  /\ (forall v,
        Dict.mem Z.eqb v (graph (snd (get_next_song cur pname rnd m)))
        = Dict.mem Z.eqb v (graph m)).
Proof.
  unfold get_next_song.
  destruct (playlist_next cur pname m); [split; intros; tauto|].
  assert (D : graph (snd (dequeue_song m)) = graph m).
  { unfold dequeue_song. now destruct (Queue.dequeue (up_next m)). }
  destruct (dequeue_song m) as [[q|] m1]; simpl in D;
    [simpl; rewrite D; split; intros; tauto|].
  destruct (truthy_id cur) as [c|];
    [|simpl; rewrite D; split; intros; tauto].
  pose proof (similar_graph c rnd m1) as S. rewrite D in S.
  destruct (get_next_similar_song c rnd m1) as [[[sim|] m2] rnd2];
    simpl in *; exact S.
Qed.

(** The calls that leave the graph alone. *)
Lemma apply_op_graph_kept (o : op) (m : Library) :
  match o with
  | Scan _ | Update _ _ | Delete _ | NextSong _ _ _ => True
  | _ => graph (apply_op m o) = graph m
  end.
Proof.
  destruct o; try exact I; unfold apply_op.
  - unfold create_playlist.
    now destruct (Dict.mem String.eqb name (playlists m)).
  - reflexivity.
  - unfold add_song_to_playlist.
    destruct (Dict.get String.eqb name (playlists m)) as [pl|];
      destruct (Dict.get Z.eqb id (_song_index m));
      try destruct (Playlist.truthy pl); reflexivity.
  - unfold remove_song_from_playlist.
    destruct (Dict.get String.eqb name (playlists m)) as [pl|];
      try destruct (Playlist.truthy pl);
      try destruct (Playlist.remove (objs m) id pl); reflexivity.
  - unfold enqueue_song. now destruct (Dict.get Z.eqb id (_song_index m)).
  - unfold dequeue_song. now destruct (Queue.dequeue (up_next m)).
  - now destruct (song <? List.length (objs m))%nat.
  - unfold get_previous_song.
    destruct (playlist_prev cur pname m); [reflexivity|].
    destruct (Stack.is_empty (history m)); [reflexivity|].
    now destruct (Stack.pop (history m)).
Qed.

(** During a scan the graph has the ids handed out so far as vertices and
    no edge yet. *)
Lemma scan_fold_graph (rs : list RawTrackMetadata) : forall m,
  scan_inv m ->
  (forall a, SongGraph.neighbors a (graph m) = []) ->
  graph_vertices_ok m ->
  (forall a, SongGraph.neighbors a (graph (fold_left scan_one rs m)) = [])
  /\ graph_vertices_ok (fold_left scan_one rs m).
Proof.
  induction rs as [|r rs IH]; simpl; intros m S E V; [auto|].
  pose proof (scan_one_scan_inv m r S) as S'.
  assert (R : refs_ok m) by (destruct S as [[_ R] _]; exact R).
  assert (X : index_ok m) by (destruct S as [[X _] _]; exact X).
  assert (X' : index_ok (scan_one m r)) by (destruct S' as [[X' _] _]; exact X').
  destruct (scan_one_more_fields m r) as (G & _).
  rewrite deref_app_new in G. cbn [song_id] in G.
  apply IH; auto.
  - intros a. rewrite G, neighbors_add_vertex. apply E.
  - intros v. rewrite G, mem_add_vertex, orb_true_iff, Z.eqb_eq.
    rewrite (index_ids_master _ X'), (master_ids_scan_one m r R).
    rewrite <- (index_ids_master _ X), in_app_iff, (V v). simpl. intuition.
Qed.

Lemma rebuild_graph_ok (m : Library) :
  index_ok m -> graph_ok (graph m) -> graph_vertices_ok m ->
  graph_ok (graph (_rebuild_graph m)) /\ graph_vertices_ok (_rebuild_graph m).
Proof.
  intros X G V. unfold _rebuild_graph, graph_vertices_ok.
  change (graph (set_graph ?g m)) with g.
  change (index_ids (set_graph ?g m)) with (index_ids m).
  split; [now apply graph_ok_rebuild_rows|].
  intros v. rewrite mem_rebuild_rows; [apply V|].
  rewrite (index_values m X). apply Forall_forall. intros l Hl.
  apply V. rewrite (index_ids_master m X).
  unfold master_ids, ids_of.
  exact (in_map (fun l => song_id (deref (objs m) l)) _ _ Hl).
Qed.

Lemma scan_graph (rs : list RawTrackMetadata) (m : Library) :
  graph_ok (graph (scan_and_build rs m))
  /\ graph_vertices_ok (scan_and_build rs m).
Proof.
  rewrite scan_and_build_eq.
  destruct (scan_reset_scan_ids_inv m) as (S & _).
  destruct (scan_fold_graph rs (scan_reset m) S) as (E & V).
  - reflexivity.
  - intros v. simpl. split; [discriminate|intros []].
  - pose proof (scan_fold_scan_inv rs _ S) as [[X _] _].
    apply rebuild_graph_ok; auto. now apply graph_ok_no_edges.
Qed.

Lemma update_graph (id : Z) fs (m : Library) :
  binds_kwargs fs = true -> index_ok m ->
  graph_ok (graph m) -> graph_vertices_ok m ->
  graph_ok (graph (snd (update_song id fs m)))
  /\ graph_vertices_ok (snd (update_song id fs m)).
Proof.
  intros B X G V. destruct (get_song_by_id id m) as [l|] eqn:E.
  - destruct (update_song_fields id fs m l E)
      as (_ & _ & I & _ & _ & _ & _ & Gr & _).
    unfold graph_vertices_ok, index_ids. rewrite Gr, I.
    split; [now apply graph_ok_rebuild_rows|].
    intros v. rewrite mem_rebuild_rows; [apply V|].
    rewrite (index_values m X). apply Forall_forall. intros x Hx.
    rewrite (deref_heap_set_field song_id)
      by now apply apply_fields_keeps_id.
    apply V. rewrite (index_ids_master m X).
    unfold master_ids, ids_of.
    exact (in_map (fun l => song_id (deref (objs m) l)) _ _ Hx).
  - unfold update_song. unfold get_song_by_id in E. rewrite E. auto.
Qed.

Lemma delete_graph (id : Z) (m : Library) :
  index_ok m ->
  graph_ok (graph m) -> graph_vertices_ok m ->
  graph_ok (graph (snd (delete_song id m)))
  /\ graph_vertices_ok (snd (delete_song id m)).
Proof.
  intros X G V. destruct (Dict.mem Z.eqb id (_song_index m)) eqn:M;
    [|now rewrite (delete_song_unknown id m M)].
  destruct (delete_song_fields id m M) as (_ & _ & _ & I & _).
  destruct (delete_song_more_fields id m M) as (Gr & _).
  unfold graph_vertices_ok, index_ids. rewrite Gr, I.
  rewrite X, dict_del_index.
  set (ls := snd (unlink_first (has_id (objs m) id) (sll m))).
  unfold Dict.values, Dict.keys. rewrite !map_map. simpl.
  rewrite map_id.
  destruct (add_vertices (fun l => song_id (deref (objs m) l)) ls
              SongGraph.empty) as [N Me].
  split.
  - apply graph_ok_rebuild_rows, graph_ok_no_edges.
    intros a. now rewrite N.
  - intros v. rewrite mem_rebuild_rows.
    + rewrite Me. split; [intros [H|H]; [discriminate|exact H]|auto].
    + apply Forall_forall. intros x Hx. apply Me. right.
      exact (in_map (fun l => song_id (deref (objs m) l)) _ _ Hx).
Qed.

Lemma apply_op_graph (o : op) (m : Library) :
  catalog_inv m ->
  graph_ok (graph m) /\ graph_vertices_ok m ->
  graph_ok (graph (apply_op m o)) /\ graph_vertices_ok (apply_op m o).
Proof.
  intros [X _] [G V].
  pose proof (apply_op_graph_kept o m) as K.
  pose proof (apply_op_core o m) as C.
  destruct o; cbn [apply_op] in *;
    try (destruct C as (_ & _ & _ & I & _);
         unfold graph_vertices_ok, index_ids in *; rewrite K, I; now split).
  - apply scan_graph.
  - destruct (accepted fields) eqn:A; auto.
    unfold accepted in A. apply andb_true_iff in A. destruct A as [B _].
    now apply update_graph.
  - now apply delete_graph.
  - destruct (song <? List.length (objs m))%nat; auto.
  - destruct (get_next_song_graph cur pname rnd m) as [N Me].
    destruct C as (_ & _ & _ & I & _).
    split.
    + eapply graph_ok_equiv; eauto.
    + unfold graph_vertices_ok, index_ids in *. intros v.
      rewrite Me, I. apply V.
Qed.

Lemma run_graph (ops : list op) : forall m,
  catalog_inv m ->
  graph_ok (graph m) /\ graph_vertices_ok m ->
  graph_ok (graph (run ops m)) /\ graph_vertices_ok (run ops m).
Proof.
  unfold run. induction ops as [|o ops IH]; simpl; intros m C G; auto.
  apply IH; [now apply apply_op_catalog_inv|now apply apply_op_graph].
Qed.

Lemma new_manager_graph :
  graph_ok (graph new_manager) /\ graph_vertices_ok new_manager.
Proof.
  split.
  - now apply graph_ok_no_edges.
  - intros v. simpl. split; [discriminate|intros []].
Qed.

Lemma reachable_graph (ops : list op) :
  graph_ok (graph (run ops new_manager))
  /\ graph_vertices_ok (run ops new_manager).
Proof.
  apply run_graph; [|apply new_manager_graph].
  split; [reflexivity|constructor].
Qed.

Lemma run_ids_inv (ops : list op) : forall m,
  ids_inv m -> ids_inv (run ops m).
Proof.
  unfold run. induction ops as [|o ops IH]; simpl; intros m I; auto.
  apply IH. now apply apply_op_ids_inv.
Qed.

Lemma reachable_ids_inv (ops : list op) : ids_inv (run ops new_manager).
Proof.
  apply run_ids_inv. split; constructor.
Qed.

(** ** The genre index *)

Lemma filter_none {A} (p : A -> bool) (xs : list A) :
  (forall x, In x xs -> p x = false) -> filter p xs = [].
Proof.
  induction xs as [|x xs IH]; simpl; intros H; auto.
  rewrite (H x) by auto. apply IH. intros y Hy. apply H. auto.
Qed.

Lemma filter_all {A} (p : A -> bool) (xs : list A) :
  (forall x, In x xs -> p x = true) -> filter p xs = xs.
Proof.
  induction xs as [|x xs IH]; simpl; intros H; auto.
  rewrite (H x) by auto. f_equal. apply IH. intros y Hy. apply H. auto.
Qed.

Lemma filter_comm {A} (p q : A -> bool) (xs : list A) :
  filter p (filter q xs) = filter q (filter p xs).
Proof.
  induction xs as [|x xs IH]; simpl; auto.
  destruct (p x) eqn:P, (q x) eqn:Q; simpl; rewrite ?P, ?Q, IH; auto.
Qed.

Lemma NoDup_map_filter {A B} (f : A -> B) (p : A -> bool) (xs : list A) :
  NoDup (map f xs) -> NoDup (map f (filter p xs)).
Proof.
  induction xs as [|x xs IH]; simpl; auto. intros N.
  inversion N as [|? ? Hn N']; subst.
  destruct (p x); simpl; auto. constructor; auto.
  intros Hin. apply Hn. apply in_map_iff in Hin.
  destruct Hin as (y & Ey & Hy). apply filter_In in Hy.
  apply in_map_iff. exists y. tauto.
Qed.

(** With pairwise different ids, unlinking the first node of an id removes
    every node of that id. *)
Lemma unlink_first_filter (h : heap) (id : Z) (xs : list loc) :
  NoDup (ids_of h xs) ->
  snd (unlink_first (has_id h id) xs)
  = filter (fun l => negb (has_id h id l)) xs.
Proof.
  unfold ids_of. induction xs as [|x xs IH]; simpl; auto. intros N.
  inversion N as [|? ? Hn N']; subst.
  destruct (has_id h id x) eqn:E; simpl.
  - symmetry. apply filter_all. intros y Hy. apply negb_true_iff.
    unfold has_id in *. apply Z.eqb_eq in E. apply Z.eqb_neq.
    intros E'. apply Hn. rewrite E, <- E'.
    exact (in_map (fun l => song_id (deref h l)) _ _ Hy).
  - destruct (unlink_first (has_id h id) xs) as [b r]. simpl in *.
    now rewrite IH.
Qed.

Lemma unlink_first_filter_comm (h : heap) (id : Z) (p : loc -> bool) xs :
  NoDup (ids_of h xs) ->
  snd (unlink_first (has_id h id) (filter p xs))
  = filter p (snd (unlink_first (has_id h id) xs)).
Proof.
  intros N. rewrite !unlink_first_filter; auto.
  - apply filter_comm.
  - unfold ids_of in *. now apply NoDup_map_filter.
Qed.

Lemma genre_matches_lower (h : heap) (g g' : string) (l : loc) :
  PyStr.lower g = PyStr.lower g' ->
  genre_matches h g l = genre_matches h g' l.
Proof. unfold genre_matches. now intros ->. Qed.

Lemma genre_inv_ext (h h' : heap) (songs : list loc) hs :
  (forall l, In l songs -> genre (deref h' l) = genre (deref h l)) ->
  genre_inv h songs hs -> genre_inv h' songs hs.
Proof.
  intros E (N & F & C).
  assert (M : forall g l, In l songs ->
                genre_matches h' g l = genre_matches h g l).
  { intros g l Hl. unfold genre_matches. now rewrite E. }
  split; [exact N|]. split.
  - eapply Forall_impl; [|exact F]. intros kv [Ne Eq]. split; auto.
    rewrite Eq at 1. apply filter_ext_in. intros l Hl. symmetry. now apply M.
  - intros l Hl. destruct (C l Hl) as (kv & Hkv & Mk).
    exists kv. split; auto. now rewrite M.
Qed.

(** [add_song] either appends to the header of that genre or appends a new
    header. *)
Lemma add_genre_cases (g : string) (l : loc) hs :
  (exists pre g' ss post,
      hs = pre ++ (g', ss) :: post
      /\ PyStr.lower g' = PyStr.lower g
      /\ MultiLinkedListByGenre.add_genre g l hs
         = pre ++ (g', ss ++ [l]) :: post)
  \/ ((forall kv, In kv hs -> PyStr.lower (fst kv) <> PyStr.lower g)
      /\ MultiLinkedListByGenre.add_genre g l hs = hs ++ [(g, [l])]).
Proof.
  induction hs as [|[g0 ss0] hs IH]; simpl.
  - right. split; [intros kv []|reflexivity].
  - destruct (String.eqb_spec (PyStr.lower g0) (PyStr.lower g)) as [E|N].
    + left. exists [], g0, ss0, hs. auto.
    + destruct IH as [(pre & g' & ss & post & Eh & El & Ea)|[Hn Ea]].
      * left. exists ((g0, ss0) :: pre), g', ss, post. simpl.
        rewrite Ea. rewrite Eh at 1. auto.
      * right. rewrite Ea. split; auto.
        intros kv [<-|H]; auto.
Qed.

Lemma add_genre_inv (h : heap) (songs : list loc) (l : loc) hs :
  genre_inv h songs hs ->
  genre_inv h (songs ++ [l]) (MultiLinkedListByGenre.add_song h l hs).
Proof.
  unfold MultiLinkedListByGenre.add_song. intros (N & F & C).
  assert (Ml : forall g, genre_matches h g l
                         = String.eqb (PyStr.lower g)
                                      (PyStr.lower (genre (deref h l))))
    by reflexivity.
  destruct (add_genre_cases (genre (deref h l)) l hs)
    as [(pre & g' & ss & post & Eh & El & Ea)|[Hn Ea]]; rewrite Ea; clear Ea.
  - subst hs. rewrite map_app in N. simpl in N.
    pose proof (NoDup_remove_2 _ _ _ N) as Nx.
    apply Forall_app in F. destruct F as [Fpre F].
    inversion F as [|? ? [Ne Eq] Fpost]; subst. simpl in Ne, Eq.
    assert (Other : forall kv, In kv pre \/ In kv post ->
              filter (genre_matches h (fst kv)) (songs ++ [l])
              = filter (genre_matches h (fst kv)) songs).
    { intros kv Hkv. rewrite filter_app. simpl.
      rewrite Ml. destruct (String.eqb_spec (PyStr.lower (fst kv))
                              (PyStr.lower (genre (deref h l)))) as [E|_];
        [|apply app_nil_r].
      exfalso. apply Nx. rewrite El, <- E. apply in_or_app.
      destruct Hkv as [H|H]; [left|right];
        exact (in_map (fun kv => PyStr.lower (fst kv)) _ _ H). }
    split; [|split].
    + rewrite map_app. simpl. exact N.
    + apply Forall_app. split; [|constructor].
      * apply Forall_forall. intros kv Hkv. rewrite Forall_forall in Fpre.
        destruct (Fpre kv Hkv) as [Ne' Eq']. split; auto.
        rewrite Other; auto.
      * simpl. split; [now destruct ss|].
        rewrite filter_app. simpl. rewrite Ml, El, String.eqb_refl.
        now rewrite <- Eq.
      * apply Forall_forall. intros kv Hkv. rewrite Forall_forall in Fpost.
        destruct (Fpost kv Hkv) as [Ne' Eq']. split; auto.
        rewrite Other; auto.
    + intros x Hx. apply in_app_iff in Hx. destruct Hx as [Hx|[<-|[]]].
      * destruct (C x Hx) as (kv & Hkv & Mk).
        apply in_app_iff in Hkv. destruct Hkv as [Hkv|[<-|Hkv]].
        -- exists kv. split; auto. apply in_or_app. auto.
        -- exists (g', ss ++ [l]). split; auto.
           apply in_or_app. right. left. reflexivity.
        -- exists kv. split; auto. apply in_or_app. right. right. exact Hkv.
      * exists (g', ss ++ [l]). split.
        -- apply in_or_app. right. left. reflexivity.
        -- simpl. rewrite Ml, El. apply String.eqb_refl.
  - assert (Other : forall kv, In kv hs ->
              filter (genre_matches h (fst kv)) (songs ++ [l])
              = filter (genre_matches h (fst kv)) songs).
    { intros kv Hkv. rewrite filter_app. simpl. rewrite Ml.
      destruct (String.eqb_spec (PyStr.lower (fst kv))
                  (PyStr.lower (genre (deref h l)))) as [E|_];
        [|apply app_nil_r].
      exfalso. exact (Hn kv Hkv E). }
    split; [|split].
    + rewrite map_app. simpl. apply NoDup_app; repeat split; auto.
      * constructor; [intros []|constructor].
      * intros x Hx [<-|[]]. apply in_map_iff in Hx.
        destruct Hx as (kv & Ekv & Hkv). exact (Hn kv Hkv Ekv).
    + apply Forall_app. split; [|constructor; [|constructor]].
      * apply Forall_forall. intros kv Hkv. rewrite Forall_forall in F.
        destruct (F kv Hkv) as [Ne' Eq']. split; auto.
        rewrite Other; auto.
      * simpl. split; [discriminate|].
        rewrite filter_app. simpl. rewrite Ml, String.eqb_refl.
        rewrite filter_none; [reflexivity|].
        intros x Hx. destruct (C x Hx) as (kv & Hkv & Mk).
        unfold genre_matches in *. apply String.eqb_eq in Mk.
        apply String.eqb_neq. intros E. apply (Hn kv Hkv). congruence.
    + intros x Hx. apply in_app_iff in Hx. destruct Hx as [Hx|[<-|[]]].
      * destruct (C x Hx) as (kv & Hkv & Mk).
        exists kv. split; auto. apply in_or_app. auto.
      * exists (genre (deref h l), [l]). split.
        -- apply in_or_app. right. left. reflexivity.
        -- simpl. rewrite Ml. apply String.eqb_refl.
Qed.

Lemma genre_inv_empty (h : heap) :
  genre_inv h [] MultiLinkedListByGenre.empty.
Proof.
  split; [constructor|]. split; [constructor|]. intros l [].
Qed.

Lemma mll_of_inv (h : heap) (songs : list loc) :
  genre_inv h songs (mll_of h songs).
Proof.
  unfold mll_of. induction songs as [|x xs IH] using rev_ind.
  - apply genre_inv_empty.
  - rewrite fold_left_app. simpl. now apply add_genre_inv.
Qed.

Lemma remove_song_lower (h : heap) (id : Z) (g : string) hs :
  In g (map (fun kv => PyStr.lower (fst kv))
            (MultiLinkedListByGenre.remove_song h id hs)) ->
  In g (map (fun kv => PyStr.lower (fst kv)) hs).
Proof.
  induction hs as [|[g0 ss] hs IH]; simpl; auto.
  destruct (snd (unlink_first (has_id h id) ss)); simpl; intuition.
Qed.

Lemma remove_song_keeps (h : heap) (id : Z) (g : string) (ss : list loc) hs :
  In (g, ss) hs -> snd (unlink_first (has_id h id) ss) <> [] ->
  In (g, snd (unlink_first (has_id h id) ss))
     (MultiLinkedListByGenre.remove_song h id hs).
Proof.
  induction hs as [|[g0 ss0] hs IH]; simpl; [tauto|].
  intros [E|H] Ne.
  - inversion E; subst.
    destruct (snd (unlink_first (has_id h id) ss)); [congruence|].
    left. reflexivity.
  - destruct (snd (unlink_first (has_id h id) ss0)); [|right]; auto.
Qed.

Lemma remove_song_inv (h : heap) (id : Z) (songs : list loc) hs :
  NoDup (ids_of h songs) ->
  genre_inv h songs hs ->
  genre_inv h (snd (unlink_first (has_id h id) songs))
            (MultiLinkedListByGenre.remove_song h id hs).
Proof.
  intros D (N & F & C).
  set (songs' := snd (unlink_first (has_id h id) songs)).
  assert (U : forall kv, In kv hs ->
            snd (unlink_first (has_id h id) (snd kv))
            = filter (genre_matches h (fst kv)) songs').
  { intros kv Hkv. rewrite Forall_forall in F. destruct (F kv Hkv) as [_ Eq].
    rewrite Eq at 1. now apply unlink_first_filter_comm. }
  split; [|split].
  - clear F C U. induction hs as [|[g0 ss] hs IH]; simpl; [constructor|].
    inversion N as [|? ? Hn N']; subst.
    destruct (snd (unlink_first (has_id h id) ss)); simpl; auto.
    constructor; auto. intros Hin. apply Hn.
    now apply remove_song_lower in Hin.
  - clear N C F. induction hs as [|[g0 ss] hs IH]; simpl; [constructor|].
    assert (IH' : Forall (fun kv => snd kv <> []
                    /\ snd kv = filter (genre_matches h (fst kv)) songs')
                    (MultiLinkedListByGenre.remove_song h id hs)).
    { apply IH. intros kv Hkv. apply U. now right. }
    pose proof (U (g0, ss) (or_introl eq_refl)) as E. simpl in E.
    destruct (snd (unlink_first (has_id h id) ss)) as [|y ys]; auto.
    constructor; auto. simpl. split; [discriminate|exact E].
  - intros l Hl. assert (Hl0 : In l songs) by (eapply unlink_first_In; eauto).
    destruct (C l Hl0) as ([g ss] & Hkv & Mk). simpl in Mk.
    exists (g, snd (unlink_first (has_id h id) ss)). split; auto.
    apply remove_song_keeps; auto.
    pose proof (U (g, ss) Hkv) as Ug. simpl in Ug. rewrite Ug. intros E.
    assert (X : In l (filter (genre_matches h g) songs')).
    { apply filter_In. auto. }
    rewrite E in X. exact X.
Qed.

(** The lookup of a genre under the partition. *)
Lemma genre_inv_lookup (h : heap) (songs : list loc) hs (g : string) :
  genre_inv h songs hs ->
  MultiLinkedListByGenre.get_songs_by_genre g hs
  = filter (genre_matches h g) songs.
Proof.
  intros (_ & F & C).
  assert (K : forall l, In l songs -> genre_matches h g l = true ->
                exists kv, In kv hs
                           /\ PyStr.lower (fst kv) = PyStr.lower g).
  { intros l Hl M. destruct (C l Hl) as (kv & Hkv & Mk).
    exists kv. split; auto. unfold genre_matches in *.
    apply String.eqb_eq in M, Mk. congruence. }
  clear C. induction hs as [|[g0 ss] hs IH]; simpl.
  - symmetry. apply filter_none. intros l Hl.
    destruct (genre_matches h g l) eqn:M; auto.
    destruct (K l Hl M) as (kv & [] & _).
  - inversion F as [|? ? [_ Eq] F']; subst. simpl in Eq.
    destruct (String.eqb_spec (PyStr.lower g0) (PyStr.lower g)) as [E|Ne].
    + rewrite Eq. apply filter_ext. intros l.
      now apply genre_matches_lower.
    + apply IH; auto. intros l Hl M.
      destruct (K l Hl M) as (kv & [<-|Hkv] & Ek); [contradiction|].
      exists kv. auto.
Qed.

Lemma scan_fold_genre (rs : list RawTrackMetadata) : forall m,
  scan_inv m -> genre_inv (objs m) (sll m) (genre_mll m) ->
  genre_inv (objs (fold_left scan_one rs m)) (sll (fold_left scan_one rs m))
            (genre_mll (fold_left scan_one rs m)).
Proof.
  induction rs as [|r rs IH]; simpl; intros m S G; auto.
  apply IH; [now apply scan_one_scan_inv|].
  assert (R : refs_ok m) by (destruct S as [[_ R] _]; exact R).
  destruct (scan_one_fields m r) as (Es & Eo & _).
  destruct (scan_one_more_fields m r) as (_ & Eg & _).
  rewrite Es, Eo, Eg. apply add_genre_inv.
  eapply genre_inv_ext; [|exact G].
  intros l Hl. unfold refs_ok in R. rewrite Forall_forall in R.
  now rewrite deref_app_old by auto.
Qed.

Lemma apply_op_genre (o : op) (m : Library) :
  catalog_inv m -> ids_inv m ->
  genre_inv (objs m) (sll m) (genre_mll m) ->
  genre_inv (objs (apply_op m o)) (sll (apply_op m o))
            (genre_mll (apply_op m o)).
Proof.
  intros Cat [D _] G. pose proof (apply_op_core o m) as C.
  destruct o; cbn [apply_op] in *;
    try (destruct C as (S & Gm & _ & _ & _ & O); now rewrite S, Gm, O).
  - rewrite scan_and_build_eq.
    change (genre_inv
              (objs (fold_left scan_one records (scan_reset m)))
              (sll (fold_left scan_one records (scan_reset m)))
              (genre_mll (fold_left scan_one records (scan_reset m)))).
    apply scan_fold_genre.
    + exact (proj1 (scan_reset_scan_ids_inv m)).
    + apply genre_inv_empty.
  - destruct (accepted fields); auto.
    destruct (get_song_by_id id m) as [l|] eqn:E.
    + destruct (update_song_fields id fields m l E)
        as (O & S & _ & _ & _ & _ & _ & _ & Gm & _).
      rewrite O, S, Gm.
      destruct (String.eqb_spec
                  (genre (deref (heap_set (objs m) l
                            (apply_fields fields (deref (objs m) l))) l))
                  (genre (deref (objs m) l))) as [Eg|_];
        [|apply mll_of_inv].
      eapply genre_inv_ext; [|exact G]. intros x _.
      destruct (Nat.eq_dec x l) as [->|Nx]; auto.
      now rewrite deref_heap_set_other.
    + unfold update_song. unfold get_song_by_id in E. now rewrite E.
  - destruct (Dict.mem Z.eqb id (_song_index m)) eqn:M;
      [|now rewrite (delete_song_unknown id m M)].
    destruct (delete_song_fields id m M) as (_ & S & _ & _ & O & _).
    destruct (delete_song_more_fields id m M) as (_ & Gm & _).
    rewrite S, O, Gm. now apply remove_song_inv.
  - destruct (song <? List.length (objs m))%nat; auto.
    destruct (record_play_fields song m)
      as (S & Gm & _ & _ & _ & _ & _ & _ & _ & O).
    rewrite S, Gm, O. eapply genre_inv_ext; [|exact G].
    intros x _. now apply (deref_heap_set_field genre).
Qed.

Lemma run_genre (ops : list op) : forall m,
  catalog_inv m -> ids_inv m ->
  genre_inv (objs m) (sll m) (genre_mll m) ->
  genre_inv (objs (run ops m)) (sll (run ops m)) (genre_mll (run ops m)).
Proof.
  unfold run. induction ops as [|o ops IH]; simpl; intros m C I G; auto.
  apply IH; [now apply apply_op_catalog_inv|now apply apply_op_ids_inv|].
  now apply apply_op_genre.
Qed.

Lemma reachable_genre (ops : list op) :
  genre_inv (objs (run ops new_manager)) (sll (run ops new_manager))
            (genre_mll (run ops new_manager)).
Proof.
  apply run_genre.
  - split; [reflexivity|constructor].
  - split; constructor.
  - apply genre_inv_empty.
Qed.

(** ** What every reachable state guarantees *)

Lemma index_get_In (m : Library) (id : Z) (l : loc) :
  index_ok m -> get_song_by_id id m = Some l -> In l (sll m).
Proof.
  unfold index_ok, get_song_by_id. intros ->.
  induction (sll m) as [|x xs IH]; simpl; [discriminate|].
  destruct (id =? song_id (deref (objs m) x)); auto.
  intros E. inversion E. auto.
Qed.

Lemma NoDup_map_inj {A B} (f : A -> B) (xs : list A) (a b : A) :
  NoDup (map f xs) -> In a xs -> In b xs -> f a = f b -> a = b.
Proof.
  induction xs as [|x xs IH]; simpl; [tauto|]. intros N Ha Hb E.
  inversion N as [|? ? Hn N']; subst.
  destruct Ha as [->|Ha], Hb as [->|Hb]; auto.
  - exfalso. apply Hn. rewrite E. now apply in_map.
  - exfalso. apply Hn. rewrite <- E. now apply in_map.
Qed.

Lemma index_get_none (h : heap) (id : Z) (ls : list loc) :
  ~ In id (ids_of h ls) ->
  Dict.get Z.eqb id (map (fun l => (song_id (deref h l), l)) ls) = None.
Proof.
  unfold ids_of. induction ls as [|x xs IH]; simpl; auto. intros N.
  destruct (Z.eqb_spec id (song_id (deref h x))) as [E|_]; [|tauto].
  exfalso. apply N. auto.
Qed.

Lemma index_get_unlink (h : heap) (id id' : Z) (ls : list loc) :
  NoDup (ids_of h ls) ->
  Dict.get Z.eqb id'
    (map (fun l => (song_id (deref h l), l))
         (snd (unlink_first (has_id h id) ls)))
  = if id' =? id then None
    else Dict.get Z.eqb id' (map (fun l => (song_id (deref h l), l)) ls).
Proof.
  unfold ids_of. induction ls as [|x xs IH]; simpl; intros N.
  - now destruct (id' =? id).
  - inversion N as [|? ? Hn N']; subst. unfold has_id at 1.
    destruct (Z.eqb_spec (song_id (deref h x)) id) as [E|Ne]; simpl.
    + destruct (Z.eqb_spec id' id) as [->|Ne'].
      * apply index_get_none. now rewrite <- E.
      * destruct (Z.eqb_spec id' (song_id (deref h x))); [congruence|auto].
    + destruct (unlink_first (has_id h id) xs) as [b r]. simpl in *.
      rewrite IH by auto.
      destruct (Z.eqb_spec id' (song_id (deref h x))) as [E'|_]; auto.
      destruct (Z.eqb_spec id' id); [congruence|auto].
Qed.

Lemma dict_mem_keys {V} (k : Z) (d : Dict.t (K := Z) (V := V)) :
  Dict.mem Z.eqb k d = true <-> In k (Dict.keys d).
Proof.
  unfold Dict.mem, Dict.keys. induction d as [|[k' v] d IH]; simpl.
  - split; [discriminate|tauto].
  - destruct (Z.eqb_spec k k') as [->|N].
    + split; auto.
    + rewrite IH. split; auto. intros [E|H]; auto. congruence.
Qed.

(** X1. In every state a manager can be in, the tracks of the catalog
    carry pairwise different ids, each of them positive and below the id
    counter: no call hands out an id twice or lets two tracks share one. *)
Theorem X1_catalog_ids_unique (ops : list op) :
  NoDup (master_ids (run ops new_manager))
  /\ Forall (fun i => 0 < i < _next_song_id (run ops new_manager))
            (master_ids (run ops new_manager)).
Proof. exact (reachable_ids_inv ops). Qed.

(** X2. In a state a manager can be in, a successful [delete_song id]
    takes exactly the track of that id out of the catalog: the id no
    longer resolves, every other id resolves as before, the master
    sequence loses that one track and keeps the order of the others, and
    no song object is modified. *)
Theorem X2_delete_removes_exactly (ops : list op) (id : Z) (l : loc) :
  get_song_by_id id (run ops new_manager) = Some l ->
  get_song_by_id id (snd (delete_song id (run ops new_manager))) = None
  /\ (forall id', id' <> id ->
        get_song_by_id id' (snd (delete_song id (run ops new_manager)))
        = get_song_by_id id' (run ops new_manager))
  /\ get_all_songs (snd (delete_song id (run ops new_manager)))
     = filter (fun x => negb (x =? l)%nat)
              (get_all_songs (run ops new_manager))
  /\ objs (snd (delete_song id (run ops new_manager)))
     = objs (run ops new_manager).
Proof.
  set (m := run ops new_manager). intros G.
  pose proof (reachable_catalog_inv ops) as C. fold m in C.
  pose proof (reachable_ids_inv ops) as [D _]. fold m in D.
  assert (M : Dict.mem Z.eqb id (_song_index m) = true).
  { unfold Dict.mem. unfold get_song_by_id in G. now rewrite G. }
  destruct (delete_song_fields id m M) as (_ & S & _ & I & O & _).
  destruct C as [X R].
  assert (Q : forall id',
            get_song_by_id id' (snd (delete_song id m))
            = if id' =? id then None else get_song_by_id id' m).
  { intros id'. unfold get_song_by_id. rewrite I.
    unfold index_ok in X. rewrite X, dict_del_index.
    now apply index_get_unlink. }
  split; [|split; [|split]].
  - rewrite Q. now rewrite Z.eqb_refl.
  - intros id' N. rewrite Q. now destruct (Z.eqb_spec id' id).
  - unfold get_all_songs, SinglyLinkedList.traverse. rewrite S.
    rewrite unlink_first_filter by exact D.
    apply filter_ext_in. intros x Hx. f_equal.
    destruct (index_get m id l (conj X R) G) as [Il _].
    pose proof (index_get_In m id l X G) as Hl.
    unfold has_id. destruct (Nat.eqb_spec x l) as [->|Nx].
    + now apply Z.eqb_eq.
    + apply Z.eqb_neq. intros E. apply Nx.
      apply (NoDup_map_inj (fun y => song_id (deref (objs m) y)) (sll m));
        auto. congruence.
  - exact O.
Qed.

Lemma X2_witness :
  get_song_by_id 2 (run [Scan [rec_a; rec_b; rec_c]] new_manager)
  = Some 1%nat
  /\ get_song_by_id 2
       (snd (delete_song 2 (run [Scan [rec_a; rec_b; rec_c]] new_manager)))
     = None.
Proof.
  assert (G : get_song_by_id 2 (run [Scan [rec_a; rec_b; rec_c]] new_manager)
              = Some 1%nat) by (vm_compute; reflexivity).
  split; [exact G|].
  exact (proj1 (X2_delete_removes_exactly [Scan [rec_a; rec_b; rec_c]]
                  2 1%nat G)).
Defined.

(** X3. In every state a manager can be in, [get_songs_by_genre g] is the
    catalog filtered by genre, case-insensitively and in master-sequence
    order: it returns all and only the tracks whose current genre equals
    [g] up to case. *)
Theorem X3_genre_lookup_is_filter (ops : list op) (g : string) :
  get_songs_by_genre g (run ops new_manager)
  = filter (genre_matches (objs (run ops new_manager)) g)
           (get_all_songs (run ops new_manager)).
Proof.
  unfold get_songs_by_genre, get_all_songs, SinglyLinkedList.traverse.
  apply genre_inv_lookup. apply reachable_genre.
Qed.

(** X4. In every state a manager can be in, [get_all_genres] lists each
    genre once (no two names are equal up to case), and a genre is listed
    exactly when some track of the catalog has it: a genre whose last
    track was deleted or re-tagged is no longer listed. *)
Theorem X4_genres_listed_once (ops : list op) :
  NoDup (map PyStr.lower (get_all_genres (run ops new_manager)))
  /\ forall g,
       (exists g', In g' (get_all_genres (run ops new_manager))
                   /\ PyStr.lower g' = PyStr.lower g)
       <-> (exists l, In l (get_all_songs (run ops new_manager))
                      /\ genre_matches (objs (run ops new_manager)) g l
                         = true).
Proof.
  unfold get_all_genres, MultiLinkedListByGenre.get_all_genres,
    get_all_songs, SinglyLinkedList.traverse.
  destruct (reachable_genre ops) as (N & F & C).
  set (m := run ops new_manager) in *. split.
  - now rewrite map_map.
  - intros g. split.
    + intros (g' & Hg' & E). apply in_map_iff in Hg'.
      destruct Hg' as (kv & <- & Hkv). rewrite Forall_forall in F.
      destruct (F kv Hkv) as [Ne Eq].
      destruct (snd kv) as [|l ls] eqn:Es; [congruence|].
      assert (Hl : In l (filter (genre_matches (objs m) (fst kv)) (sll m))).
      { rewrite <- Eq. now left. }
      apply filter_In in Hl. destruct Hl as [Hl Ml].
      exists l. split; auto.
      now rewrite <- (genre_matches_lower (objs m) (fst kv) g l E).
    + intros (l & Hl & Ml). destruct (C l Hl) as (kv & Hkv & Mk).
      exists (fst kv). split; [now apply in_map|].
      unfold genre_matches in *. apply String.eqb_eq in Ml, Mk. congruence.
Qed.

(** X5. In every state a manager can be in, the similarity graph is an
    undirected graph over the catalog: whenever [b] is among the similar
    songs of [a], [a] is among those of [b], [a] and [b] differ, and [b]
    is an id the manager resolves.  So [get_similar_songs] never names a
    deleted track. *)
Theorem X5_similar_songs_symmetric (ops : list op) (a b : Z) :
  In b (get_similar_songs a (run ops new_manager)) ->
  In a (get_similar_songs b (run ops new_manager))
  /\ a <> b
  /\ get_song_by_id b (run ops new_manager) <> None.
Proof.
  unfold get_similar_songs, get_song_by_id.
  destruct (reachable_graph ops) as ((S & I & C) & V). intros H.
  split; [now apply S|]. split.
  - intros ->. exact (I _ H).
  - apply C in H. apply V in H. apply dict_mem_keys in H.
    unfold Dict.mem in H.
    destruct (Dict.get Z.eqb b (_song_index (run ops new_manager)));
      [discriminate|discriminate].
Qed.

Lemma X5_witness :
  In 2 (get_similar_songs 1 (run [Scan [rec_a; rec_b; rec_c]] new_manager))
  /\ In 1 (get_similar_songs 2
             (run [Scan [rec_a; rec_b; rec_c]] new_manager)).
Proof.
  assert (H : In 2 (get_similar_songs 1
                      (run [Scan [rec_a; rec_b; rec_c]] new_manager))).
  { vm_compute. left. reflexivity. }
  split; [exact H|].
  exact (proj1 (X5_similar_songs_symmetric [Scan [rec_a; rec_b; rec_c]]
                  1 2 H)).
Defined.

(** X6. In every state a manager can be in, the title tree holds the
    tracks of the master sequence, each as often as the sequence has it,
    and its in-order traversal is sorted by lower-cased title. *)
Theorem X6_title_tree_holds_catalog (ops : list op) :
  Permutation (BST.inorder (title_bst (run ops new_manager)))
              (get_all_songs (run ops new_manager))
  /\ StronglySorted (title_le (objs (run ops new_manager)))
                    (BST.inorder (title_bst (run ops new_manager))).
Proof.
  destruct (reachable_title_inv ops) as [B _]. unfold bst_ok in B.
  rewrite B. split; [apply bst_of_inorder|apply bst_of_sorted].
Qed.

(** ** Which edges the graph has *)

Lemma score_sym (a b : Song) : score a b = score b a.
Proof.
  unfold score.
  rewrite (andb_comm (PyStr.truthy (artist a))),
          (andb_comm (PyStr.truthy (genre a))),
          (andb_comm (negb (year a =? 0))).
  rewrite (String.eqb_sym (PyStr.lower (artist a))),
          (String.eqb_sym (PyStr.lower (genre a))).
  replace (year a - year b) with (- (year b - year a)) by lia.
  now rewrite Z.abs_opp.
Qed.

Lemma links_sym (h : heap) (a b : loc) (x y : Z) :
  links h a b x y -> links h b a x y.
Proof.
  unfold links. rewrite (score_sym (deref h b)). intuition.
Qed.

Lemma rebuild_row_edges (h : heap) (a : loc) (x y : Z) (rest : list loc) :
  forall g,
  In y (SongGraph.neighbors x (rebuild_row h a rest g))
  <-> In y (SongGraph.neighbors x g)
      \/ exists b, In b rest /\ links h a b x y.
Proof.
  unfold rebuild_row. induction rest as [|b rest IH]; simpl; intros g.
  - split; auto. intros [H|(b & [] & _)]. exact H.
  - rewrite IH. clear IH.
    assert (E : In y (SongGraph.neighbors x
                  (if 1 <=? score (deref h a) (deref h b)
                   then SongGraph.add_edge (song_id (deref h a))
                                           (song_id (deref h b)) g
                   else g))
                <-> In y (SongGraph.neighbors x g) \/ links h a b x y).
    { unfold links.
      destruct (Z.leb_spec 1 (score (deref h a) (deref h b))) as [L|L].
      - rewrite neighbors_add_edge. tauto.
      - split; auto. intros [H|[H _]]; auto. lia. }
    rewrite E. split.
    + intros [[H|H]|(c & Hc & Lc)]; auto.
      * right. exists b. auto.
      * right. exists c. auto.
    + intros [H|(c & [<-|Hc] & Lc)]; auto.
      right. exists c. auto.
Qed.

Lemma rebuild_rows_edges (h : heap) (x y : Z) (songs : list loc) :
  forall g,
  In y (SongGraph.neighbors x (rebuild_rows h songs g))
  <-> In y (SongGraph.neighbors x g)
      \/ exists a b, In (a, b) (pairs songs) /\ links h a b x y.
Proof.
  induction songs as [|a rest IH]; simpl; intros g.
  - split; auto. intros [H|(a & b & [] & _)]. exact H.
  - rewrite IH, rebuild_row_edges. clear IH. split.
    + intros [[H|(b & Hb & L)]|(c & b & Hp & L)]; auto.
      * right. exists a, b. split; auto. apply in_or_app. left.
        now apply in_map.
      * right. exists c, b. split; auto. apply in_or_app. now right.
    + intros [H|(c & b & Hp & L)]; auto.
      apply in_app_iff in Hp. destruct Hp as [Hp|Hp].
      * apply in_map_iff in Hp. destruct Hp as (b' & E & Hb).
        inversion E; subst. left. right. exists b. auto.
      * right. exists c, b. auto.
Qed.

Lemma pairs_In {A} (xs : list A) (a b : A) :
  In (a, b) (pairs xs) -> In a xs /\ In b xs.
Proof.
  induction xs as [|x xs IH]; simpl; [tauto|]. intros H.
  apply in_app_iff in H. destruct H as [H|H].
  - apply in_map_iff in H. destruct H as (y & E & Hy).
    inversion E; subst. auto.
  - apply IH in H. tauto.
Qed.

Lemma pairs_total {A} (xs : list A) (a b : A) :
  In a xs -> In b xs -> a <> b ->
  In (a, b) (pairs xs) \/ In (b, a) (pairs xs).
Proof.
  induction xs as [|x xs IH]; simpl; [tauto|]. intros Ha Hb N.
  destruct Ha as [->|Ha], Hb as [->|Hb].
  - congruence.
  - left. apply in_or_app. left. now apply in_map.
  - right. apply in_or_app. left. now apply in_map.
  - destruct (IH Ha Hb N); [left|right]; apply in_or_app; now right.
Qed.

(** Whatever the graph held before, the rebuild connects every scoring
    pair. *)
Lemma rebuild_rows_complete (h : heap) (songs : list loc) (g : SongGraph.t)
                            (a b : loc) :
  NoDup (ids_of h songs) -> In a songs -> In b songs -> a <> b ->
  1 <= score (deref h a) (deref h b) ->
  In (song_id (deref h b))
     (SongGraph.neighbors (song_id (deref h a)) (rebuild_rows h songs g)).
Proof.
  intros D Ha Hb N L. apply rebuild_rows_edges. right.
  assert (Ni : song_id (deref h a) <> song_id (deref h b)).
  { intros E. apply N.
    exact (NoDup_map_inj (fun l => song_id (deref h l)) songs a b D Ha Hb E). }
  destruct (pairs_total songs a b Ha Hb N) as [P|P].
  - exists a, b. split; auto. unfold links. auto.
  - exists b, a. split; auto. apply links_sym. unfold links. auto.
Qed.

(** Starting without edges, the rebuild connects the scoring pairs and no
    others. *)
Lemma rebuild_rows_exact (h : heap) (songs : list loc) (g : SongGraph.t)
                         (a b : loc) :
  NoDup (ids_of h songs) -> (forall v, SongGraph.neighbors v g = []) ->
  In a songs -> In b songs -> a <> b ->
  (In (song_id (deref h b))
      (SongGraph.neighbors (song_id (deref h a)) (rebuild_rows h songs g))
   <-> 1 <= score (deref h a) (deref h b)).
Proof.
  intros D E Ha Hb N. split; [|now apply rebuild_rows_complete].
  intros H. apply rebuild_rows_edges in H. rewrite E in H.
  destruct H as [[]|(c & d & P & L & _ & Ids)].
  apply pairs_In in P. destruct P as [Hc Hd].
  assert (Inj : forall u v, In u songs -> In v songs ->
                  song_id (deref h u) = song_id (deref h v) -> u = v).
  { intros u v Hu Hv. 
    exact (NoDup_map_inj (fun l => song_id (deref h l)) songs u v D Hu Hv). }
  destruct Ids as [[E1 E2]|[E1 E2]].
  - rewrite (Inj a c), (Inj b d); auto.
  - rewrite (Inj a d), (Inj b c); auto. now rewrite score_sym.
Qed.

Lemma scan_graph_exact (rs : list RawTrackMetadata) (m : Library) :
  graph_exact (scan_and_build rs m).
Proof.
  rewrite scan_and_build_eq.
  destruct (scan_fold_scan_ids_inv rs _ (scan_reset_scan_ids_inv m))
    as (S & (D & _) & _).
  destruct (scan_fold_graph rs (scan_reset m)
              (proj1 (scan_reset_scan_ids_inv m))) as (E & _).
  - reflexivity.
  - intros v. simpl. split; [discriminate|intros []].
  - destruct S as [[X _] _].
    set (f := fold_left scan_one rs (scan_reset m)) in *.
    unfold graph_exact, get_similar_songs, get_all_songs,
      SinglyLinkedList.traverse, _rebuild_graph.
    change (sll (set_graph ?g f)) with (sll f).
    change (objs (set_graph ?g f)) with (objs f).
    change (graph (set_graph ?g f)) with g.
    rewrite (index_values f X). intros a b. now apply rebuild_rows_exact.
Qed.

Lemma delete_graph_exact (id : Z) (m : Library) :
  catalog_inv m -> ids_inv m -> Dict.mem Z.eqb id (_song_index m) = true ->
  graph_exact (snd (delete_song id m)).
Proof.
  intros [X _] [D _] M.
  destruct (delete_song_fields id m M) as (_ & S & _ & _ & O & _).
  destruct (delete_song_more_fields id m M) as (Gr & _).
  unfold graph_exact, get_similar_songs, get_all_songs,
    SinglyLinkedList.traverse. rewrite S, O, Gr.
  rewrite X, dict_del_index.
  set (ls := snd (unlink_first (has_id (objs m) id) (sll m))).
  unfold Dict.values. rewrite map_map. simpl. rewrite map_id.
  destruct (add_vertices (fun l => song_id (deref (objs m) l)) ls
              SongGraph.empty) as [N _].
  intros a b. apply rebuild_rows_exact.
  - now apply unlink_first_NoDup_map.
  - intros v. now rewrite N.
Qed.

Lemma graph_exact_complete (m : Library) : graph_exact m -> graph_complete m.
Proof.
  intros E a b Ha Hb N L. now apply E.
Qed.

Lemma apply_op_graph_complete (o : op) (m : Library) :
  catalog_inv m -> ids_inv m -> graph_complete m ->
  graph_complete (apply_op m o).
Proof.
  intros Cat I G.
  pose proof (apply_op_graph_kept o m) as K.
  pose proof (apply_op_core o m) as C.
  destruct o; cbn [apply_op] in *;
    try (destruct C as (S & _ & _ & _ & _ & O);
         unfold graph_complete, get_similar_songs, get_all_songs,
           SinglyLinkedList.traverse in *;
         rewrite K, S, O; exact G).
  - apply graph_exact_complete, scan_graph_exact.
  - destruct (accepted fields) eqn:A; auto.
    unfold accepted in A. apply andb_true_iff in A. destruct A as [B _].
    destruct (get_song_by_id id m) as [l|] eqn:E.
    + destruct (master_ids_update id fields m B) as [Em _].
      destruct (update_song_fields id fields m l E)
        as (O & S & _ & _ & _ & _ & _ & Gr & _).
      destruct I as [D _]. destruct Cat as [X _].
      unfold master_ids in Em, D. rewrite S, O in Em.
      unfold graph_complete, get_similar_songs, get_all_songs,
        SinglyLinkedList.traverse.
      rewrite S, O, Gr, (index_values m X).
      intros a b Ha Hb N L. apply rebuild_rows_complete; auto.
      now rewrite Em.
    + unfold update_song. unfold get_song_by_id in E. now rewrite E.
  - destruct (Dict.mem Z.eqb id (_song_index m)) eqn:M;
      [|now rewrite (delete_song_unknown id m M)].
    now apply graph_exact_complete, delete_graph_exact.
  - destruct (song <? List.length (objs m))%nat; auto.
    destruct (record_play_fields song m)
      as (S & _ & _ & _ & _ & Gr & _ & _ & _ & O).
    unfold graph_complete, get_similar_songs, get_all_songs,
      SinglyLinkedList.traverse in *.
    rewrite S, Gr, O. intros a b Ha Hb N.
    unfold score.
    rewrite !(deref_heap_set_field artist), !(deref_heap_set_field genre),
      !(deref_heap_set_field year), !(deref_heap_set_field song_id)
      by reflexivity.
    exact (G a b Ha Hb N).
  - destruct (get_next_song_graph cur pname rnd m) as [N _].
    destruct C as (S & _ & _ & _ & _ & O).
    unfold graph_complete, get_similar_songs, get_all_songs,
      SinglyLinkedList.traverse in *.
    rewrite S, O. intros a b Ha Hb Nab L. apply N. now apply G.
Qed.

Lemma run_graph_complete (ops : list op) : forall m,
  catalog_inv m -> ids_inv m -> graph_complete m ->
  graph_complete (run ops m).
Proof.
  unfold run. induction ops as [|o ops IH]; simpl; intros m C I G; auto.
  apply IH; [now apply apply_op_catalog_inv|now apply apply_op_ids_inv|].
  now apply apply_op_graph_complete.
Qed.

(** X7. In every state a manager can be in, every two tracks of the
    catalog whose similarity score (same artist 2, same genre 1, years at
    most 2 apart 1) is at least 1 are neighbours in the graph: no call
    ever leaves a scoring pair unconnected. *)
Theorem X7_scoring_pairs_connected (ops : list op) :
  graph_complete (run ops new_manager).
Proof.
  apply run_graph_complete.
  - split; [reflexivity|constructor].
  - split; constructor.
  - intros a b [].
Qed.

(** X8. Right after [scan_and_build], whatever the state before, two
    tracks of the catalog are neighbours in the graph exactly when their
    score is at least 1. *)
Theorem X8_scan_graph_exact (rs : list RawTrackMetadata) (m : Library) :
  graph_exact (scan_and_build rs m).
Proof. apply scan_graph_exact. Qed.

(** X9. Right after a successful [delete_song] in a state a manager can be
    in, two tracks of the catalog are neighbours in the graph exactly
    when their score is at least 1: the deletion rebuilds the graph from
    no edges, so edges that an earlier update left behind are gone. *)
Theorem X9_delete_graph_exact (ops : list op) (id : Z) :
  fst (delete_song id (run ops new_manager)) = true ->
  graph_exact (snd (delete_song id (run ops new_manager))).
Proof.
  intros F. apply delete_graph_exact.
  - apply reachable_catalog_inv.
  - apply reachable_ids_inv.
  - destruct (Dict.mem Z.eqb id (_song_index (run ops new_manager))) eqn:M;
      auto.
    rewrite (delete_song_unknown _ _ M) in F. discriminate.
Qed.

Lemma X9_witness :
  fst (delete_song 3
         (run [Scan [rec_a; rec_b; rec_c];
               Update 1 [("genre"%string, VStr "Rock")]] new_manager)) = true
  /\ graph_exact
       (snd (delete_song 3
               (run [Scan [rec_a; rec_b; rec_c];
                     Update 1 [("genre"%string, VStr "Rock")]] new_manager))).
Proof.
  assert (F : fst (delete_song 3
                     (run [Scan [rec_a; rec_b; rec_c];
                           Update 1 [("genre"%string, VStr "Rock")]]
                          new_manager)) = true)
    by (vm_compute; reflexivity).
  split; [exact F|].
  exact (X9_delete_graph_exact
           [Scan [rec_a; rec_b; rec_c];
            Update 1 [("genre"%string, VStr "Rock")]] 3 F).
Defined.

(** ** What a scan builds *)

Lemma scan_fold_songs (rs : list RawTrackMetadata) : forall m,
  scan_inv m ->
  map (deref (objs (fold_left scan_one rs m))) (sll (fold_left scan_one rs m))
  = map (deref (objs m)) (sll m) ++ songs_from (_next_song_id m) rs
  /\ _next_song_id (fold_left scan_one rs m)
     = _next_song_id m + Z.of_nat (List.length rs).
Proof.
  induction rs as [|r rs IH]; intros m S.
  - simpl. rewrite app_nil_r. split; [reflexivity|lia].
  - cbn [fold_left songs_from List.length].
    destruct (IH (scan_one m r) (scan_one_scan_inv m r S)) as [E N].
    rewrite E, N. clear E N IH.
    assert (R : refs_ok m) by (destruct S as [[_ R] _]; exact R).
    destruct (scan_one_fields m r) as (Es & Eo & _ & En & _).
    rewrite Es, Eo, En. split; [|lia].
    rewrite map_app. simpl. rewrite deref_app_new, <- app_assoc. simpl.
    f_equal. apply map_ext_in. intros l Hl.
    unfold refs_ok in R. rewrite Forall_forall in R.
    now rewrite deref_app_old by auto.
Qed.

Lemma scan_songs (rs : list RawTrackMetadata) (m : Library) :
  map (deref (objs (scan_and_build rs m))) (sll (scan_and_build rs m))
  = songs_from 1 rs
  /\ _next_song_id (scan_and_build rs m) = Z.of_nat (List.length rs) + 1.
Proof.
  rewrite scan_and_build_eq.
  destruct (scan_fold_songs rs (scan_reset m)
              (proj1 (scan_reset_scan_ids_inv m))) as [E N].
  change (sll (_rebuild_graph ?f)) with (sll f).
  change (objs (_rebuild_graph ?f)) with (objs f).
  change (_next_song_id (_rebuild_graph ?f)) with (_next_song_id f).
  rewrite E, N. split; [reflexivity|].
  change (_next_song_id (scan_reset m)) with 1. lia.
Qed.

Lemma songs_from_ids (rs : list RawTrackMetadata) : forall k,
  map song_id (songs_from (Z.of_nat k) rs)
  = map Z.of_nat (seq k (List.length rs)).
Proof.
  induction rs as [|r rs IH]; intros k; simpl; [reflexivity|].
  f_equal. rewrite <- IH. do 2 f_equal. lia.
Qed.

Lemma songs_from_In (s : Song) (rs : list RawTrackMetadata) : forall i,
  In s (songs_from i rs) -> exists r j, In r rs /\ s = record_song j r.
Proof.
  induction rs as [|r rs IH]; simpl; intros i; [tauto|].
  intros [<-|H].
  - exists r, i. auto.
  - destruct (IH _ H) as (r' & j & Hr & E). exists r', j. auto.
Qed.

(** X10. [scan_and_build] numbers the files from 1 in listing order:
    whatever the state before, the catalog afterwards holds one new song
    object per file, in the order of the listing, the k-th with id k, the
    metadata of its file, play count 0 and not a favorite; the id map has
    the keys 1, ..., n in this order and the id counter stands at n + 1. *)
Theorem X10_scan_numbers_files (rs : list RawTrackMetadata) (m : Library) :
  map (deref (objs (scan_and_build rs m))) (get_all_songs (scan_and_build rs m))
  = songs_from 1 rs
  /\ index_ids (scan_and_build rs m) = map Z.of_nat (seq 1 (List.length rs))
  /\ _next_song_id (scan_and_build rs m) = Z.of_nat (List.length rs) + 1.
Proof.
  destruct (scan_songs rs m) as [E N].
  split; [exact E|]. split; [|exact N].
  rewrite (index_ids_master _ (proj1 (scan_catalog_inv rs m))).
  unfold master_ids, ids_of.
  rewrite <- (map_map (deref (objs (scan_and_build rs m))) song_id), E.
  exact (songs_from_ids rs 1).
Qed.

Lemma score_same_genre (a b : Song) :
  genre a = genre b -> PyStr.truthy (genre a) = true -> 1 <= score a b.
Proof.
  intros E T. unfold score. rewrite <- E, T, String.eqb_refl. simpl.
  destruct (PyStr.truthy (artist a) && PyStr.truthy (artist b)
            && String.eqb (PyStr.lower (artist a)) (PyStr.lower (artist b)));
    destruct (negb (year a =? 0) && negb (year b =? 0)
              && (Z.abs (year a - year b) <=? 2)); lia.
Qed.

Lemma scan_directory_genre (dir : string) (names : list string) r :
  In r (scan_directory dir names) -> r_genre r = "Unknown"%string.
Proof.
  unfold scan_directory. intros H. apply in_map_iff in H.
  destruct H as (f & <- & _).
  now destruct (_infer_metadata_from_filename f).
Qed.

(** X11. Every file of a directory scan gets the genre "Unknown", so
    right after [scan_and_build] on a directory listing every track is
    among the similar songs of every other track: the graph is complete,
    whatever the artists are. *)
Theorem X11_directory_scan_links_all
    (dir : string) (names : list string) (m : Library) (a b : loc) :
  In a (get_all_songs (scan_and_build (scan_directory dir names) m)) ->
  In b (get_all_songs (scan_and_build (scan_directory dir names) m)) ->
  a <> b ->
  In (song_id (deref (objs (scan_and_build (scan_directory dir names) m)) b))
     (get_similar_songs
        (song_id (deref (objs (scan_and_build (scan_directory dir names) m))
                        a))
        (scan_and_build (scan_directory dir names) m)).
Proof.
  set (m' := scan_and_build (scan_directory dir names) m).
  intros Ha Hb N. apply (scan_graph_exact (scan_directory dir names) m); auto.
  fold m'.
  assert (G : forall l, In l (get_all_songs m') ->
                genre (deref (objs m') l) = "Unknown"%string).
  { intros l Hl.
    destruct (scan_songs (scan_directory dir names) m) as [E _]. fold m' in E.
    assert (Hs : In (deref (objs m') l) (songs_from 1 (scan_directory dir names))).
    { rewrite <- E. now apply in_map. }
    destruct (songs_from_In _ _ _ Hs) as (r & j & Hr & ->).
    simpl. now apply scan_directory_genre in Hr. }
  apply score_same_genre.
  - now rewrite !G.
  - now rewrite G.
Qed.

Lemma X11_witness :
  In 1%nat (get_all_songs
              (scan_and_build
                 (scan_directory "static/music"
                    ["Ann - Dawn.mp3"; "Bob - Dusk.mp3"]%string) new_manager))
  /\ In (song_id
           (deref (objs (scan_and_build
                           (scan_directory "static/music"
                              ["Ann - Dawn.mp3"; "Bob - Dusk.mp3"]%string)
                           new_manager)) 1%nat))
        (get_similar_songs
           (song_id
              (deref (objs (scan_and_build
                              (scan_directory "static/music"
                                 ["Ann - Dawn.mp3"; "Bob - Dusk.mp3"]%string)
                              new_manager)) 0%nat))
           (scan_and_build
              (scan_directory "static/music"
                 ["Ann - Dawn.mp3"; "Bob - Dusk.mp3"]%string) new_manager)).
Proof.
  assert (Ha : In 0%nat (get_all_songs
                 (scan_and_build
                    (scan_directory "static/music"
                       ["Ann - Dawn.mp3"; "Bob - Dusk.mp3"]%string)
                    new_manager))) by (vm_compute; left; reflexivity).
  assert (Hb : In 1%nat (get_all_songs
                 (scan_and_build
                    (scan_directory "static/music"
                       ["Ann - Dawn.mp3"; "Bob - Dusk.mp3"]%string)
                    new_manager))) by (vm_compute; right; left; reflexivity).
  split; [exact Hb|].
  exact (X11_directory_scan_links_all "static/music"
           ["Ann - Dawn.mp3"; "Bob - Dusk.mp3"]%string new_manager
           0%nat 1%nat Ha Hb (O_S 0)).
Defined.

(** ** The Up-Next queue inside the manager *)

Lemma enqueue_tight {A} (x : A) (q : Queue.t) :
  queue_tight q -> queue_tight (Queue.enqueue x q).
Proof.
  unfold queue_tight, queue_ok, Queue.enqueue. simpl.
  rewrite length_app. simpl. lia.
Qed.

Lemma dequeue_tight {A} (q : Queue.t (A := A)) :
  queue_tight q -> queue_tight (snd (Queue.dequeue q)).
Proof.
  unfold queue_tight, queue_ok, Queue.dequeue. intros [K T].
  destruct (Nat.leb_spec (List.length (Queue._data q)) (Queue._head_idx q));
    [simpl; auto|].
  destruct (Nat.ltb_spec 32 (S (Queue._head_idx q)));
    destruct (Nat.ltb_spec (List.length (Queue._data q))
                           (S (Queue._head_idx q) * 2)); simpl; lia.
Qed.

Lemma get_next_song_up_next cur pname rnd (m : Library) :
  up_next (snd (get_next_song cur pname rnd m)) = up_next m
  \/ up_next (snd (get_next_song cur pname rnd m))
     = snd (Queue.dequeue (up_next m)).
Proof.
  unfold get_next_song.
  destruct (playlist_next cur pname m); [now left|]. right.
  assert (D : up_next (snd (dequeue_song m)) = snd (Queue.dequeue (up_next m))).
  { unfold dequeue_song. now destruct (Queue.dequeue (up_next m)). }
  destruct (dequeue_song m) as [[q|] m1]; simpl in D; auto.
  destruct (truthy_id cur) as [c|]; auto.
  assert (S : up_next (snd (fst (get_next_similar_song c rnd m1)))
              = up_next m1).
  { unfold get_next_similar_song.
    destruct (Random.shuffle (get_similar_songs c m1) rnd) as [ns rnd'].
    destruct (Dict.mem Z.eqb c (graph m1));
      match goal with |- context [first_indexed ?i ?n] =>
        destruct (first_indexed i n) end; reflexivity. }
  destruct (get_next_similar_song c rnd m1) as [[[sim|] m2] rnd2];
    simpl in *; congruence.
Qed.

Lemma scan_up_next (rs : list RawTrackMetadata) (m : Library) :
  history (scan_and_build rs m) = history m
  /\ up_next (scan_and_build rs m) = up_next m.
Proof.
  rewrite scan_and_build_eq.
  destruct (scan_fold_kept rs (scan_reset m)) as (H & U & _).
  split; [exact H|exact U].
Qed.

Lemma apply_op_queue_tight (o : op) (m : Library) :
  queue_tight (up_next m) -> queue_tight (up_next (apply_op m o)).
Proof.
  intros T. destruct o; cbn [apply_op].
  - now rewrite (proj2 (scan_up_next records m)).
  - destruct (accepted fields); auto.
    destruct (get_song_by_id id m) as [l|] eqn:E.
    + destruct (update_song_fields id fields m l E)
        as (_ & _ & _ & _ & U & _).
      now rewrite U.
    + unfold update_song. unfold get_song_by_id in E. now rewrite E.
  - destruct (Dict.mem Z.eqb id (_song_index m)) eqn:M;
      [|now rewrite (delete_song_unknown id m M)].
    destruct (delete_song_more_fields id m M) as (_ & _ & _ & U).
    rewrite U. unfold queue_tight, queue_ok. simpl. lia.
  - unfold create_playlist.
    now destruct (Dict.mem String.eqb name (playlists m)).
  - exact T.
  - unfold add_song_to_playlist.
    destruct (Dict.get String.eqb name (playlists m)) as [pl|];
      destruct (Dict.get Z.eqb id (_song_index m));
      try destruct (Playlist.truthy pl); exact T.
  - unfold remove_song_from_playlist.
    destruct (Dict.get String.eqb name (playlists m)) as [pl|];
      try destruct (Playlist.truthy pl);
      try destruct (Playlist.remove (objs m) id pl); exact T.
  - unfold enqueue_song. destruct (Dict.get Z.eqb id (_song_index m)); auto.
    now apply enqueue_tight.
  - unfold dequeue_song.
    pose proof (dequeue_tight (up_next m) T) as D.
    now destruct (Queue.dequeue (up_next m)).
  - now destruct (song <? List.length (objs m))%nat.
  - destruct (get_next_song_up_next cur pname rnd m) as [E|E]; rewrite E;
      auto using dequeue_tight.
  - unfold get_previous_song.
    destruct (playlist_prev cur pname m); [exact T|].
    destruct (Stack.is_empty (history m)); [exact T|].
    now destruct (Stack.pop (history m)).
Qed.

Lemma reachable_queue_tight (ops : list op) :
  queue_tight (up_next (run ops new_manager)).
Proof.
  assert (G : forall m, queue_tight (up_next m) ->
                        queue_tight (up_next (run ops m))).
  { unfold run. induction ops as [|o ops IH]; simpl; intros m T; auto.
    apply IH. now apply apply_op_queue_tight. }
  apply G. unfold queue_tight, queue_ok. simpl. lia.
Qed.

(** X12. In every state a manager can be in, [enqueue_song] of a known id
    puts that track at the back of the Up-Next list and reports [True],
    whatever has been dequeued or deleted before; an unknown id is
    reported with [False] and changes nothing. *)
Theorem X12_enqueue_song_appends (ops : list op) (id : Z) :
  match get_song_by_id id (run ops new_manager) with
  | Some l =>
      fst (enqueue_song id (run ops new_manager)) = true
      /\ get_queue_list (snd (enqueue_song id (run ops new_manager)))
         = get_queue_list (run ops new_manager) ++ [l]
  | None => enqueue_song id (run ops new_manager) = (false, run ops new_manager)
  end.
Proof.
  destruct (reachable_queue_tight ops) as [K _].
  unfold enqueue_song, get_song_by_id, get_queue_list.
  destruct (Dict.get Z.eqb id (_song_index (run ops new_manager)));
    [|reflexivity].
  split; [reflexivity|]. simpl. now apply to_list_enqueue.
Qed.

(** X13. In every state a manager can be in, the backing list of the
    Up-Next queue holds only a short consumed prefix: at most 32 entries
    or at most as many as are still waiting.  The compaction in
    [Queue.dequeue] and the reset in [delete_song] keep it so. *)
Theorem X13_queue_prefix_bounded (ops : list op) :
  (Queue._head_idx (up_next (run ops new_manager))
   <= Nat.max 32 (List.length (get_queue_list (run ops new_manager))))%nat
  /\ List.length (Queue._data (up_next (run ops new_manager)))
     = (Queue._head_idx (up_next (run ops new_manager))
        + List.length (get_queue_list (run ops new_manager)))%nat.
Proof.
  destruct (reachable_queue_tight ops) as [K T].
  unfold get_queue_list, Queue.to_list, queue_ok in *.
  rewrite length_skipn. lia.
Qed.

(** ** History *)

Lemma getattr_play_count (s : Song) (k : string) (z : Z) :
  k <> "play_count"%string ->
  getattr (mkSong (song_id s) (title s) (artist s) (album s) (genre s)
                  (year s) (duration_seconds s) (file_path s) z
                  (is_favorite s)) k
  = getattr s k.
Proof.
  intros N. unfold getattr.
  repeat match goal with
  | |- context [String.eqb k ?c] =>
      destruct (String.eqb_spec k c); [try reflexivity; try contradiction|]
  end; reflexivity.
Qed.

(** X14. [record_play song] counts one more play on that song object and
    changes nothing else of it; no other object changes, the song becomes
    the first entry of [get_history_list], and the catalog, the queue and
    the playlists stay as they are. *)
Theorem X14_record_play_counts_once (m : Library) (l : loc) (n : nat) :
  (l < List.length (objs m))%nat ->
  play_count (deref (objs (record_play l m)) l)
  = play_count (deref (objs m) l) + 1
  /\ (forall k, k <> "play_count"%string ->
        getattr (deref (objs (record_play l m)) l) k
        = getattr (deref (objs m) l) k)
  /\ (forall l', l' <> l ->
        deref (objs (record_play l m)) l' = deref (objs m) l')
  /\ get_history_list (S n) (record_play l m) = l :: get_history_list n m
  /\ get_all_songs (record_play l m) = get_all_songs m
  /\ _song_index (record_play l m) = _song_index m
  /\ get_queue_list (record_play l m) = get_queue_list m
  /\ playlists (record_play l m) = playlists m.
Proof.
  intros L.
  destruct (record_play_fields l m)
    as (_ & _ & _ & _ & _ & _ & _ & _ & H & O).
  rewrite O. split; [|split; [|split; [|split]]].
  - now rewrite deref_heap_set_same.
  - intros k N. rewrite deref_heap_set_same by exact L.
    now apply getattr_play_count.
  - intros l' N. now apply deref_heap_set_other.
  - unfold get_history_list, Stack.to_list. rewrite H, rev_app_distr.
    reflexivity.
  - repeat split.
Qed.

Lemma X14_witness :
  (0 < List.length (objs lib3))%nat
  /\ play_count (deref (objs (record_play 0%nat lib3)) 0%nat)
     = play_count (deref (objs lib3) 0%nat) + 1.
Proof.
  assert (L : (0 < List.length (objs lib3))%nat)
    by (vm_compute; repeat constructor).
  split; [exact L|].
  exact (proj1 (X14_record_play_counts_once lib3 0%nat 0%nat L)).
Defined.

Lemma playlist_node_unfilled cur pname (m : Library) :
  playlists_unfilled m -> playlist_node cur pname m = None.
Proof.
  unfold playlists_unfilled, playlist_node. intros U.
  destruct (truthy_name pname) as [n|]; [|reflexivity].
  destruct (truthy_id cur) as [c|]; [|reflexivity].
  destruct (Dict.get String.eqb n (playlists m)) as [pl|] eqn:E;
    [|reflexivity].
  apply dict_get_In in E. destruct E as (k & Hk).
  rewrite Forall_forall in U. specialize (U _ Hk). simpl in U.
  unfold Playlist.truthy, Playlist.len. now rewrite U.
Qed.

(** X15. After [record_play a] and then [record_play b] in a state a
    manager can be in, [get_previous_song] returns [a], whatever current
    id and playlist name it is given, and [a] is the newest entry of the
    history again. *)
Theorem X15_previous_after_two_plays
    (ops : list op) (a b : loc) (cur : option Z) (pname : option string) :
  fst (get_previous_song cur pname
         (record_play b (record_play a (run ops new_manager)))) = Some a
  /\ history (snd (get_previous_song cur pname
                     (record_play b (record_play a (run ops new_manager)))))
     = history (run ops new_manager) ++ [a].
Proof.
  set (m := run ops new_manager).
  assert (U : playlists_unfilled (record_play b (record_play a m))).
  { change (playlists_unfilled m).
    apply reachable_playlists_unfilled. now exists ops. }
  unfold get_previous_song, playlist_prev.
  rewrite (playlist_node_unfilled cur pname _ U).
  rewrite previous_song_history.
  change (history (record_play b (record_play a m)))
    with ((history m ++ [a]) ++ [b]).
  rewrite removelast_last. split.
  - apply peek_snoc.
  - reflexivity.
Qed.

(** ** Playlists *)

(** X16. In every state a manager can be in, every playlist is empty:
    [add_song_to_playlist] returns [False] and changes nothing, for every
    name and id, because a playlist without nodes is a false value in
    [if not pl]; [remove_song_from_playlist] returns [False] and
    [get_playlist_songs] returns the empty list. *)
Theorem X16_playlists_stay_empty (ops : list op) (n : string) (id : Z) :
  add_song_to_playlist n id (run ops new_manager)
  = (false, run ops new_manager)
  /\ remove_song_from_playlist n id (run ops new_manager)
     = (false, run ops new_manager)
  /\ get_playlist_songs n (run ops new_manager) = [].
Proof.
  set (m := run ops new_manager).
  assert (U : playlists_unfilled m).
  { apply reachable_playlists_unfilled. now exists ops. }
  assert (T : forall pl, Dict.get String.eqb n (playlists m) = Some pl ->
                Playlist.truthy pl = false).
  { intros pl E. apply dict_get_In in E. destruct E as (k & Hk).
    unfold playlists_unfilled in U. rewrite Forall_forall in U.
    specialize (U _ Hk). simpl in U.
    unfold Playlist.truthy, Playlist.len. now rewrite U. }
  unfold add_song_to_playlist, remove_song_from_playlist, get_playlist_songs.
  destruct (Dict.get String.eqb n (playlists m)) as [pl|].
  - rewrite (T pl eq_refl).
    now destruct (Dict.get Z.eqb id (_song_index m)).
  - repeat split.
Qed.

(** X17. In every state a manager can be in, the playlist name given to
    [get_next_song] and [get_previous_song] has no effect: the playlist
    context never yields a song, so the next song comes from the queue,
    the graph or the random choice, and the previous one from the
    history. *)
Theorem X17_playlist_context_unused
    (ops : list op) (cur : option Z) (pname : option string)
    (rnd : list nat) :
  get_next_song cur pname rnd (run ops new_manager)
  = get_next_song cur None rnd (run ops new_manager)
  /\ get_previous_song cur pname (run ops new_manager)
     = get_previous_song cur None (run ops new_manager).
Proof.
  set (m := run ops new_manager).
  assert (U : playlists_unfilled m).
  { apply reachable_playlists_unfilled. now exists ops. }
  unfold get_next_song, get_previous_song, playlist_next, playlist_prev.
  now rewrite !(playlist_node_unfilled cur pname m U),
              !(playlist_node_unfilled cur None m U).
Qed.

Lemma unlink_find (h : heap) (id : Z) (xs : list loc) : forall k,
  match Playlist.find_from h id xs k with
  | Some j =>
      (k <= j)%nat
      /\ unlink_first (has_id h id) xs
         = (true, firstn (j - k) xs ++ skipn (S (j - k)) xs)
  | None => unlink_first (has_id h id) xs = (false, xs)
  end.
Proof.
  induction xs as [|x xs IH]; intros k; simpl; [reflexivity|].
  destruct (has_id h id x).
  - split; [lia|]. now rewrite Nat.sub_diag.
  - specialize (IH (S k)).
    destruct (Playlist.find_from h id xs (S k)) as [j|].
    + destruct IH as [L E]. split; [lia|]. rewrite E.
      replace (j - k)%nat with (S (j - S k)) by lia. reflexivity.
    + now rewrite IH.
Qed.

(** X18. [Playlist.remove] unlinks exactly the node [Playlist.find_node]
    finds: the first node holding the id goes, the nodes before and after
    it keep their order, and the result is [True]; when no node holds the
    id the playlist is unchanged and the result is [False]. *)
Theorem X18_playlist_remove_found_node (h : heap) (id : Z) (p : Playlist.t) :
  match Playlist.find_node h id p with
  | Some i =>
      Playlist.remove h id p
      = (true, Playlist.mk (Playlist.name p)
                 (firstn i (Playlist.songs p)
                  ++ skipn (S i) (Playlist.songs p)))
  | None => Playlist.remove h id p = (false, p)
  end.
Proof.
  unfold Playlist.find_node, Playlist.remove.
  pose proof (unlink_find h id (Playlist.songs p) 0) as U.
  destruct (Playlist.find_from h id (Playlist.songs p) 0) as [i|].
  - destruct U as [_ E]. rewrite E, Nat.sub_0_r. reflexivity.
  - rewrite U. now destruct p.
Qed.

Lemma dict_str_del_set {V} (n : string) (v : V)
                       (d : Dict.t (K := string) (V := V)) :
  Dict.get String.eqb n d = None ->
  Dict.del String.eqb n (Dict.set String.eqb n v d) = d.
Proof.
  induction d as [|[k v0] d IH]; simpl.
  - now rewrite String.eqb_refl.
  - destruct (String.eqb n k) eqn:E; [discriminate|]. intros G.
    simpl. rewrite E. now rewrite IH.
Qed.

Lemma dict_str_get_set {V} (n : string) (v : V)
                       (d : Dict.t (K := string) (V := V)) :
  Dict.get String.eqb n d = None ->
  Dict.get String.eqb n (Dict.set String.eqb n v d) = Some v.
Proof.
  induction d as [|[k v0] d IH]; simpl.
  - now rewrite String.eqb_refl.
  - destruct (String.eqb n k) eqn:E; [discriminate|]. intros G.
    simpl. rewrite E. now apply IH.
Qed.

(** X19. [create_playlist] with a name that is not yet taken succeeds and
    gives a playlist without songs; creating the same name again is
    refused and changes nothing; and [delete_playlist] of that name
    succeeds and gives back the state before the creation. *)
Theorem X19_create_delete_playlist (m : Library) (n : string) :
  Dict.mem String.eqb n (playlists m) = false ->
  fst (create_playlist n m) = true
  /\ get_playlist_songs n (snd (create_playlist n m)) = []
  /\ create_playlist n (snd (create_playlist n m))
     = (false, snd (create_playlist n m))
  /\ delete_playlist n (snd (create_playlist n m)) = (true, m).
Proof.
  intros M. unfold create_playlist at 1 2 4 5 6. rewrite M.
  assert (G : Dict.get String.eqb n (playlists m) = None).
  { unfold Dict.mem in M.
    now destruct (Dict.get String.eqb n (playlists m)). }
  cbn [fst snd]. split; [reflexivity|]. split; [|split].
  - unfold get_playlist_songs, set_playlists. cbn [playlists].
    now rewrite (dict_str_get_set n _ _ G).
  - unfold create_playlist, set_playlists, Dict.mem. cbn [playlists].
    now rewrite (dict_str_get_set n _ _ G).
  - unfold delete_playlist, set_playlists, Dict.mem. cbn [playlists].
    rewrite (dict_str_get_set n _ _ G), (dict_str_del_set n _ _ G).
    now destruct m.
Qed.

Lemma X19_witness :
  Dict.mem String.eqb "Drive"%string (playlists lib3) = false
  /\ delete_playlist "Drive"%string (snd (create_playlist "Drive"%string lib3))
     = (true, lib3).
Proof.
  assert (M : Dict.mem String.eqb "Drive"%string (playlists lib3) = false)
    by (vm_compute; reflexivity).
  split; [exact M|].
  exact (proj2 (proj2 (proj2 (X19_create_delete_playlist lib3 "Drive"%string M)))).
Defined.

(** ** Stack and master sequence *)

(** X20. The history stack is last-in first-out: after [push x], [peek]
    and [pop] return [x], [pop] leaves the stack as it was before the
    push, the stack is not empty, and [to_list] lists [x] first, followed
    by the older entries. *)
Theorem X20_stack_lifo {A} (x : A) (s : Stack.t (A := A)) :
  Stack.pop (Stack.push x s) = (Some x, s)
  /\ Stack.peek (Stack.push x s) = Some x
  /\ Stack.is_empty (Stack.push x s) = false
  /\ Stack.to_list (Stack.push x s) = x :: Stack.to_list s.
Proof.
  unfold Stack.pop, Stack.is_empty, Stack.to_list, Stack.push.
  rewrite rev_app_distr, peek_snoc.
  pose proof (removelast_last s x) as R.
  destruct (s ++ [x]) as [|y ys] eqn:E.
  - now destruct s.
  - rewrite R. repeat split.
Qed.

(** X21. [SinglyLinkedList.delete_by_song_id] reports [True] exactly when
    some node holds the id, and then the chain is one node shorter; when
    it reports [False] the chain is unchanged.  Appending a song with
    [insert_end] and deleting its id, when no earlier node holds that id,
    gives back the chain. *)
Theorem X21_sll_delete_one_node (h : heap) (id : Z) (s : loc)
                                (l : SinglyLinkedList.t) :
  fst (SinglyLinkedList.delete_by_song_id h id l)
  = existsb (has_id h id) (SinglyLinkedList.traverse l)
  /\ (List.length (SinglyLinkedList.traverse
                     (snd (SinglyLinkedList.delete_by_song_id h id l)))
      + (if fst (SinglyLinkedList.delete_by_song_id h id l) then 1 else 0)
      = List.length (SinglyLinkedList.traverse l))%nat
  /\ (fst (SinglyLinkedList.delete_by_song_id h id l) = false ->
      snd (SinglyLinkedList.delete_by_song_id h id l) = l)
  /\ (existsb (has_id h id) (SinglyLinkedList.traverse l) = false ->
      has_id h id s = true ->
      SinglyLinkedList.delete_by_song_id h id
        (SinglyLinkedList.insert_end s l) = (true, l)).
Proof.
  unfold SinglyLinkedList.delete_by_song_id, SinglyLinkedList.traverse,
    SinglyLinkedList.insert_end.
  induction l as [|x xs IH]; simpl.
  - repeat split. intros _ E. now rewrite E.
  - destruct (has_id h id x); simpl;
      [repeat split; try lia; discriminate|].
    destruct IH as (F & L & U & R).
    destruct (unlink_first (has_id h id) xs) as [b r]. simpl in *.
    split; [exact F|]. split; [lia|]. split.
    + intros E. now rewrite U.
    + intros E T. now rewrite R.
Qed.

Lemma X21_witness :
  existsb (has_id (objs lib3) 3) (SinglyLinkedList.traverse [0%nat; 1%nat])
  = false
  /\ has_id (objs lib3) 3 2%nat = true
  /\ SinglyLinkedList.delete_by_song_id (objs lib3) 3
       (SinglyLinkedList.insert_end 2%nat [0%nat; 1%nat])
     = (true, [0%nat; 1%nat]).
Proof.
  assert (E : existsb (has_id (objs lib3) 3)
                (SinglyLinkedList.traverse [0%nat; 1%nat]) = false)
    by (vm_compute; reflexivity).
  assert (T : has_id (objs lib3) 3 2%nat = true) by (vm_compute; reflexivity).
  split; [exact E|]. split; [exact T|].
  exact (proj2 (proj2 (proj2 (X21_sll_delete_one_node (objs lib3) 3 2%nat
                                [0%nat; 1%nat]))) E T).
Defined.

(** ** What the calls leave alone *)

(** X22. A successful [update_song] touches one song object and the
    structures derived from it, nothing else: the master sequence keeps
    its tracks and their order, every id resolves as before, the queue,
    the history, the playlists and the id counter are unchanged, and every
    other song object is as it was. *)
Theorem X22_update_touches_one_track
    (m : Library) (id : Z) (l : loc) (fs : list (string * pyval)) :
  get_song_by_id id m = Some l ->
  get_all_songs (snd (update_song id fs m)) = get_all_songs m
  /\ (forall id', get_song_by_id id' (snd (update_song id fs m))
                  = get_song_by_id id' m)
  /\ get_queue_list (snd (update_song id fs m)) = get_queue_list m
  /\ history (snd (update_song id fs m)) = history m
  /\ playlists (snd (update_song id fs m)) = playlists m
  /\ _next_song_id (snd (update_song id fs m)) = _next_song_id m
  /\ (forall l', l' <> l ->
        deref (objs (snd (update_song id fs m))) l' = deref (objs m) l').
Proof.
  intros G.
  destruct (update_song_fields id fs m l G)
    as (O & S & I & H & U & P & N & _).
  unfold get_all_songs, get_song_by_id, get_queue_list.
  rewrite O, S, I, H, U, P, N. repeat split.
  intros l' Nl. now apply deref_heap_set_other.
Qed.

Lemma X22_witness :
  get_song_by_id 2 lib3 = Some 1%nat
  /\ get_all_songs
       (snd (update_song 2 [("title"%string, VStr "Noon")] lib3))
     = get_all_songs lib3.
Proof.
  assert (G : get_song_by_id 2 lib3 = Some 1%nat) by (vm_compute; reflexivity).
  split; [exact G|].
  exact (proj1 (X22_update_touches_one_track lib3 2 1%nat
                  [("title"%string, VStr "Noon")] G)).
Defined.

Lemma get_next_song_history cur pname rnd (m : Library) :
  history (snd (get_next_song cur pname rnd m)) = history m.
Proof.
  unfold get_next_song.
  destruct (playlist_next cur pname m); [reflexivity|].
  assert (D : history (snd (dequeue_song m)) = history m).
  { unfold dequeue_song. now destruct (Queue.dequeue (up_next m)). }
  destruct (dequeue_song m) as [[q|] m1]; simpl in D; auto.
  destruct (truthy_id cur) as [c|]; auto.
  assert (S : history (snd (fst (get_next_similar_song c rnd m1)))
              = history m1).
  { unfold get_next_similar_song.
    destruct (Random.shuffle (get_similar_songs c m1) rnd) as [ns rnd'].
    destruct (Dict.mem Z.eqb c (graph m1));
      match goal with |- context [first_indexed ?i ?n] =>
        destruct (first_indexed i n) end; reflexivity. }
  destruct (get_next_similar_song c rnd m1) as [[[sim|] m2] rnd2];
    simpl in *; congruence.
Qed.

Lemma dequeue_tl (m : Library) :
  Queue.to_list (snd (Queue.dequeue (up_next m))) = tl (get_queue_list m).
Proof.
  assert (E : snd (Queue.dequeue (up_next m)) = up_next (snd (dequeue_song m))).
  { unfold dequeue_song. now destruct (Queue.dequeue (up_next m)). }
  rewrite E. destruct (get_queue_list m) as [|q rest] eqn:Q.
  - now rewrite (dequeue_song_empty m Q).
  - exact (proj2 (dequeue_song_front m q rest Q)).
Qed.

(** X23. [get_next_song] never changes the catalog: master sequence,
    genre index, title tree, id map, id counter and song objects are as
    before, and so are history and playlists.  The queue is as before or
    has lost its front entry, and every track has the same similar songs
    as before, possibly listed in another order. *)
Theorem X23_next_song_keeps_catalog
    (m : Library) (cur : option Z) (pname : option string) (rnd : list nat) :
  same_core m (snd (get_next_song cur pname rnd m))
  /\ history (snd (get_next_song cur pname rnd m)) = history m
  /\ playlists (snd (get_next_song cur pname rnd m)) = playlists m
  /\ (get_queue_list (snd (get_next_song cur pname rnd m)) = get_queue_list m
      \/ get_queue_list (snd (get_next_song cur pname rnd m))
         = tl (get_queue_list m))
  /\ (forall a x,
        In x (get_similar_songs a (snd (get_next_song cur pname rnd m)))
        <-> In x (get_similar_songs a m)).
Proof.
  split; [apply get_next_song_core|].
  split; [apply get_next_song_history|].
  split; [apply get_next_song_playlists|].
  split; [|exact (proj1 (get_next_song_graph cur pname rnd m))].
  destruct (get_next_song_up_next cur pname rnd m) as [E|E];
    unfold get_queue_list at 1 3; rewrite E; [now left|right].
  apply dequeue_tl.
Qed.

Lemma scan_fold_objs (rs : list RawTrackMetadata) : forall m,
  objs (fold_left scan_one rs m)
  = objs m ++ songs_from (_next_song_id m) rs
  /\ sll (fold_left scan_one rs m)
     = sll m ++ seq (List.length (objs m)) (List.length rs).
Proof.
  induction rs as [|r rs IH]; intros m.
  - simpl. now rewrite !app_nil_r.
  - cbn [fold_left songs_from List.length seq].
    destruct (IH (scan_one m r)) as [O S]. rewrite O, S. clear O S IH.
    destruct (scan_one_fields m r) as (Es & Eo & _ & En & _).
    rewrite Es, Eo, En, length_app, <- !app_assoc. simpl.
    now rewrite Nat.add_1_r.
Qed.

(** X24. [scan_and_build] does not clear the playback state: history,
    queue and playlists are as before, the song objects of the earlier
    catalog still exist unchanged (the queue and the history keep
    referring to them), and the new catalog consists of the objects
    appended for the files of the listing. *)
Theorem X24_rescan_keeps_playback (rs : list RawTrackMetadata) (m : Library) :
  history (scan_and_build rs m) = history m
  /\ get_queue_list (scan_and_build rs m) = get_queue_list m
  /\ playlists (scan_and_build rs m) = playlists m
  /\ objs (scan_and_build rs m) = objs m ++ songs_from 1 rs
  /\ get_all_songs (scan_and_build rs m)
     = seq (List.length (objs m)) (List.length rs).
Proof.
  destruct (scan_up_next rs m) as [H U].
  split; [exact H|]. split; [unfold get_queue_list; now rewrite U|].
  split; [apply scan_playlists|].
  rewrite scan_and_build_eq.
  destruct (scan_fold_objs rs (scan_reset m)) as [O S].
  split; [exact O|exact S].
Qed.

(** ** Serialization and the web layer *)

(** X25. [song_to_dict] carries every field of the song under its name,
    and an [audio_url] that always starts with a slash: the file path
    itself when it starts with one, the path behind a slash otherwise. *)
Theorem X25_song_to_dict_fields (s : Song) (k : string) :
  (k <> "audio_url"%string ->
   Dict.get String.eqb k (song_to_dict s) = getattr s k)
  /\ Dict.get String.eqb "audio_url"%string (song_to_dict s)
     = Some (VStr (audio_url s))
  /\ String.prefix "/" (audio_url s) = true
  /\ (audio_url s = file_path s \/ audio_url s = ("/" ++ file_path s)%string).
Proof.
  split; [|split; [reflexivity|split]].
  - intros N. unfold song_to_dict, getattr. cbn [Dict.get].
    repeat match goal with
    | |- context [String.eqb k ?c] =>
        destruct (String.eqb_spec k c); [try reflexivity; try contradiction|]
    end; reflexivity.
  - unfold audio_url.
    destruct (String.prefix "/" (file_path s)) eqn:E; [exact E|].
    simpl. now destruct (file_path s).
  - unfold audio_url. destruct (String.prefix "/" (file_path s)); auto.
Qed.

Lemma X25_witness :
  Dict.get String.eqb "title"%string (song_to_dict (deref (objs lib3) 0%nat))
  = getattr (deref (objs lib3) 0%nat) "title"%string.
Proof.
  exact (proj1 (X25_song_to_dict_fields (deref (objs lib3) 0%nat)
                  "title"%string)
               (fun E => match E in _ = y
                               return match y with
                                      | String "a"%char _ => False
                                      | _ => True
                                      end
                         with eq_refl => I end)).
Defined.

Lemma edit_entry_ok (parse_int : string -> option Z) (k v : string) :
  existsb (String.eqb k) edit_keys = true ->
  negb (existsb (String.eqb k) param_names) = true
  /\ well_typed_entry
       (if String.eqb k "year"
        then (k, VInt (year_value parse_int v)) else (k, VStr v)) = true
  /\ In k edit_keys.
Proof.
  unfold edit_keys. intros E. simpl in E.
  destruct (String.eqb_spec k "title") as [->|_];
    [repeat split; simpl; auto|].
  destruct (String.eqb_spec k "artist") as [->|_];
    [repeat split; simpl; auto|].
  destruct (String.eqb_spec k "album") as [->|_];
    [repeat split; simpl; auto|].
  destruct (String.eqb_spec k "genre") as [->|_];
    [repeat split; simpl; auto|].
  destruct (String.eqb_spec k "year") as [->|_];
    [repeat split; simpl; auto 6|].
  discriminate.
Qed.

(** X26. The updates the web layer issues are calls the manager accepts:
    [admin_edit_song] passes only the keywords title, artist, album, genre
    and year, none of which collides with a parameter of [update_song],
    with text values and an integer year, whatever the form holds; and
    [api_favorite] passes the favorite flag as a boolean. *)
Theorem X26_web_updates_accepted
    (parse_int : string -> option Z) (form : list (string * string))
    (is_fav : bool) :
  accepted (edit_fields parse_int form) = true
  /\ Forall (fun kv => In (fst kv) edit_keys) (edit_fields parse_int form)
  /\ accepted (favorite_fields is_fav) = true.
Proof.
  assert (I : forall e, In e (edit_fields parse_int form) ->
            exists k v,
              existsb (String.eqb k) edit_keys = true
              /\ e = (if String.eqb k "year"
                      then (k, VInt (year_value parse_int v))
                      else (k, VStr v))).
  { unfold edit_fields. intros e He. apply in_map_iff in He.
    destruct He as ([k v] & <- & Hkv). apply filter_In in Hkv.
    exists k, v. split; [exact (proj2 Hkv)|reflexivity]. }
  split; [|split; [|reflexivity]].
  - unfold accepted, binds_kwargs, well_typed.
    apply andb_true_iff. split; apply forallb_forall; intros e He;
      destruct (I e He) as (k & v & E & ->);
      destruct (edit_entry_ok parse_int k v E) as (B & W & _); auto.
    now destruct (String.eqb k "year").
  - apply Forall_forall. intros e He.
    destruct (I e He) as (k & v & E & ->).
    destruct (edit_entry_ok parse_int k v E) as (_ & _ & K).
    now destruct (String.eqb k "year").
Qed.

(** ** Metadata from file names *)

Lemma substring_nil (n m : nat) : substring n m EmptyString = EmptyString.
Proof. now destruct n, m. Qed.

Lemma substring_length (s : string) : forall n m,
  String.length (substring n m s) = Nat.min m (String.length s - n).
Proof.
  induction s as [|c s IH]; intros n m.
  - rewrite substring_nil. simpl. now rewrite Nat.min_0_r.
  - destruct n as [|n]; simpl.
    + destruct m as [|m]; simpl; [reflexivity|].
      rewrite IH. now rewrite Nat.sub_0_r.
    + apply IH.
Qed.

Lemma substring_add (s : string) : forall n a b,
  substring n (a + b) s
  = (substring n a s ++ substring (n + a) b s)%string.
Proof.
  induction s as [|c s IH]; intros n a b.
  - now rewrite !substring_nil.
  - destruct n as [|n].
    + destruct a as [|a]; [reflexivity|].
      cbn [Nat.add substring String.append]. f_equal. apply (IH 0%nat).
    + cbn [Nat.add substring]. apply IH.
Qed.

Lemma substring_all (s : string) : substring 0 (String.length s) s = s.
Proof. induction s as [|c s IH]; simpl; [reflexivity|now rewrite IH]. Qed.

(** X27. [_infer_metadata_from_filename] splits the file name without
    directory and extension at the first " - ": artist and title joined by
    " - " give that name back, and no " - " starts inside the artist.  A
    name without " - " is the title, with the artist "Unknown Artist". *)
Theorem X27_filename_splits_at_first_dash (filename : string) :
  match String.index 0 " - " (splitext_root (basename filename)) with
  | Some i =>
      splitext_root (basename filename)
      = (fst (_infer_metadata_from_filename filename) ++ " - "
         ++ snd (_infer_metadata_from_filename filename))%string
      /\ String.length (fst (_infer_metadata_from_filename filename)) = i
      /\ forall p, (p < i)%nat ->
           substring p 3 (splitext_root (basename filename))
           <> " - "%string
  | None =>
      _infer_metadata_from_filename filename
      = ("Unknown Artist"%string, splitext_root (basename filename))
  end.
Proof.
  unfold _infer_metadata_from_filename.
  set (name := splitext_root (basename filename)).
  destruct (String.index 0 " - " name) as [i|] eqn:E; [|reflexivity].
  cbn [fst snd].
  pose proof (index_correct1 _ _ _ _ E) as C. simpl String.length in C.
  assert (L : (i + 3 <= String.length name)%nat).
  { pose proof (substring_length name i 3) as Le. rewrite C in Le.
    change (String.length " - ") with 3%nat in Le. lia. }
  split; [|split].
  - rewrite <- C at 1.
    rewrite <- substring_add, <- substring_add.
    replace (i + (3 + (String.length name - (i + 3))))%nat
      with (String.length name) by lia.
    symmetry. apply substring_all.
  - rewrite substring_length. lia.
  - intros p Hp. apply (index_correct2 _ _ _ _ E p); lia.
Qed.

(** ** No neighbour is listed twice *)

Lemma list_set_perm {A} (xs : list A) : forall i a a',
  nth_error xs i = Some a ->
  Permutation (a' :: xs) (a :: Random.list_set xs i a').
Proof.
  induction xs as [|x xs IH]; intros [|i] a a' E; simpl in *;
    try discriminate.
  - inversion E; subst. apply perm_swap.
  - eapply perm_trans; [apply perm_swap|].
    eapply perm_trans; [apply perm_skip, (IH i a a' E)|]. apply perm_swap.
Qed.

Lemma swap_perm {A} (xs : list A) (i j : nat) :
  Permutation (Random.swap xs i j) xs.
Proof.
  unfold Random.swap.
  destruct (nth_error xs i) as [a|] eqn:Ei; [|reflexivity].
  destruct (nth_error xs j) as [b|] eqn:Ej; [|reflexivity].
  assert (Li : (i < List.length xs)%nat)
    by (apply nth_error_Some; congruence).
  pose proof (list_set_perm xs i a b Ei) as P1.
  assert (Ej' : nth_error (Random.list_set xs i b) j = Some b).
  { rewrite nth_error_list_set. apply Nat.ltb_lt in Li. rewrite Li.
    destruct (j =? i)%nat; simpl; auto. }
  pose proof (list_set_perm (Random.list_set xs i b) j b a Ej') as P2.
  apply (Permutation_cons_inv (a := b)).
  symmetry. eapply perm_trans; [exact P1|exact P2].
Qed.

Lemma shuffle_perm {A} (xs : list A) rnd :
  Permutation (fst (Random.shuffle xs rnd)) xs.
Proof.
  unfold Random.shuffle. generalize (Nat.pred (List.length xs)) as i.
  intros i. revert xs rnd.
  induction i as [|i IH]; intros xs rnd; simpl; [reflexivity|].
  destruct (Random.randbelow (S (S i)) rnd) as [j rnd'].
  eapply perm_trans; [apply IH|apply swap_perm].
Qed.

Lemma link_nodup (a b : Z) (g : SongGraph.t) :
  (forall v, NoDup (SongGraph.neighbors v g)) ->
  forall v, NoDup (SongGraph.neighbors v (SongGraph.link a b g)).
Proof.
  intros N v. unfold SongGraph.link.
  destruct (existsb (Z.eqb b) (SongGraph.neighbors a g)) eqn:E; [apply N|].
  rewrite neighbors_set. destruct (Z.eqb_spec v a) as [->|_]; [|apply N].
  apply NoDup_app; repeat split; auto.
  - constructor; [intros []|constructor].
  - intros x Hx [<-|[]].
    assert (T : existsb (Z.eqb b) (SongGraph.neighbors a g) = true).
    { apply existsb_exists. exists b. split; auto. apply Z.eqb_refl. }
    congruence.
Qed.

Lemma add_edge_nodup (a b : Z) (g : SongGraph.t) :
  (forall v, NoDup (SongGraph.neighbors v g)) ->
  forall v, NoDup (SongGraph.neighbors v (SongGraph.add_edge a b g)).
Proof.
  intros N. unfold SongGraph.add_edge. destruct (a =? b); [exact N|].
  apply link_nodup, link_nodup. intros v.
  rewrite !neighbors_add_vertex. apply N.
Qed.

Lemma rebuild_rows_nodup (h : heap) (songs : list loc) : forall g,
  (forall v, NoDup (SongGraph.neighbors v g)) ->
  forall v, NoDup (SongGraph.neighbors v (rebuild_rows h songs g)).
Proof.
  induction songs as [|a rest IH]; simpl; intros g N; [exact N|].
  apply IH. clear IH. unfold rebuild_row. revert g N.
  induction rest as [|b rest IH]; simpl; intros g N; [exact N|].
  apply IH. destruct (1 <=? score (deref h a) (deref h b)); auto.
  now apply add_edge_nodup.
Qed.

Lemma get_next_song_nodup cur pname rnd (m : Library) :
  (forall v, NoDup (SongGraph.neighbors v (graph m))) ->
  forall v, NoDup (SongGraph.neighbors v
                     (graph (snd (get_next_song cur pname rnd m)))).
Proof.
  intros N. unfold get_next_song.
  destruct (playlist_next cur pname m); [exact N|].
  assert (D : graph (snd (dequeue_song m)) = graph m).
  { unfold dequeue_song. now destruct (Queue.dequeue (up_next m)). }
  destruct (dequeue_song m) as [[q|] m1]; simpl in D;
    [simpl; now rewrite D|].
  destruct (truthy_id cur) as [c|]; [|simpl; now rewrite D].
  assert (N1 : forall v, NoDup (SongGraph.neighbors v (graph m1)))
    by now rewrite D.
  assert (S : forall v, NoDup (SongGraph.neighbors v
                (graph (snd (fst (get_next_similar_song c rnd m1)))))).
  { unfold get_next_similar_song.
    pose proof (shuffle_perm (get_similar_songs c m1) rnd) as P.
    destruct (Random.shuffle (get_similar_songs c m1) rnd) as [ns rnd'].
    simpl in P. unfold get_similar_songs in P.
    assert (G : forall v, NoDup (SongGraph.neighbors v
                (graph (if Dict.mem Z.eqb c (graph m1)
                        then set_graph (Dict.set Z.eqb c ns (graph m1)) m1
                        else m1)))).
    { destruct (Dict.mem Z.eqb c (graph m1)); [|exact N1].
      change (graph (set_graph (Dict.set Z.eqb c ns (graph m1)) m1))
        with (Dict.set Z.eqb c ns (graph m1)).
      intros v. rewrite neighbors_set.
      destruct (Z.eqb_spec v c) as [->|_]; [|apply N1].
      eapply Permutation_NoDup; [symmetry; exact P|apply N1]. }
    match goal with |- context [first_indexed ?i ?n] =>
      destruct (first_indexed i n) end; exact G. }
  destruct (get_next_similar_song c rnd m1) as [[[sim|] m2] rnd2];
    simpl in *; exact S.
Qed.

Lemma apply_op_nodup (o : op) (m : Library) :
  (forall v, NoDup (SongGraph.neighbors v (graph m))) ->
  forall v, NoDup (SongGraph.neighbors v (graph (apply_op m o))).
Proof.
  intros N. pose proof (apply_op_graph_kept o m) as K.
  destruct o; cbn [apply_op] in *; try (rewrite K; exact N).
  - rewrite scan_and_build_eq.
    change (graph (_rebuild_graph ?f))
      with (rebuild_rows (objs f) (Dict.values (_song_index f)) (graph f)).
    apply rebuild_rows_nodup. intros v.
    destruct (scan_fold_graph records (scan_reset m)
                (proj1 (scan_reset_scan_ids_inv m))) as (E & _).
    + reflexivity.
    + intros x. simpl. split; [discriminate|intros []].
    + rewrite E. constructor.
  - destruct (accepted fields); auto.
    destruct (get_song_by_id id m) as [l|] eqn:E.
    + destruct (update_song_fields id fields m l E)
        as (_ & _ & _ & _ & _ & _ & _ & Gr & _).
      rewrite Gr. now apply rebuild_rows_nodup.
    + unfold update_song. unfold get_song_by_id in E. now rewrite E.
  - destruct (Dict.mem Z.eqb id (_song_index m)) eqn:M;
      [|now rewrite (delete_song_unknown id m M)].
    destruct (delete_song_more_fields id m M) as (Gr & _). rewrite Gr.
    apply rebuild_rows_nodup. intros v.
    destruct (add_vertices (fun l => song_id (deref (objs m) l))
                (snd (unlink_first (has_id (objs m) id) (sll m)))
                SongGraph.empty) as [E _].
    rewrite E. constructor.
  - now apply get_next_song_nodup.
Qed.

(** X28. In every state a manager can be in, no id is listed twice among
    the similar songs of a track: [add_edge] appends a neighbour only when
    it is not yet in the adjacency list, and the shuffle in
    [get_next_similar_song] only reorders the list. *)
Theorem X28_similar_songs_distinct (ops : list op) (a : Z) :
  NoDup (get_similar_songs a (run ops new_manager)).
Proof.
  unfold get_similar_songs.
  assert (G : forall m, (forall v, NoDup (SongGraph.neighbors v (graph m))) ->
                forall v, NoDup (SongGraph.neighbors v (graph (run ops m)))).
  { unfold run. induction ops as [|o ops IH]; simpl; intros m N; auto.
    apply IH. now apply apply_op_nodup. }
  apply G. intros v. constructor.
Qed.

(** X29. In every state a manager can be in, no track is listed twice: not
    in the catalog, not in the result of a title search, and not in the
    tracks of a genre. *)
Theorem X29_results_without_repeats (ops : list op) (q g : string) :
  NoDup (get_all_songs (run ops new_manager))
  /\ NoDup (search_by_title q (run ops new_manager))
  /\ NoDup (get_songs_by_genre g (run ops new_manager)).
Proof.
  set (m := run ops new_manager).
  assert (N : NoDup (get_all_songs m)).
  { pose proof (reachable_ids_inv ops) as [D _]. fold m in D.
    unfold master_ids, ids_of in D. exact (NoDup_map_inv _ _ D). }
  split; [exact N|]. split.
  - unfold search_by_title.
    destruct (BST.search q (title_bst m)); [repeat constructor; intros []|].
    unfold BST.search_partial. apply NoDup_filter.
    destruct (reachable_title_inv ops) as [B _]. fold m in B.
    unfold bst_ok in B. rewrite B.
    eapply Permutation_NoDup; [symmetry; apply bst_of_inorder|exact N].
  - pose proof (genre_inv_lookup _ _ _ g (reachable_genre ops)) as E.
    fold m in E. unfold get_songs_by_genre. rewrite E.
    now apply NoDup_filter.
Qed.
